(** * The rhyme finder page (src/rhyme_finder.js)

    A shallow embedding of the [groupBy] helper of the rhyme finder page
    (lines 14-38) and of the fragment of JavaScript it relies on: [Map] with
    SameValueZero keys, [Array.prototype.sort] without a comparator, and the
    own-property order of a plain object.  The function is modelled twice: as
    a function on lists ([groupBy]), on which the properties of its result are
    stated, and as a program on a store of objects ([Stateful.groupBy]),
    statement by statement, on which its effects are stated;
    [groupBy_refines] relates the two.

    The functions of the page that surround it follow: the URLs of the
    requests (lines 85-100), the saved words (lines 108-122) and the callbacks
    that show the answer of the service (lines 130-165), as functions on the
    state of the page.  The request itself ([fetch], lines 65-74) and the
    event listeners (lines 168-180) are not modelled.

    Scope of the value model.  Numbers are the integer-valued ones (a [Z]);
    the digits of an integer are its string form in the language for the
    integers of absolute value below 2^53, the ones that a number of the
    language holds exactly ([exact]).  Strings are sequences of code units
    below 256 (a Rocq [string], compared code unit by code unit).  Objects
    live in a store and are referred to by location: plain objects, arrays
    and Maps, each with the prototype it is created with.  No value is a
    function, hence no value is a member of a built-in prototype: a lookup
    reads the properties of the object itself ([getProp]), and the
    statements about a lookup by name are about the names that
    [Object.prototype] does not have ([objectPrototypeNames]).  The
    conversion of a value to a string is [jsToString], which raises on an
    object that has a property [toString]; [groupBy] raises with it, and names
    the properties of its result by [toString], the string form of a
    primitive value: the statements about these names are about keys that are
    [primitive] or [exact]. *)

From Stdlib Require Import ZArith NArith String Ascii List Bool Lia.
From Stdlib Require Import Sorted Permutation OrderedTypeEx.
From Stdlib Require Import DecimalString DecimalPos DecimalN DecimalZ.
From stdpp Require Import base list strings.

Local Open Scope string_scope.
Local Open Scope Z_scope.
Local Open Scope list_scope.

(** * The model *)

(** ** Values, store, errors *)

Abbreviation loc := nat.

Inductive value : Type :=
| VUndefined
| VNull
| VBool (b : bool)
| VNum (n : Z)
| VStr (s : string)
| VRef (l : loc).

Inductive cell : Type :=
| CObj (props : list (string * value))      (* plain object, own properties in creation order *)
| CArr (elems : list value)                 (* Array *)
| CMap (entries : list (value * value)).    (* Map, entries in insertion order *)

(** The store: the object at location [l] is the cell of index [l]. *)
Abbreviation heap := (list cell).

Inductive error : Type :=
| TypeError (msg : string)
| Thrown (v : value).

Inductive result (A : Type) : Type :=
| Ok (a : A)
| Throw (e : error).
Arguments Ok {A} a.
Arguments Throw {A} e.

Definition bind {A B} (r : result A) (k : A -> result B) : result B :=
  match r with
  | Ok a => k a
  | Throw e => Throw e
  end.

(** ** The language operations [groupBy] uses *)

(** SameValueZero, the key equality of [Map] ([has], [get], [set]). *)
Definition sameValueZero (x y : value) : bool :=
  match x, y with
  | VUndefined, VUndefined => true
  | VNull, VNull => true
  | VBool a, VBool b => Bool.eqb a b
  | VNum a, VNum b => Z.eqb a b
  | VStr a, VStr b => String.eqb a b
  | VRef a, VRef b => Nat.eqb a b
  | _, _ => false
  end.

(** The string form of a value: ToString on the primitive values, a number
    being printed by its digits, as the language prints the integers of
    absolute value below 2^53.  For an object it is the string form that
    [Object.prototype.toString] gives a plain object; whether the conversion
    of an object raises is told by [jsToString] below, which needs the store,
    and the string form of an array (its elements, joined) and of a Map are
    string forms that [jsToString] gives and [toString] does not.  The names
    of the properties of the result of [groupBy] are taken from [toString]. *)
Definition toString (v : value) : string :=
  match v with
  | VUndefined => "undefined"
  | VNull => "null"
  | VBool true => "true"
  | VBool false => "false"
  | VNum n => NilZero.string_of_int (Z.to_int n)
  | VStr s => s
  | VRef _ => "[object Object]"
  end.

(** A property key is an array index when it is the canonical decimal form
    of an integer i with 0 <= i < 2^32 - 1. *)
Definition arrayIndex (s : string) : option N :=
  match NilZero.uint_of_string s with
  | Some d =>
      let n := N.of_uint d in
      if String.eqb (NilZero.string_of_uint (N.to_uint n)) s && (n <? 4294967295)%N
      then Some n else None
  | None => None
  end.

Definition isArrayIndex (s : string) : bool :=
  match arrayIndex s with Some _ => true | None => false end.

(** Stable insertion sort: an element is put before the first element it
    is not greater than, so that equal elements keep their order. *)
Section Sort.
Context {A : Type} (le : A -> A -> bool).

Fixpoint insertSorted (x : A) (l : list A) : list A :=
  match l with
  | [] => [x]
  | y :: l' => if le x y then x :: l else y :: insertSorted x l'
  end.

Fixpoint stableSort (l : list A) : list A :=
  match l with
  | [] => []
  | x :: l' => insertSorted x (stableSort l')
  end.
End Sort.

Definition isUndefined (v : value) : bool :=
  match v with VUndefined => true | _ => false end.

(** The comparison of [Array.prototype.sort] called without a comparator:
    the string forms are compared code unit by code unit. *)
Definition sortCompare_le (x y : value) : bool :=
  String.leb (toString x) (toString y).

(** [Array.prototype.sort()]: the undefined elements go to the end, whatever
    their string form, and the others are sorted, stably, by [sortCompare_le]. *)
Definition arraySort (a : list value) : list value :=
  stableSort sortCompare_le (List.filter (fun v => negb (isUndefined v)) a)
  ++ List.filter isUndefined a.

(** *** Map *)
Section JsMap.
Context {V : Type}.

Fixpoint map_get (m : list (value * V)) (k : value) : option V :=
  match m with
  | [] => None
  | (k', v) :: m' => if sameValueZero k' k then Some v else map_get m' k
  end.

Definition map_has (m : list (value * V)) (k : value) : bool :=
  match map_get m k with Some _ => true | None => false end.

(** [set] replaces the value of an existing entry where it is and appends
    a new entry otherwise. *)
Fixpoint map_set (m : list (value * V)) (k : value) (v : V) : list (value * V) :=
  match m with
  | [] => [(k, v)]
  | (k', v') :: m' =>
      if sameValueZero k' k then (k', v) :: m' else (k', v') :: map_set m' k v
  end.

Definition map_keys (m : list (value * V)) : list value := List.map fst m.
End JsMap.

(** *** Plain objects *)
Section JsObject.
Context {V : Type}.

Fixpoint obj_get (o : list (string * V)) (k : string) : option V :=
  match o with
  | [] => None
  | (k', v) :: o' => if String.eqb k' k then Some v else obj_get o' k
  end.

(** [o[k] = v]: an existing property keeps its place. *)
Fixpoint obj_set (o : list (string * V)) (k : string) (v : V) : list (string * V) :=
  match o with
  | [] => [(k, v)]
  | (k', v') :: o' =>
      if String.eqb k' k then (k', v) :: o' else (k', v') :: obj_set o' k v
  end.

(** [o[k] = v], the assignment, on an object whose prototype is
    [Object.prototype]: a name that the object does not have is looked up in
    the prototype, where ["__proto__"] is an accessor; its setter is run and
    no property is created (the setter changes the prototype of the object
    when [v] is an object, which the model, holding own properties only, does
    not record).  The data properties of the prototypes are writable, so that
    every other name is created on the object itself. *)
Definition obj_assign (o : list (string * V)) (k : string) (v : V) : list (string * V) :=
  match obj_get o k with
  | Some _ => obj_set o k v
  | None => if String.eqb k "__proto__" then o else obj_set o k v
  end.

Definition indexOf (p : string * V) : N :=
  match arrayIndex (fst p) with Some n => n | None => 0%N end.

(** The order in which the own properties of an ordinary object are
    enumerated ([Object.keys], [Object.entries], [for..in]): the array
    indices in ascending numeric order, then the other string keys in the
    order of their creation. *)
Definition entries (o : list (string * V)) : list (string * V) :=
  stableSort (fun p q => (indexOf p <=? indexOf q)%N)
             (List.filter (fun p => isArrayIndex (fst p)) o)
  ++ List.filter (fun p => negb (isArrayIndex (fst p))) o.

Definition keys (o : list (string * V)) : list string := List.map fst (entries o).
End JsObject.

(** *** Property access *)

Definition charAt (s : string) (i : N) : value :=
  match String.get (N.to_nat i) s with
  | Some c => VStr (String c EmptyString)
  | None => VUndefined
  end.

(** [obj[propName]] for a string [propName].  Reading a property of
    [undefined] or [null] raises a TypeError; an absent property reads as
    [undefined].  Only own properties are modelled: the members of the
    built-in prototypes are functions, which the values of the model do not
    include, so that the model is the language for the names that are no
    member of a prototype of the object read ([objectPrototypeNames] lists the
    members of [Object.prototype]).  A location outside the store, which no
    well-formed state contains, reads as an object without properties. *)
Definition getProp (σ : heap) (obj : value) (propName : string) : result value :=
  match obj with
  | VUndefined => Throw (TypeError "Cannot read properties of undefined")
  | VNull => Throw (TypeError "Cannot read properties of null")
  | VBool _ | VNum _ => Ok VUndefined
  | VStr s =>
      if String.eqb propName "length" then Ok (VNum (Z.of_nat (String.length s)))
      else match arrayIndex propName with
           | Some i => Ok (charAt s i)
           | None => Ok VUndefined
           end
  | VRef l =>
      match σ !! l with
      | Some (CObj props) =>
          Ok (match obj_get props propName with Some v => v | None => VUndefined end)
      | Some (CArr elems) =>
          if String.eqb propName "length" then Ok (VNum (Z.of_nat (length elems)))
          else match arrayIndex propName with
               | Some i => Ok (match elems !! N.to_nat i with Some v => v | None => VUndefined end)
               | None => Ok VUndefined
               end
      | Some (CMap _) | None => Ok VUndefined
      end
  end.

(** *** The conversion of an object to a string *)

Definition conversionError : error :=
  TypeError "Cannot convert object to primitive value".

Fixpoint mapResult {A B} (f : A -> result B) (l : list A) : result (list B) :=
  match l with
  | [] => Ok []
  | x :: l' => bind (f x) (fun y => bind (mapResult f l') (fun ys => Ok (y :: ys)))
  end.

(** ToString on the values of the store [σ] (ToPrimitive with the hint
    string, then ToString).  The values of the model are no functions, hence
    a plain object that has a property [toString] of its own has no method to
    convert it: [valueOf] is its own property, no function either, or the
    method of [Object.prototype], which returns the object; the conversion
    raises a TypeError.  Without such a property the method of
    [Object.prototype] answers.  An array is converted by [join]: its
    elements, converted in turn, [undefined] and [null] as the empty string,
    with commas between them; an array met again while it is being joined
    gives the empty string, as the engines have it.  [visiting] lists the
    arrays being joined, and [fuel] bounds their number. *)
Fixpoint convert (fuel : nat) (σ : heap) (visiting : list loc) (v : value) : result string :=
  match v with
  | VRef l =>
      match σ !! l with
      | Some (CObj props) =>
          match obj_get props "toString" with
          | Some _ => Throw conversionError
          | None => Ok "[object Object]"
          end
      | Some (CArr elems) =>
          match fuel with
          | O => Ok EmptyString
          | S fuel' =>
              if existsb (Nat.eqb l) visiting then Ok EmptyString
              else
                bind (mapResult
                        (fun e => match e with
                                  | VUndefined | VNull => Ok EmptyString
                                  | _ => convert fuel' σ (l :: visiting) e
                                  end) elems)
                     (fun parts => Ok (String.concat "," parts))
          end
      | Some (CMap _) => Ok "[object Map]"
      | None => Ok "[object Object]"
      end
  | _ => Ok (toString v)
  end.

Definition jsToString (σ : heap) (v : value) : result string :=
  convert (S (length σ)) σ [] v.

Definition convertible (σ : heap) (v : value) : bool :=
  match jsToString σ v with Ok _ => true | Throw _ => false end.

(** ** groupBy *)

(** The [property] parameter: a property name or a function of one record.
    A function is given the store it runs in: it may read any object, and it
    answers with a key or raises.  It does not write. *)
Inductive keyRule : Type :=
| FieldName (propName : string)
| Callable (f : heap -> value -> result value).

(** Lines 17-20: a property name becomes the function reading that property. *)
Definition toFunction (σ : heap) (property : keyRule) : value -> result value :=
  match property with
  | Callable f => f σ
  | FieldName propName => fun obj => getProp σ obj propName
  end.

(** Lines 26-28: make sure that the group exists. *)
Definition ensureGroup (groupedObjects : list (value * list value)) (groupName : value)
    : list (value * list value) :=
  if negb (map_has groupedObjects groupName)
  then map_set groupedObjects groupName []
  else groupedObjects.

(** Lines 23-30, with the Map as the list of its entries and every group as
    the list of its items: [push] replaces the list of the entry, which keeps
    its place. *)
Fixpoint groupLoop (property : value -> result value) (objects : list value)
    (groupedObjects : list (value * list value)) : result (list (value * list value)) :=
  match objects with
  | [] => Ok groupedObjects
  | object :: rest =>
      bind (property object) (fun groupName =>
      let groupedObjects := ensureGroup groupedObjects groupName in
      match map_get groupedObjects groupName with
      | Some items =>
          groupLoop property rest (map_set groupedObjects groupName (items ++ [object]))
      | None => Throw (TypeError "Cannot read properties of undefined (reading 'push')")
      end)
  end.

(** Lines 33-36: the keys of the Map are sorted and the groups are assigned,
    in that order, to the properties of a new object.  [groupOf] is
    [groupedObjects.get(key)]; every sorted key is a key of the Map, so that
    the lookup never misses there ([map_get_keys]). *)
Definition groupOf (groupedObjects : list (value * list value)) (key : value) : list value :=
  match map_get groupedObjects key with Some items => items | None => [] end.

Definition assignGroup (groupedObjects : list (value * list value))
    (result : list (string * list value)) (key : value) : list (string * list value) :=
  obj_assign result (toString key) (groupOf groupedObjects key).

Definition buildResult (groupedObjects : list (value * list value)) : list (string * list value) :=
  fold_left (assignGroup groupedObjects) (arraySort (map_keys groupedObjects)) [].

(** [groupBy(objects, property)], for records that live in the store [σ].
    The result is the returned object, as the list of its properties in
    creation order; [entries] and [keys] give them as a caller sees them.
    Lines 34 and 35 convert the keys to strings, [sort] to compare them and
    the assignment to name the property: a key that cannot be converted makes
    the one or the other raise. *)
Definition groupBy (σ : heap) (objects : list value) (property : keyRule)
    : result (list (string * list value)) :=
  let property := toFunction σ property in
  bind (groupLoop property objects []) (fun groupedObjects =>
  if forallb (convertible σ) (map_keys groupedObjects)
  then Ok (buildResult groupedObjects)
  else Throw conversionError).

(** ** groupBy as a program on the store *)

Module Stateful.
(** Computations that read and write the store and may raise; the store
    that a raising computation leaves behind is kept. *)
Definition M (A : Type) : Type := heap -> result A * heap.

Definition ret {A} (a : A) : M A := fun σ => (Ok a, σ).
Definition raise {A} (e : error) : M A := fun σ => (Throw e, σ).
Definition seq {A B} (c : M A) (k : A -> M B) : M B :=
  fun σ =>
    match c σ with
    | (Ok a, σ') => k a σ'
    | (Throw e, σ') => (Throw e, σ')
    end.

Notation "'let*' x := c 'in' k" := (seq c (fun x => k))
  (at level 10, x name, c at level 100, k at level 200).
Notation "c ;;; k" := (seq c (fun _ => k))
  (at level 100, k at level 200, right associativity).

(** A new object: [new Map()], [[]], [{}], [Array.from(..)]. *)
Definition alloc (c : cell) : M loc := fun σ => (Ok (length σ), σ ++ [c]).

Definition load (l : loc) : M cell :=
  fun σ =>
    match σ !! l with
    | Some c => (Ok c, σ)
    | None => (Throw (TypeError "no such object"), σ)
    end.

(** The update of an object in place; the other objects are as they were. *)
Definition store (l : loc) (c : cell) : M unit := fun σ => (Ok tt, <[l := c]> σ).

(** The methods of [Map.prototype] raise a TypeError on another receiver. *)
Definition mapEntries (m : loc) : M (list (value * value)) :=
  let* c := load m in
  match c with
  | CMap es => ret es
  | _ => raise (TypeError "incompatible receiver")
  end.

(** [m.has(k)] *)
Definition mapHas (m : loc) (k : value) : M bool :=
  let* es := mapEntries m in ret (map_has es k).

(** [m.set(k, v)] *)
Definition mapSet (m : loc) (k v : value) : M unit :=
  let* es := mapEntries m in store m (CMap (map_set es k v)).

(** [m.get(k)], [undefined] when [k] is no key. *)
Definition mapGet (m : loc) (k : value) : M value :=
  let* es := mapEntries m in
  ret (match map_get es k with Some v => v | None => VUndefined end).

(** [m.keys()], in insertion order. *)
Definition mapKeys (m : loc) : M (list value) :=
  let* es := mapEntries m in ret (map_keys es).

(** The elements of the array [a], for [for (const x of a)]; only arrays
    are iterated in the model. *)
Definition arrayElems (a : loc) : M (list value) :=
  let* c := load a in
  match c with
  | CArr elems => ret elems
  | _ => raise (TypeError "object is not iterable")
  end.

(** [a.push(v)], for the value [a] that [get] returned: the array referred
    to is extended in place. *)
Definition arrayPush (a : value) (v : value) : M unit :=
  match a with
  | VRef l =>
      let* c := load l in
      match c with
      | CArr elems => store l (CArr (elems ++ [v]))
      | _ => raise (TypeError "push is not a function")
      end
  | VUndefined => raise (TypeError "Cannot read properties of undefined (reading 'push')")
  | VNull => raise (TypeError "Cannot read properties of null (reading 'push')")
  | _ => raise (TypeError "push is not a function")
  end.

(** [a.sort()]: the array is sorted in place.  The comparison converts its
    two arguments to strings: when the array has two elements or more besides
    [undefined], each of them is compared with another, and the sort raises,
    before it writes, if one of them cannot be converted. *)
Definition sortConverts (σ : heap) (elems : list value) : bool :=
  let compared := List.filter (fun v => negb (isUndefined v)) elems in
  (length compared <? 2)%nat || forallb (convertible σ) compared.

Definition arraySortInPlace (a : loc) : M unit :=
  let* elems := arrayElems a in
  fun σ =>
    if sortConverts σ elems
    then store a (CArr (arraySort elems)) σ
    else (Throw conversionError, σ).

(** ToPropertyKey. *)
Definition toPropertyKey (key : value) : M string :=
  fun σ =>
    match jsToString σ key with
    | Ok _ => (Ok (toString key), σ)
    | Throw e => (Throw e, σ)
    end.

(** [o[key] = v] on a plain object whose prototype is [Object.prototype]:
    the key is converted to a property name. *)
Definition objSet (o : loc) (key : value) (v : value) : M unit :=
  let* name := toPropertyKey key in
  let* c := load o in
  match c with
  | CObj props => store o (CObj (obj_assign props name v))
  | _ => raise (TypeError "not a plain object")
  end.

(** [property(object)], lines 17-20 and 24: the rule reads the store as it is
    when it is called. *)
Definition call (property : keyRule) (obj : value) : M value :=
  fun σ => (toFunction σ property obj, σ).

(** [for (const x of l) body]: [l] holds the elements of the array as the loop
    starts; neither loop of [groupBy] writes to the array it iterates. *)
Fixpoint forOf {A} (l : list A) (body : A -> M unit) : M unit :=
  match l with
  | [] => ret tt
  | x :: l' => body x ;;; forOf l' body
  end.

(** Lines 26-28: make sure that the group exists. *)
Definition ensureGroup (groupedObjects : loc) (groupName : value) : M unit :=
  let* has := mapHas groupedObjects groupName in
  if negb has
  then let* group := alloc (CArr []) in mapSet groupedObjects groupName (VRef group)
  else ret tt.

(** Lines 24-29, the body of the loop over the records. *)
Definition groupRecord (groupedObjects : loc) (property : keyRule) (object : value) : M unit :=
  let* groupName := call property object in
  ensureGroup groupedObjects groupName ;;;
  let* group := mapGet groupedObjects groupName in
  arrayPush group object.

(** Line 35, the body of the loop over the sorted keys. *)
Definition assignKey (groupedObjects result : loc) (key : value) : M unit :=
  let* group := mapGet groupedObjects key in
  objSet result key group.

(** [groupBy(objects, property)], lines 14-38, for the array at the location
    [objects]. *)
Definition groupBy (objects : loc) (property : keyRule) : M value :=
  let* groupedObjects := alloc (CMap []) in
  let* elems := arrayElems objects in
  forOf elems (groupRecord groupedObjects property) ;;;
  let* result := alloc (CObj []) in
  let* ks := mapKeys groupedObjects in
  let* keysArray := alloc (CArr ks) in
  arraySortInPlace keysArray ;;;
  let* sorted := arrayElems keysArray in
  forOf sorted (assignKey groupedObjects result) ;;;
  ret (VRef result).
End Stateful.

(** ** The page (lines 40-49) *)

(** What an element holds is kept as the sequence of the writes made to it
    since it was last reset: markup assigned or added through [innerHTML], and
    text nodes added by [append].  The document that the browser builds from
    the markup is not modelled. *)
Inductive node : Type :=
| Html (markup : string)
| Text (data : string).

(** The elements the script looks up (lines 41-46), with the value of the
    input field, and the array of line 49. *)
Record page : Type := {
  outputDescription : list node;
  wordOutput : list node;
  wordInput : string;
  savedWords : list node;
  savedWordsArray : list value
}.

(** [el.innerHTML = s]: the children are replaced by what [s] is parsed to,
    nothing for the empty string (and for [null]). *)
Definition setInnerHTML (s : string) : list node :=
  match s with
  | EmptyString => []
  | _ => [Html s]
  end.

(** [el.innerHTML += s] *)
Definition addInnerHTML (el : list node) (s : string) : list node := el ++ [Html s].

(** [el.append(s)] for a string [s]: a text node is added. *)
Definition append (el : list node) (s : string) : list node := el ++ [Text s].

(** ** The request URLs (lines 85-100) *)

(** The UTF-8 bytes of a code unit below 256. *)
Definition utf8 (c : ascii) : list ascii :=
  let n := N_of_ascii c in
  if (n <? 128)%N then [c]
  else [ascii_of_N (192 + n / 64); ascii_of_N (128 + n mod 64)].

Definition hexDigit (n : N) : ascii :=
  ascii_of_N (if (n <? 10)%N then 48 + n else 55 + n).

Definition isAlnum (c : ascii) : bool :=
  let n := N_of_ascii c in
  ((48 <=? n) && (n <=? 57) || (65 <=? n) && (n <=? 90) || (97 <=? n) && (n <=? 122))%N.

(** The bytes that the application/x-www-form-urlencoded serializer leaves
    as they are: the ASCII alphanumerics and * - . _ *)
Definition formUnreserved (b : ascii) : bool :=
  let n := N_of_ascii b in
  (isAlnum b || (n =? 42) || (n =? 45) || (n =? 46) || (n =? 95))%N.

(** A space becomes +, any other byte a percent sign and two upper-case
    hexadecimal digits. *)
Definition encodeByte (b : ascii) : string :=
  let n := N_of_ascii b in
  if (n =? 32)%N then "+"
  else if formUnreserved b then String b EmptyString
  else String "%" (String (hexDigit (n / 16)) (String (hexDigit (n mod 16)) EmptyString)).

Definition encodeChar (c : ascii) : string :=
  String.concat EmptyString (List.map encodeByte (utf8 c)).

Fixpoint formEncode (s : string) : string :=
  match s with
  | EmptyString => EmptyString
  | String c s' => (encodeChar c ++ formEncode s')%string
  end.

(** [new URLSearchParams(init).toString()] for the pairs of the record
    [init]. *)
Fixpoint urlSearchParams (init : list (string * string)) : string :=
  match init with
  | [] => EmptyString
  | [(name, v)] => (formEncode name ++ "=" ++ formEncode v)%string
  | (name, v) :: rest =>
      (formEncode name ++ "=" ++ formEncode v ++ "&" ++ urlSearchParams rest)%string
  end.

(** Lines 85-87.  The parameter is not used: the word is read from the
    input field. *)
Definition getDatamuseRhymeUrl (p : page) (rel_rhy : value) : string :=
  ("https://api.datamuse.com/words?" ++ urlSearchParams [("rel_rhy", wordInput p)])%string.

(** Lines 98-100. *)
Definition getDatamuseSimilarToUrl (p : page) (ml : value) : string :=
  ("https://api.datamuse.com/words?" ++ urlSearchParams [("ml", wordInput p)])%string.

(** ** Saved words (lines 108-122) *)

Definition setSavedWords (p : page) (el : list node) (arr : list value) : page :=
  {| outputDescription := outputDescription p;
     wordOutput := wordOutput p;
     wordInput := wordInput p;
     savedWords := el;
     savedWordsArray := arr |}.

(** [addToSavedWords(word)].  [append] and [+] convert the word to a string. *)
Definition addToSavedWords (word : value) (p : page) : page :=
  let el :=
    match length (savedWordsArray p) with
    | 0%nat => setInnerHTML "(none)"
    | 1%nat => append (setInnerHTML EmptyString) (toString word)
    | _ => append (savedWords p) (", " ++ toString word)%string
    end in
  setSavedWords p el (savedWordsArray p ++ [word]).

(** ** The callbacks of the requests (lines 130-165) *)

Definition setOutput (p : page) (description output : list node) : page :=
  {| outputDescription := description;
     wordOutput := output;
     wordInput := wordInput p;
     savedWords := savedWords p;
     savedWordsArray := savedWordsArray p |}.

Definition quote : string := String (ascii_of_nat 34) EmptyString.

(** The list item of a word, lines 140 and 157. *)
Definition listItem (word : string) : string :=
  ("<li class=" ++ quote ++ "list-group-item" ++ quote ++ ">" ++ word
   ++ " </span><button onClick='addToSavedWords(" ++ quote ++ word ++ quote
   ++ ")' id='save-button' class='btn btn-sm btn-outline-success save' type=button>Save</button></li>")%string.

(** *** The conditions of the callbacks *)

(** ToBoolean, for [if (data.length)]. *)
Definition truthy (v : value) : bool :=
  match v with
  | VUndefined | VNull => false
  | VBool b => b
  | VNum n => negb (n =? 0)
  | VStr s => negb (String.eqb s EmptyString)
  | VRef _ => true
  end.

(** The white space that the conversion of a string to a number strips,
    among the code units below 256: tab, line feed, vertical tab, form feed,
    carriage return, space and no-break space. *)
Definition isStrWhiteSpace (c : ascii) : bool :=
  existsb (N.eqb (N_of_ascii c)) [9; 10; 11; 12; 13; 32; 160]%N.

Fixpoint trimStart (s : string) : string :=
  match s with
  | EmptyString => EmptyString
  | String c s' => if isStrWhiteSpace c then trimStart s' else s
  end.

Fixpoint trimEnd (s : string) : string :=
  match s with
  | EmptyString => EmptyString
  | String c s' =>
      match trimEnd s' with
      | EmptyString => if isStrWhiteSpace c then EmptyString else String c EmptyString
      | t => String c t
      end
  end.

Definition isDigit (c : ascii) : bool :=
  ((48 <=? N_of_ascii c) && (N_of_ascii c <=? 57))%N.

(** The decimal digits at the head of a string, and what follows them. *)
Fixpoint spanDigits (s : string) : list ascii * string :=
  match s with
  | EmptyString => ([], EmptyString)
  | String c s' =>
      if isDigit c then let (ds, rest) := spanDigits s' in (c :: ds, rest) else ([], s)
  end.

Definition digitsValue (ds : list ascii) : Z :=
  fold_left (fun n c => 10 * n + (Z.of_N (N_of_ascii c) - 48)) ds 0.

(** An optional sign: whether it is a minus, and what follows it. *)
Definition dropSign (s : string) : bool * string :=
  match s with
  | String "+" s' => (false, s')
  | String "-" s' => (true, s')
  | _ => (false, s)
  end.

(** The value of an exponent part that ends the string, 0 when the string
    ends without one. *)
Definition exponentOf (s : string) : option Z :=
  match s with
  | EmptyString => Some 0
  | String c s' =>
      if Ascii.eqb c "e" || Ascii.eqb c "E" then
        let (negative, digits) := dropSign s' in
        match spanDigits digits with
        | ((_ :: _) as ds, EmptyString) =>
            Some (if negative then - digitsValue ds else digitsValue ds)
        | _ => None
        end
      else None
  end.

(** An unsigned decimal literal (digits, with an optional fraction and an
    optional exponent) whose number is zero: its digits are zeros, or its
    value [d * 10^-k] is at most 2^-1075, half of the least positive number,
    and is rounded to zero. *)
Definition decimalIsZero (s : string) : bool :=
  let (int, afterInt) := spanDigits s in
  let (frac, afterFrac) :=
    match afterInt with
    | String "." s' => spanDigits s'
    | _ => ([], afterInt)
    end in
  match int ++ frac, exponentOf afterFrac with
  | (_ :: _) as ds, Some e =>
      let d := digitsValue ds in
      let k := Z.of_nat (length frac) - e in
      (d =? 0) || ((0 <? k) && (d * 2 ^ 1075 <=? 10 ^ k))
  | _, _ => false
  end.

(** A binary, octal or hexadecimal literal whose number is zero. *)
Definition nonDecimalIsZero (s : string) : bool :=
  match s with
  | String "0" (String c (String d ds)) =>
      existsb (Ascii.eqb c) ["x"; "X"; "o"; "O"; "b"; "B"]%char
      && forallb (Ascii.eqb "0") (d :: list_ascii_of_string ds)
  | _ => false
  end.

(** The number that a string converts to is zero: the string is empty or
    white space, or a literal of the number zero between white space. *)
Definition stringIsZero (s : string) : bool :=
  match trimEnd (trimStart s) with
  | EmptyString => true
  | t => nonDecimalIsZero t || decimalIsZero (snd (dropSign t))
  end.

(** [v == 0].  [undefined] and [null] equal each other only; a boolean and a
    string are converted to a number; an object is converted to a primitive
    value first, which is its string form for the objects of the model. *)
Definition looseEqZero (σ : heap) (v : value) : result bool :=
  match v with
  | VUndefined | VNull => Ok false
  | VBool b => Ok (negb b)
  | VNum n => Ok (n =? 0)
  | VStr s => Ok (stringIsZero s)
  | VRef _ => bind (jsToString σ v) (fun s => Ok (stringIsZero s))
  end.

(** The values that [for (const object of objects)] visits, line 23: the
    elements of an array, the characters of a string, and for a Map a new
    array [[key, value]] for each entry, added to the store.  A plain object
    and the other primitive values are not iterable. *)
Definition iterate (σ : heap) (objects : value) : result (heap * list value) :=
  match objects with
  | VStr s =>
      Ok (σ, List.map (fun c => VStr (String c EmptyString)) (list_ascii_of_string s))
  | VRef l =>
      match σ !! l with
      | Some (CArr elems) => Ok (σ, elems)
      | Some (CMap es) =>
          Ok (σ ++ List.map (fun e => CArr [fst e; snd e]) es,
              List.map (fun i => VRef (length σ + i)%nat) (seq 0 (length es)))
      | _ => Throw (TypeError "objects is not iterable")
      end
  | _ => Throw (TypeError "objects is not iterable")
  end.

(** *** The callbacks *)

(** [items.forEach((item) => { wordOutput.innerHTML += ... ${item.word} ... })]:
    the page reached, and the error raised if reading [item.word] or
    converting it to a string raises. *)
Fixpoint forEachItem (σ : heap) (items : list value) (p : page) : page * option error :=
  match items with
  | [] => (p, None)
  | item :: rest =>
      match bind (getProp σ item "word") (jsToString σ) with
      | Ok word =>
          forEachItem σ rest
            (setOutput p (outputDescription p)
               (addInnerHTML (wordOutput p) (listItem word)))
      | Throw e => (p, Some e)
      end
  end.

(** Lines 135-142, the loop over [Object.entries(wordSyllables)]. *)
Fixpoint forEachGroup (σ : heap) (groups : list (string * list value)) (p : page)
    : page * option error :=
  match groups with
  | [] => (p, None)
  | (key, items) :: rest =>
      let p1 := setOutput p
                  (setInnerHTML ("Words that rhyme with " ++ wordInput p)%string)
                  (addInnerHTML (wordOutput p) ("<h3>Syllables " ++ key ++ "</h3>")%string) in
      match forEachItem σ items p1 with
      | (p2, None) => forEachGroup σ rest p2
      | (p2, Some e) => (p2, Some e)
      end
  end.

(** The callback of [datamuseRhymeRequest], lines 131-148, on the answer
    [data] of the service, any value. *)
Definition rhymeCallback (σ : heap) (data : value) (p : page) : page * option error :=
  let p := setOutput p (outputDescription p) (setInnerHTML EmptyString) in
  let none := (setOutput p (setInnerHTML EmptyString) (setInnerHTML "(no results)"), None) in
  match data with
  | VUndefined | VNull => none
  | _ =>
      match bind (getProp σ data "length") (looseEqZero σ) with
      | Throw e => (p, Some e)
      | Ok true => none
      | Ok false =>
          match iterate σ data with
          | Throw e => (p, Some e)
          | Ok (σ', objects) =>
              match groupBy σ' objects (FieldName "numSyllables") with
              | Ok wordSyllables => forEachGroup σ' (entries wordSyllables) p
              | Throw e => (p, Some e)
              end
          end
      end
  end.

(** The callback of [datamuseSimilarRequest], lines 152-164: [data.length] is
    read without a test for [null], and [forEach] is a method of the arrays
    only. *)
Definition similarCallback (σ : heap) (data : value) (p : page) : page * option error :=
  let p := setOutput p (outputDescription p) (setInnerHTML EmptyString) in
  match getProp σ data "length" with
  | Throw e => (p, Some e)
  | Ok len =>
      if truthy len then
        let p := setOutput p
                   (setInnerHTML ("Words with a similar meaning to " ++ wordInput p)%string)
                   (wordOutput p) in
        match data with
        | VRef l =>
            match σ !! l with
            | Some (CArr elems) => forEachItem σ elems p
            | _ => (p, Some (TypeError "data.forEach is not a function"))
            end
        | _ => (p, Some (TypeError "data.forEach is not a function"))
        end
      else (setOutput p (setInnerHTML EmptyString) (setInnerHTML "(no results)"), None)
  end.

(** ** Notions used in the statements *)

(** [inGroup property k r]: the key derived from the record [r] is [k]. *)
Definition inGroup (property : value -> result value) (k r : value) : bool :=
  match property r with
  | Ok k' => sameValueZero k' k
  | Throw _ => false
  end.

(** The records of the result, group after group in the order of enumeration. *)
Definition flatten (res : list (string * list value)) : list value :=
  concat (List.map snd (entries res)).

(** The numeric value of a key that is an array index. *)
Definition indexValue (s : string) : N :=
  match arrayIndex s with Some n => n | None => 0%N end.

(** The natural order of the keys of one type: numeric on numbers,
    lexicographic on strings (nothing is asked of other pairs of keys). *)
Definition naturalLe (x y : value) : bool :=
  match x, y with
  | VNum a, VNum b => (a <=? b)%Z
  | VStr a, VStr b => String.leb a b
  | _, _ => true
  end.

(** The groups, in the order given, have keys that ascend under [naturalLe]:
    the key of a record of a group is below the key of a record of any later
    group. *)
Definition keysAscending (property : value -> result value)
    (groups : list (string * list value)) : Prop :=
  StronglySorted
    (fun p q => forall r1 r2 k1 k2,
       In r1 (snd p) -> In r2 (snd q) ->
       property r1 = Ok k1 -> property r2 = Ok k2 -> naturalLe k1 k2 = true)
    groups.

(** The keys, as enumerated, ascend in the order of the sort, which compares
    string forms. *)
Definition keysSortedAsStrings (ks : list string) : Prop :=
  StronglySorted (fun s t => String.leb s t = true) ks.

(** No two distinct derived keys have one string form. *)
Definition distinctNames (property : value -> result value) (objects : list value) : Prop :=
  forall r1 r2 k1 k2, In r1 objects -> In r2 objects ->
    property r1 = Ok k1 -> property r2 = Ok k2 ->
    toString k1 = toString k2 -> k1 = k2.

(** The values whose string form is [toString]: the primitive values, and
    among them, for the digits of a number, the integers that the language
    prints digit by digit. *)
Definition primitive (v : value) : Prop := forall l, v <> VRef l.

Definition exact (v : value) : Prop :=
  match v with
  | VRef _ => False
  | VNum n => - 2 ^ 53 < n < 2 ^ 53
  | _ => True
  end.

(** The names of the members of [Object.prototype], which every plain object
    inherits; [getProp] is the language on a plain object for every other
    name. *)
Definition objectPrototypeNames : list string :=
  [ "constructor"; "__defineGetter__"; "__defineSetter__"; "hasOwnProperty";
    "__lookupGetter__"; "__lookupSetter__"; "isPrototypeOf"; "propertyIsEnumerable";
    "toString"; "valueOf"; "__proto__"; "toLocaleString" ].

Definition plainObject (σ : heap) (r : value) : Prop :=
  exists l props, r = VRef l /\ σ !! l = Some (CObj props).

(** The name that the assignment of line 35 gives to the prototype. *)
Definition isProto (s : string) : bool := String.eqb s "__proto__".

(** [named property r]: the key of the record [r] has another string form
    than ["__proto__"], so that its group becomes a property of the result. *)
Definition named (property : value -> result value) (r : value) : bool :=
  match property r with
  | Ok k => negb (isProto (toString k))
  | Throw _ => true
  end.

(** The entries of the Map whose key has another string form than
    ["__proto__"], and the object that line 35 builds from them: every
    assignment sets a property. *)
Definition ownGroups (m : list (value * list value)) : list (value * list value) :=
  List.filter (fun e => negb (isProto (toString (fst e)))) m.

Definition defineGroup (groupedObjects : list (value * list value))
    (result : list (string * list value)) (key : value) : list (string * list value) :=
  obj_set result (toString key) (groupOf groupedObjects key).

Definition defineAll (groupedObjects : list (value * list value))
    : list (string * list value) :=
  fold_left (defineGroup groupedObjects) (arraySort (map_keys groupedObjects)) [].

(** The creation of a property: a new name goes after the names there are. *)
Definition addName (names : list string) (s : string) : list string :=
  if existsb (String.eqb s) names then names else (names ++ [s]).

(** The names created for the keys other than [undefined]. *)
Definition definedNames (m : list (value * list value)) : list string :=
  fold_left addName
    (List.map toString
       (stableSort sortCompare_le
          (List.filter (fun v => negb (isUndefined v)) (map_keys m))))
    [].

(** *** The store *)

(** [triple P c Q E]: from a store that satisfies [P], the computation [c]
    returns a value and a store that satisfy [Q], or raises and leaves a store
    that satisfies [E]. *)
Definition triple {A} (P : heap -> Prop) (c : Stateful.M A) (Q : A -> heap -> Prop)
    (E : heap -> Prop) : Prop :=
  forall σ, P σ ->
    match c σ with
    | (Ok a, σ') => Q a σ'
    | (Throw _, σ') => E σ'
    end.

(** The invariant of the first loop for the frame: the Map is at the first
    location after the initial store [σ0], and its values refer to objects
    allocated after it. *)
Definition groupsAbove (σ0 : heap) (es : list (value * value)) : Prop :=
  Forall (fun kv => exists a, snd kv = VRef a /\ (length σ0 < a)%nat) es.

Definition mapInv (σ0 σ : heap) : Prop :=
  σ0 `prefix_of` σ /\ exists es, σ !! length σ0 = Some (CMap es) /\ groupsAbove σ0 es.

(** The Map of [Stateful.groupBy] holds, for every key, a reference to the
    array of the group; a [groupTable] lists key, location and items. *)
Definition groupTable := list (value * loc * list value).

Definition tableEntries (t : groupTable) : list (value * value) :=
  List.map (fun e => (fst (fst e), VRef (snd (fst e)))) t.

Definition tableGroups (t : groupTable) : list (value * list value) :=
  List.map (fun e => (fst (fst e), snd e)) t.

Definition tableLocs (t : groupTable) : list loc :=
  List.map (fun e => snd (fst e)) t.

(** [tableIn σ m t]: the Map at [m] has the entries of [t], and every group
    of [t] is the array at its location, allocated after the Map. *)
Definition tableIn (σ : heap) (m : loc) (t : groupTable) : Prop :=
  σ !! m = Some (CMap (tableEntries t)) /\
  List.NoDup (tableLocs t) /\
  Forall (fun e => (m < snd (fst e))%nat /\ σ !! snd (fst e) = Some (CArr (snd e))) t.

Fixpoint tableGet (t : groupTable) (k : value) : option (loc * list value) :=
  match t with
  | [] => None
  | (k', a, g) :: t' => if sameValueZero k' k then Some (a, g) else tableGet t' k
  end.

Fixpoint tableSet (t : groupTable) (k : value) (g : list value) : groupTable :=
  match t with
  | [] => []
  | (k', a, g') :: t' =>
      if sameValueZero k' k then (k', a, g) :: t' else (k', a, g') :: tableSet t' k g
  end.

(** The representation of a result of the functional model in the store:
    the properties have the same names, in the same order, and the value of a
    property refers to the array of the items of the group. *)
Definition represents (σ : heap) (props : list (string * value))
    (res : list (string * list value)) : Prop :=
  Forall2 (fun p q => fst p = fst q /\
                      exists a, snd p = VRef a /\ σ !! a = Some (CArr (snd q)))
          props res.

(** ** Notions used in the statements about the page *)

(** The order in which the property names of an object are enumerated, from
    the names in creation order. *)
Definition enumerate (names : list string) : list string :=
  stableSort (fun s t => (indexValue s <=? indexValue t)%N) (List.filter isArrayIndex names)
  ++ List.filter (fun s => negb (isArrayIndex s)) names.

(** The characters of a serialized query: the unreserved ones, + and %. *)
Definition isQuerySafe (c : ascii) : bool :=
  let n := N_of_ascii c in
  (formUnreserved c || (n =? 43) || (n =? 37))%N.

Definition chars (s : string) : list ascii := list_ascii_of_string s.

(** A decoder of the first character of a serialized string; it is used to
    show that the serialization loses nothing. *)
Definition hexValue (c : ascii) : N :=
  let n := N_of_ascii c in
  (if n <? 58 then n - 48 else n - 55)%N.

Definition decodeByte (s : string) : option (ascii * string) :=
  match s with
  | EmptyString => None
  | String c rest =>
      if (N_of_ascii c =? 43)%N then Some (" "%char, rest)
      else if (N_of_ascii c =? 37)%N then
        match rest with
        | String h (String l rest') =>
            Some (ascii_of_N (16 * hexValue h + hexValue l), rest')
        | _ => None
        end
      else Some (c, rest)
  end.

Definition decodeHead (s : string) : option (ascii * string) :=
  match decodeByte s with
  | Some (b, rest) =>
      if (N_of_ascii b <? 128)%N then Some (b, rest)
      else
        match decodeByte rest with
        | Some (b', rest') =>
            Some (ascii_of_N ((N_of_ascii b - 192) * 64 + (N_of_ascii b' - 128)), rest')
        | None => None
        end
  | None => None
  end.

(** A string with + for each of its spaces. *)
Fixpoint plusForSpace (s : string) : string :=
  match s with
  | EmptyString => EmptyString
  | String c s' => String (if (N_of_ascii c =? 32)%N then "+"%char else c) (plusForSpace s')
  end.

(** The calls [addToSavedWords(w)] for the words of a list, in order. *)
Definition saveAll (words : list value) (p : page) : page :=
  fold_left (fun p w => addToSavedWords w p) words p.

(** The text of an element that holds text nodes only. *)
Fixpoint textContent (el : list node) : option string :=
  match el with
  | [] => Some EmptyString
  | Text s :: rest => option_map (fun t => (s ++ t)%string) (textContent rest)
  | Html _ :: _ => None
  end.

(** Neither [null] nor [undefined]. *)
Definition notNullish (v : value) : Prop := v <> VUndefined /\ v <> VNull.

(** The answer is the array of the elements [elems]. *)
Definition holds (σ : heap) (data : value) (elems : list value) : Prop :=
  exists l, data = VRef l /\ σ !! l = Some (CArr elems).

(** [`${item.word}`], the word of an element as a string. *)
Definition wordString (σ : heap) (item : value) : result string :=
  bind (getProp σ item "word") (jsToString σ).

(** An element that can be listed: it has a word, which has a string form. *)
Definition shown (σ : heap) (item : value) : Prop :=
  exists s, wordString σ item = Ok s.

(** A number whose digits are its string form. *)
Definition safeInteger (v : value) : Prop :=
  exists n, v = VNum n /\ - 2 ^ 53 < n < 2 ^ 53.

(** The write that lists an element, and the one that heads a group. *)
Definition itemNode (σ : heap) (item : value) : node :=
  Html (listItem (match wordString σ item with Ok s => s | Throw _ => EmptyString end)).

Definition headingNode (key : string) : node :=
  Html ("<h3>Syllables " ++ key ++ "</h3>")%string.

Definition isItemNode (n : node) : bool :=
  match n with
  | Html m => String.prefix "<li " m
  | Text _ => false
  end.

(** What the loop over the groups writes for a group. *)
Definition groupNodes (σ : heap) (g : string * list value) : list node :=
  headingNode (fst g) :: List.map (itemNode σ) (snd g).

(** The page after the first statement of either callback. *)
Definition cleared (p : page) : page := setOutput p (outputDescription p) [].

(** The display of the saved words after the call of line 122 and the saves
    of [ws]. *)
Definition savedDisplay (ws : list value) : list node :=
  match ws with
  | [] => [Html "(none)"]
  | w :: rest =>
      Text (toString w) :: List.map (fun w => Text (", " ++ toString w)%string) rest
  end.

(** ** Inputs *)

Module Examples.
(** The example of the documentation of [groupBy]. *)
Definition teams : heap :=
  [ CObj [("name", VStr "Steve"); ("team", VStr "blue")];
    CObj [("name", VStr "Jack"); ("team", VStr "red")];
    CObj [("name", VStr "Carol"); ("team", VStr "blue")] ].

(** Syllable counts, as the Datamuse answers carry them. *)
Definition words : heap :=
  [ CObj [("word", VStr "a"); ("numSyllables", VNum 2)];
    CObj [("word", VStr "b"); ("numSyllables", VNum 10)];
    CObj [("word", VStr "c"); ("numSyllables", VNum 1)];
    CObj [("word", VStr "d"); ("numSyllables", VNum 2)] ].
End Examples.

Module SortOrder.
(** Two records whose keys are the strings "10" and "9". *)
Definition σ : heap := [CObj [("k", VStr "10")]; CObj [("k", VStr "9")]].
Definition objects : list value := [VRef 0%nat; VRef 1%nat].

(** Two records whose keys are the numbers -2 and -1. *)
Definition σ' : heap := [CObj [("k", VNum (-2))]; CObj [("k", VNum (-1))]].
End SortOrder.

Module BigKeys.
(** Two records whose keys are the integers 10^10 and 5 * 10^9. *)
Definition σ : heap :=
  [CObj [("numSyllables", VNum 10000000000)]; CObj [("numSyllables", VNum 5000000000)]].
Definition objects : list value := [VRef 0%nat; VRef 1%nat].
End BigKeys.

Module MissingKey.
(** A record without a team and a record of the team "zebra". *)
Definition σ : heap := [CObj [("name", VStr "Ann")]; CObj [("team", VStr "zebra")]].
Definition objects : list value := [VRef 0%nat; VRef 1%nat].
End MissingKey.

Module Collide.
(** Two records whose keys are the number 2 and the string "2". *)
Definition σ : heap := [CObj [("k", VNum 2)]; CObj [("k", VStr "2")]].
Definition objects : list value := [VRef 0%nat; VRef 1%nat].
Definition property : keyRule := FieldName "k".

(** Three records whose keys are the string "undefined", the string
    "zebra" and [undefined]. *)
Definition σ' : heap :=
  [CObj [("k", VStr "undefined")]; CObj [("k", VStr "zebra")]; CObj [("name", VStr "Ann")]].
Definition objects' : list value := [VRef 0%nat; VRef 1%nat; VRef 2%nat].
End Collide.

Module Answers.
(** The words of [Examples.words] and, as the object 4, the array that holds
    them; as the object 5, an array with [null] among its elements. *)
Definition σ : heap :=
  Examples.words ++ [CArr [VRef 0%nat; VRef 1%nat; VRef 2%nat; VRef 3%nat];
                     CArr [VRef 0%nat; VNull; VRef 1%nat]].
Definition words : list value := [VRef 0%nat; VRef 1%nat; VRef 2%nat; VRef 3%nat].

(** An answer without a syllable count, an empty object, an object with a
    length, and an element whose word has no string form. *)
Definition odd : heap :=
  [ CObj [("word", VStr "a")];
    CArr [VRef 0%nat];
    CObj [];
    CObj [("length", VStr " 0x0 ")];
    CObj [("toString", VNum 1)];
    CObj [("word", VRef 4%nat); ("numSyllables", VNum 1)];
    CArr [VRef 5%nat] ].
End Answers.

Module Pages.

(** The page when the script starts, and with a word in the input field. *)
Definition start (input : string) : page :=
  {| outputDescription := [];
     wordOutput := [];
     wordInput := input;
     savedWords := [];
     savedWordsArray := [] |}.

Definition iceCream : page := start "ice cream".

End Pages.

(** * Evaluation *)

(** The example of the documentation of [groupBy]. *)
Example groupBy_teams :
  groupBy Examples.teams [VRef 0%nat; VRef 1%nat; VRef 2%nat] (FieldName "team")
  = Ok [("blue", [VRef 0%nat; VRef 2%nat]); ("red", [VRef 1%nat])].
Proof. reflexivity. Qed.

Example groupBy_words :
  groupBy Examples.words [VRef 0%nat; VRef 1%nat; VRef 2%nat; VRef 3%nat]
    (FieldName "numSyllables")
  = Ok [("1", [VRef 2%nat]); ("10", [VRef 1%nat]); ("2", [VRef 0%nat; VRef 3%nat])].
Proof. reflexivity. Qed.

Example keys_words :
  keys [("1", [VRef 2%nat]); ("10", [VRef 1%nat]); ("2", [VRef 0%nat; VRef 3%nat])]
  = ["1"; "2"; "10"].
Proof. reflexivity. Qed.

(** The same call on the store: the array of the records is the object 3,
    the Map is the object 4, the groups are the objects 5 and 6, the result is
    the object 7 and the sorted array of the keys is the object 8. *)
Example stateful_groupBy_teams :
  Stateful.groupBy 3%nat (FieldName "team")
    (Examples.teams ++ [CArr [VRef 0%nat; VRef 1%nat; VRef 2%nat]])
  = (Ok (VRef 7%nat),
     Examples.teams ++
     [ CArr [VRef 0%nat; VRef 1%nat; VRef 2%nat];
       CMap [(VStr "blue", VRef 5%nat); (VStr "red", VRef 6%nat)];
       CArr [VRef 0%nat; VRef 2%nat];
       CArr [VRef 1%nat];
       CObj [("blue", VRef 5%nat); ("red", VRef 6%nat)];
       CArr [VStr "blue"; VStr "red"] ]).
Proof. reflexivity. Qed.

(** The URL of the rhymes of a word with a space, an ampersand and a
    tilde, and of one with a letter outside ASCII. *)
Example getDatamuseRhymeUrl_escapes :
  getDatamuseRhymeUrl (Pages.start "ice cream & co~") VUndefined
  = "https://api.datamuse.com/words?rel_rhy=ice+cream+%26+co%7E".
Proof. reflexivity. Qed.

Example getDatamuseSimilarToUrl_utf8 :
  getDatamuseSimilarToUrl
    (Pages.start (String (ascii_of_nat 233) (String "t" (String (ascii_of_nat 233) EmptyString))))
    VUndefined
  = "https://api.datamuse.com/words?ml=%C3%A9t%C3%A9".
Proof. reflexivity. Qed.

(** The words of [Examples.words] as the answer of the rhyme request: a
    heading for each syllable count, in ascending order, and the words of the
    count under it. *)
Example rhymeCallback_words :
  rhymeCallback Answers.σ (VRef 4%nat) (Pages.start "cat")
  = (setOutput (Pages.start "cat") [Html "Words that rhyme with cat"]
       [ headingNode "1"; Html (listItem "c");
         headingNode "2"; Html (listItem "a"); Html (listItem "d");
         headingNode "10"; Html (listItem "b") ],
     None).
Proof. reflexivity. Qed.

(** An answer that is a string is grouped character by character: no
    character has a syllable count or a word. *)
Example rhymeCallback_string :
  rhymeCallback [] (VStr "ab") (Pages.start "cat")
  = (setOutput (Pages.start "cat") [Html "Words that rhyme with cat"]
       [ headingNode "undefined"; Html (listItem "undefined"); Html (listItem "undefined") ],
     None).
Proof. reflexivity. Qed.

(** An answer that is an object without a length is not iterable, and one
    whose length converts to zero is an answer without results. *)
Example rhymeCallback_object :
  rhymeCallback Answers.odd (VRef 2%nat) (Pages.start "cat")
  = (cleared (Pages.start "cat"), Some (TypeError "objects is not iterable"))
  /\ rhymeCallback Answers.odd (VRef 3%nat) (Pages.start "cat")
     = (setOutput (Pages.start "cat") [] [Html "(no results)"], None).
Proof. split; reflexivity. Qed.

(** A word that is an object with a property [toString] has no string form:
    the heading of its group is written, and the callback raises. *)
Example rhymeCallback_word_error :
  rhymeCallback Answers.odd (VRef 6%nat) (Pages.start "cat")
  = (setOutput (Pages.start "cat") [Html "Words that rhyme with cat"] [headingNode "1"],
     Some conversionError).
Proof. reflexivity. Qed.

(** The other callback on an answer that is a number, an empty object and a
    string. *)
Example similarCallback_not_array :
  similarCallback Answers.odd (VNum 5) (Pages.start "cat")
  = (setOutput (Pages.start "cat") [] [Html "(no results)"], None)
  /\ similarCallback Answers.odd (VRef 2%nat) (Pages.start "cat")
     = (setOutput (Pages.start "cat") [] [Html "(no results)"], None)
  /\ similarCallback Answers.odd (VStr "ab") (Pages.start "cat")
     = (setOutput (Pages.start "cat") [Html "Words with a similar meaning to cat"] [],
        Some (TypeError "data.forEach is not a function")).
Proof. repeat split; reflexivity. Qed.

(** Strings that convert to the number zero, and strings that do not. *)
Example stringIsZero_samples :
  List.map stringIsZero
    [EmptyString; " "; "0"; "-0"; "+0.00"; ".0"; "0."; "0e5"; "0x00"; "0b0"; " 0 "; "1e-400"]
  = List.repeat true 12
  /\ List.map stringIsZero
       ["1"; "."; "-"; "0x"; "-0x0"; "0 0"; "0e"; "zero"; "1e-300"; "0x01"; "Infinity"; "0n"]
     = List.repeat false 12.
Proof. split; reflexivity. Qed.

(** The page after the script has run and two words were saved. *)
Example addToSavedWords_twice :
  savedWords (saveAll [VStr "cat"; VStr "hat"] (addToSavedWords VUndefined (Pages.start "cat")))
  = [Text "cat"; Text ", hat"].
Proof. reflexivity. Qed.

(** * Facts *)

(** ** Facts about the language operations *)

Lemma sameValueZero_eq (x y : value) : sameValueZero x y = true <-> x = y.
Proof.
  destruct x, y; simpl; split; intros H; try discriminate; try reflexivity;
    try (inversion H; subst).
  - apply Bool.eqb_prop in H. congruence.
  - apply Bool.eqb_reflx.
  - apply Z.eqb_eq in H. congruence.
  - apply Z.eqb_refl.
  - apply String.eqb_eq in H. congruence.
  - apply String.eqb_refl.
  - apply Nat.eqb_eq in H. congruence.
  - apply Nat.eqb_refl.
Qed.

Lemma sameValueZero_refl (x : value) : sameValueZero x x = true.
Proof. now apply sameValueZero_eq. Qed.

Lemma sameValueZero_neq (x y : value) : sameValueZero x y = false <-> x <> y.
Proof.
  rewrite <- sameValueZero_eq. destruct (sameValueZero x y); split; congruence.
Qed.

(** Case analysis on [sameValueZero x y], as an equality or a disequality. *)
Ltac svz_cases x y :=
  let E := fresh "E" in
  destruct (sameValueZero x y) eqn:E;
  [apply sameValueZero_eq in E; subst | apply sameValueZero_neq in E].

Section MapFacts.
Context {V : Type}.
Implicit Types (m : list (value * V)) (k : value) (v : V).

Lemma map_get_set_eq m k v : map_get (map_set m k v) k = Some v.
Proof.
  induction m as [|[k' v'] m IH]; simpl.
  - now rewrite sameValueZero_refl.
  - destruct (sameValueZero k' k) eqn:E; simpl; rewrite E; auto.
Qed.

Lemma map_get_set_ne m k k' v :
  k <> k' -> map_get (map_set m k v) k' = map_get m k'.
Proof.
  intros Hne. induction m as [|[k0 v0] m IH]; simpl.
  - apply sameValueZero_neq in Hne. now rewrite Hne.
  - svz_cases k0 k; simpl.
    + apply sameValueZero_neq in Hne. now rewrite Hne.
    + now rewrite IH.
Qed.

Lemma map_get_In m k v : map_get m k = Some v -> In (k, v) m.
Proof.
  induction m as [|[k0 v0] m IH]; simpl; [discriminate|].
  svz_cases k0 k; intros H.
  - left. congruence.
  - right. auto.
Qed.

Lemma map_get_keys m k : In k (map_keys m) <-> map_get m k <> None.
Proof.
  unfold map_keys. induction m as [|[k0 v0] m IH]; simpl.
  - tauto.
  - svz_cases k0 k.
    + split; [discriminate | auto].
    + rewrite IH. split; [intros [?|?]|]; tauto.
Qed.
End MapFacts.

Section ObjFacts.
Context {V : Type}.
Implicit Types (o : list (string * V)) (k : string) (v : V).

Lemma obj_get_set_eq o k v : obj_get (obj_set o k v) k = Some v.
Proof.
  induction o as [|[k' v'] o IH]; simpl.
  - now rewrite String.eqb_refl.
  - destruct (String.eqb k' k) eqn:E; simpl; rewrite E; auto.
Qed.

Lemma obj_get_set_ne o k k' v :
  k <> k' -> obj_get (obj_set o k v) k' = obj_get o k'.
Proof.
  intros Hne. induction o as [|[k0 v0] o IH]; simpl.
  - apply String.eqb_neq in Hne. now rewrite Hne.
  - destruct (String.eqb k0 k) eqn:E; simpl.
    + apply String.eqb_eq in E. subst. apply String.eqb_neq in Hne. now rewrite Hne.
    + now rewrite IH.
Qed.

Lemma obj_set_In o k v k' v' :
  In (k', v') (obj_set o k v) -> (k', v') = (k, v) \/ In (k', v') o.
Proof.
  induction o as [|[k0 v0] o IH]; simpl.
  - intros [H|[]]. left. congruence.
  - destruct (String.eqb k0 k) eqn:E; simpl.
    + apply String.eqb_eq in E. subst. intros [H|H]; [left; congruence | right; auto].
    + intros [H|H]; [right; auto | destruct (IH H); auto].
Qed.

(** The names of the properties, in creation order: a new name goes last. *)
Lemma obj_set_names o k v :
  List.map fst (obj_set o k v)
  = if existsb (String.eqb k) (List.map fst o) then List.map fst o
    else (List.map fst o ++ [k]).
Proof.
  induction o as [|[k0 v0] o IH]; simpl; [reflexivity|].
  rewrite (String.eqb_sym k k0).
  destruct (String.eqb k0 k) eqn:E; simpl; [reflexivity|].
  rewrite IH. now destruct (existsb _ _).
Qed.
End ObjFacts.

Section SortFacts.
Context {A : Type} (le : A -> A -> bool).

Lemma insertSorted_perm x l : Permutation (x :: l) (insertSorted le x l).
Proof.
  induction l as [|y l IH]; simpl; [reflexivity|].
  destruct (le x y); [reflexivity|].
  rewrite perm_swap. now constructor.
Qed.

Lemma stableSort_perm l : Permutation l (stableSort le l).
Proof.
  induction l as [|x l IH]; simpl; [constructor|].
  rewrite <- insertSorted_perm. now constructor.
Qed.

Lemma stableSort_In x l : In x (stableSort le l) <-> In x l.
Proof.
  split; apply Permutation_in; [symmetry|]; apply stableSort_perm.
Qed.

Hypothesis le_total : forall x y, le x y = true \/ le y x = true.
Hypothesis le_trans : forall x y z, le x y = true -> le y z = true -> le x z = true.

Lemma insertSorted_sorted x l :
  StronglySorted (fun a b => le a b = true) l ->
  StronglySorted (fun a b => le a b = true) (insertSorted le x l).
Proof.
  induction 1 as [|y l Hs IH Hy]; simpl.
  - repeat constructor.
  - destruct (le x y) eqn:E.
    + constructor; [now constructor|].
      constructor; [assumption|].
      eapply Forall_impl; [exact Hy|]. intros z Hz. eapply le_trans; eauto.
    + constructor; [assumption|].
      rewrite List.Forall_forall. intros z Hz.
      apply (Permutation_in _ (Permutation_sym (insertSorted_perm x l))) in Hz.
      destruct Hz as [<-|Hz].
      * destruct (le_total x y) as [H|H]; congruence.
      * rewrite List.Forall_forall in Hy. auto.
Qed.

Lemma stableSort_sorted l :
  StronglySorted (fun a b => le a b = true) (stableSort le l).
Proof.
  induction l as [|x l IH]; simpl; [constructor|]. now apply insertSorted_sorted.
Qed.
End SortFacts.

Lemma arraySort_In (k : value) (a : list value) : In k (arraySort a) <-> In k a.
Proof.
  unfold arraySort. rewrite in_app_iff, stableSort_In, !filter_In.
  destruct (isUndefined k); simpl; intuition congruence.
Qed.

Lemma entries_perm {V} (o : list (string * V)) : Permutation o (entries o).
Proof.
  unfold entries. rewrite <- stableSort_perm.
  induction o as [|p o IH]; simpl; [constructor|].
  destruct (isArrayIndex (fst p)); simpl.
  - now constructor.
  - rewrite IH at 1. apply Permutation_middle.
Qed.

Lemma entries_In {V} (p : string * V) (o : list (string * V)) :
  In p (entries o) <-> In p o.
Proof.
  split; apply Permutation_in; [symmetry|]; apply entries_perm.
Qed.

(** ** The loop over the records *)

Lemma ensureGroup_get_eq m g :
  map_get (ensureGroup m g) g = Some (groupOf m g).
Proof.
  unfold ensureGroup, map_has, groupOf.
  destruct (map_get m g) eqn:E; simpl; [assumption | apply map_get_set_eq].
Qed.

Lemma ensureGroup_get_ne m g k :
  g <> k -> map_get (ensureGroup m g) k = map_get m k.
Proof.
  intros Hne. unfold ensureGroup, map_has.
  destruct (map_get m g); simpl; [reflexivity | now apply map_get_set_ne].
Qed.

Section Loop.
Variable property : value -> result value.

Lemma groupLoop_cons object rest m :
  groupLoop property (object :: rest) m
  = bind (property object) (fun g =>
      groupLoop property rest
        (map_set (ensureGroup m g) g (groupOf m g ++ [object]))).
Proof.
  simpl. destruct (property object) as [g|e]; simpl; [|reflexivity].
  now rewrite ensureGroup_get_eq.
Qed.

(** What the Map holds for every key when the loop ends. *)
Lemma groupLoop_get objects : forall m0 m,
  groupLoop property objects m0 = Ok m ->
  forall k, map_get m k =
    match map_get m0 k with
    | Some items => Some (items ++ List.filter (inGroup property k) objects)
    | None =>
        if existsb (inGroup property k) objects
        then Some (List.filter (inGroup property k) objects)
        else None
    end.
Proof.
  induction objects as [|r rest IH]; intros m0 m H k.
  - simpl in H. injection H as <-. simpl.
    destruct (map_get m0 k); [now rewrite app_nil_r | reflexivity].
  - rewrite groupLoop_cons in H.
    destruct (property r) as [g|e] eqn:Hp; simpl in H; [|discriminate].
    rewrite (IH _ _ H k). cbn [List.filter existsb].
    assert (inGroup property k r = sameValueZero g k) as ->
      by (unfold inGroup; now rewrite Hp).
    svz_cases g k.
    + rewrite map_get_set_eq. unfold groupOf.
      destruct (map_get m0 k); simpl; [now rewrite <- app_assoc | reflexivity].
    + rewrite map_get_set_ne, ensureGroup_get_ne by assumption.
      destruct (map_get m0 k); simpl; reflexivity.
Qed.

Lemma filter_existsb_false {A} (f : A -> bool) l :
  existsb f l = false -> List.filter f l = [].
Proof.
  induction l as [|x l IH]; simpl; [reflexivity|].
  destruct (f x); simpl; [discriminate | assumption].
Qed.

(** Started on the empty Map, the loop collects for every key the records
    that derive it, in the order of the input. *)
Lemma groupLoop_groupOf objects m :
  groupLoop property objects [] = Ok m ->
  forall k, groupOf m k = List.filter (inGroup property k) objects.
Proof.
  intros H k. unfold groupOf. rewrite (groupLoop_get _ _ _ H k). simpl.
  destruct (existsb _ _) eqn:E; [reflexivity|].
  symmetry. now apply filter_existsb_false.
Qed.

Lemma groupLoop_keys objects m :
  groupLoop property objects [] = Ok m ->
  forall k, In k (map_keys m) <-> exists r, In r objects /\ property r = Ok k.
Proof.
  intros H k. rewrite map_get_keys, (groupLoop_get _ _ _ H k). simpl.
  destruct (existsb _ _) eqn:E.
  - split; [intros _|discriminate].
    apply existsb_exists in E as (r & Hr & Hk). exists r. split; [assumption|].
    unfold inGroup in Hk. destruct (property r); [|discriminate].
    apply sameValueZero_eq in Hk. congruence.
  - split; [congruence|]. intros (r & Hr & Hk). exfalso.
    assert (existsb (inGroup property k) objects = true); [|congruence].
    apply existsb_exists. exists r. split; [assumption|].
    unfold inGroup. rewrite Hk. apply sameValueZero_refl.
Qed.

(** The loop ends normally exactly when the key of every record can be
    derived, and otherwise raises what the first failing derivation raised. *)
Lemma groupLoop_total objects : forall m0,
  Forall (fun r => exists k, property r = Ok k) objects ->
  exists m, groupLoop property objects m0 = Ok m.
Proof.
  induction objects as [|r rest IH]; intros m0 Hall.
  - now exists m0.
  - inversion Hall as [|? ? [g Hg] Hrest]; subst.
    rewrite groupLoop_cons, Hg. simpl. now apply IH.
Qed.

Lemma groupLoop_throw pre r post e : forall m0,
  Forall (fun r => exists k, property r = Ok k) pre ->
  property r = Throw e ->
  groupLoop property (pre ++ r :: post) m0 = Throw e.
Proof.
  induction pre as [|x pre IH]; intros m0 Hall Hr.
  - simpl. now rewrite Hr.
  - inversion Hall as [|? ? [g Hg] Hpre]; subst.
    rewrite <- app_comm_cons, groupLoop_cons, Hg. simpl. now apply IH.
Qed.

Lemma groupLoop_Ok_inv objects : forall m0 m,
  groupLoop property objects m0 = Ok m ->
  Forall (fun r => exists k, property r = Ok k) objects.
Proof.
  induction objects as [|r rest IH]; intros m0 m H; [constructor|].
  rewrite groupLoop_cons in H.
  destruct (property r) as [g|e] eqn:Hp; simpl in H; [|discriminate].
  constructor; eauto.
Qed.
End Loop.

(** ** The order on strings *)

Lemma string_compare_lt_trans a b c :
  String.compare a b = Lt -> String.compare b c = Lt -> String.compare a c = Lt.
Proof.
  intros H1 H2. apply String_as_OT.cmp_lt in H1, H2. apply String_as_OT.cmp_lt.
  eapply String_as_OT.lt_trans; eauto.
Qed.

Lemma string_compare_refl a : String.compare a a = Eq.
Proof. now apply (String_as_OT.cmp_eq a a). Qed.

Lemma string_leb_trans a b c :
  String.leb a b = true -> String.leb b c = true -> String.leb a c = true.
Proof.
  unfold String.leb.
  destruct (String.compare a b) eqn:E1; [|..|discriminate];
    destruct (String.compare b c) eqn:E2; try discriminate; intros _ _.
  - apply String.compare_eq_iff in E1, E2. subst. now rewrite string_compare_refl.
  - apply String.compare_eq_iff in E1. subst. now rewrite E2.
  - apply String.compare_eq_iff in E2. subst. now rewrite E1.
  - now rewrite (string_compare_lt_trans _ _ _ E1 E2).
Qed.

Lemma string_leb_ltb a b :
  String.leb a b = true -> a <> b -> String.ltb a b = true.
Proof.
  unfold String.leb, String.ltb. destruct (String.compare a b) eqn:E; try easy.
  apply String.compare_eq_iff in E. congruence.
Qed.

Lemma string_ltb_leb a b : String.ltb a b = true -> String.leb a b = true.
Proof. unfold String.leb, String.ltb. now destruct (String.compare a b). Qed.

Lemma string_ltb_irrefl a : String.ltb a a = false.
Proof.
  unfold String.ltb. now rewrite string_compare_refl.
Qed.

Lemma sortCompare_le_total x y :
  sortCompare_le x y = true \/ sortCompare_le y x = true.
Proof. apply String.leb_total. Qed.

Lemma sortCompare_le_trans x y z :
  sortCompare_le x y = true -> sortCompare_le y z = true -> sortCompare_le x z = true.
Proof. apply string_leb_trans. Qed.

(** ** Sorted lists *)

Lemma StronglySorted_map {A B} (f : A -> B) (R : B -> B -> Prop) l :
  StronglySorted (fun x y => R (f x) (f y)) l -> StronglySorted R (List.map f l).
Proof.
  induction 1 as [|x l Hs IH Hx]; simpl; constructor; [assumption|].
  rewrite List.Forall_forall in *. intros y Hy.
  apply in_map_iff in Hy as (z & <- & Hz). auto.
Qed.

Lemma StronglySorted_filter' {A} (R : A -> A -> Prop) (f : A -> bool) l :
  StronglySorted R l -> StronglySorted R (List.filter f l).
Proof.
  induction 1 as [|x l Hs IH Hx]; simpl; [constructor|].
  destruct (f x); [|assumption]. constructor; [assumption|].
  rewrite List.Forall_forall in *. intros y Hy. apply filter_In in Hy. apply Hx, Hy.
Qed.

Lemma StronglySorted_weaken {A} (R R' : A -> A -> Prop) l :
  (forall x y, R x y -> R' x y) -> StronglySorted R l -> StronglySorted R' l.
Proof.
  intros HR. induction 1 as [|x l Hs IH Hx]; constructor; [assumption|].
  eapply List.Forall_impl; [|exact Hx]. apply HR.
Qed.

Lemma StronglySorted_snoc {A} (R : A -> A -> Prop) l x :
  StronglySorted R l -> (forall y, In y l -> R y x) -> StronglySorted R (l ++ [x]).
Proof.
  induction 1 as [|y l Hs IH Hy]; intros Hx; simpl.
  - repeat constructor.
  - constructor.
    + apply IH. intros z Hz. apply Hx. now right.
    + rewrite List.Forall_forall in *. intros z Hz.
      apply in_app_iff in Hz as [Hz|[<-|[]]]; [auto | apply Hx; now left].
Qed.

(** ** The result object *)

Section Build.
Variable m : list (value * list value).

Lemma defineGroup_In ks : forall o s g,
  In (s, g) (fold_left (defineGroup m) ks o) ->
  In (s, g) o \/ exists k, In k ks /\ s = toString k /\ g = groupOf m k.
Proof.
  induction ks as [|k ks IH]; intros o s g H; simpl in H; [now left|].
  apply IH in H as [H|(k' & Hk' & Hs & Hg)].
  - unfold defineGroup in H. apply obj_set_In in H as [H|H].
    + right. exists k. injection H as -> ->. simpl. auto.
    + now left.
  - right. exists k'. simpl. auto.
Qed.

Lemma defineAll_In s g :
  In (s, g) (defineAll m) ->
  exists k, In k (map_keys m) /\ s = toString k /\ g = groupOf m k.
Proof.
  intros H. apply defineGroup_In in H as [[]|(k & Hk & Hs & Hg)].
  exists k. rewrite arraySort_In in Hk. auto.
Qed.
End Build.

(** *** The assignment to the name of the prototype *)

Lemma isProto_eq s : isProto s = true <-> s = "__proto__".
Proof. apply String.eqb_eq. Qed.

Lemma obj_assign_own {V} (o : list (string * V)) k v :
  isProto k = false -> obj_assign o k v = obj_set o k v.
Proof. unfold obj_assign, isProto. intros ->. now destruct (obj_get o k). Qed.

Lemma obj_assign_proto {V} (o : list (string * V)) k v :
  isProto k = true -> obj_get o k = None -> obj_assign o k v = o.
Proof. unfold obj_assign, isProto. now intros -> ->. Qed.

Lemma obj_assign_In {V} (o : list (string * V)) k v k' v' :
  In (k', v') (obj_assign o k v) -> (k', v') = (k, v) \/ In (k', v') o.
Proof.
  unfold obj_assign. destruct (obj_get o k); [apply obj_set_In|].
  destruct (String.eqb k "__proto__"); [now right | apply obj_set_In].
Qed.

Lemma ownGroups_get m k :
  isProto (toString k) = false -> map_get (ownGroups m) k = map_get m k.
Proof.
  intros Hk. induction m as [|[k' v] m IH]; simpl; [reflexivity|].
  destruct (sameValueZero k' k) eqn:E.
  - apply sameValueZero_eq in E as ->. rewrite Hk. simpl. now rewrite sameValueZero_refl.
  - destruct (negb (isProto (toString k'))); simpl; [|assumption].
    now rewrite E.
Qed.

Lemma ownGroups_groupOf m k :
  isProto (toString k) = false -> groupOf (ownGroups m) k = groupOf m k.
Proof. intros Hk. unfold groupOf. now rewrite ownGroups_get. Qed.

Lemma ownGroups_set m k v :
  ownGroups (map_set m k v)
  = if isProto (toString k) then ownGroups m else map_set (ownGroups m) k v.
Proof.
  induction m as [|[k' v'] m IH]; simpl.
  - now destruct (isProto (toString k)).
  - destruct (sameValueZero k' k) eqn:E.
    + apply sameValueZero_eq in E as ->. simpl.
      destruct (isProto (toString k)); simpl; [reflexivity|].
      now rewrite sameValueZero_refl.
    + simpl. rewrite IH. destruct (isProto (toString k')) eqn:E';
        destruct (isProto (toString k)); simpl; try reflexivity.
      now rewrite E.
Qed.

Lemma ownGroups_ensure m k :
  ownGroups (ensureGroup m k)
  = if isProto (toString k) then ownGroups m else ensureGroup (ownGroups m) k.
Proof.
  unfold ensureGroup, map_has.
  destruct (isProto (toString k)) eqn:E.
  - destruct (map_get m k); simpl; [reflexivity|]. now rewrite ownGroups_set, E.
  - rewrite (ownGroups_get m k E).
    destruct (map_get m k); simpl; [reflexivity|]. now rewrite ownGroups_set, E.
Qed.

(** The Map of the records whose key gets a property holds the entries of
    the Map whose key gets a property. *)
Lemma groupLoop_named property objects : forall m0 m,
  groupLoop property objects m0 = Ok m ->
  groupLoop property (List.filter (named property) objects) (ownGroups m0)
  = Ok (ownGroups m).
Proof.
  induction objects as [|r rest IH]; intros m0 m H.
  - simpl in *. now injection H as <-.
  - rewrite groupLoop_cons in H.
    destruct (property r) as [g|e] eqn:Hp; simpl in H; [|discriminate].
    apply IH in H. cbn [List.filter]. unfold named at 1. rewrite Hp.
    rewrite ownGroups_set, ownGroups_ensure in H.
    destruct (isProto (toString g)) eqn:E; cbn [negb]; [assumption|].
    rewrite groupLoop_cons, Hp. simpl. now rewrite (ownGroups_groupOf m0 g E).
Qed.

Lemma named_filter_inGroup property k objects :
  isProto (toString k) = false ->
  List.filter (inGroup property k) (List.filter (named property) objects)
  = List.filter (inGroup property k) objects.
Proof.
  intros Hk. induction objects as [|r rest IH]; simpl; [reflexivity|].
  destruct (named property r) eqn:En; simpl; [now rewrite IH|].
  rewrite IH. unfold named in En. unfold inGroup.
  destruct (property r) as [k'|e]; [|discriminate].
  destruct (sameValueZero k' k) eqn:E; [|reflexivity].
  apply sameValueZero_eq in E as ->. rewrite Hk in En. discriminate.
Qed.

(** Sorting and dropping commute. *)
Section SortFilter.
Context {A : Type} (le : A -> A -> bool) (keep : A -> bool).
Hypothesis le_total : forall x y, le x y = true \/ le y x = true.
Hypothesis le_trans : forall x y z, le x y = true -> le y z = true -> le x z = true.

Lemma insertSorted_head x l :
  (forall w, In w l -> le x w = true) -> insertSorted le x l = x :: l.
Proof.
  destruct l as [|w l]; simpl; [reflexivity|]. intros H.
  now rewrite (H w (or_introl eq_refl)).
Qed.

Lemma insertSorted_filter x l :
  StronglySorted (fun a b => le a b = true) l ->
  List.filter keep (insertSorted le x l)
  = if keep x then insertSorted le x (List.filter keep l) else List.filter keep l.
Proof.
  induction 1 as [|y l Hs IH Hy].
  - simpl. now destruct (keep x).
  - cbn [insertSorted]. destruct (le x y) eqn:E.
    + cbn [List.filter]. destruct (keep x) eqn:Kx; [|reflexivity].
      destruct (keep y) eqn:Ky.
      * simpl. now rewrite E.
      * symmetry. apply insertSorted_head. intros w Hw.
        apply filter_In in Hw as [Hw _].
        rewrite List.Forall_forall in Hy. eauto.
    + cbn [List.filter]. rewrite IH.
      destruct (keep y) eqn:Ky, (keep x) eqn:Kx; try reflexivity.
      simpl. now rewrite E.
Qed.

Lemma stableSort_filter l :
  List.filter keep (stableSort le l) = stableSort le (List.filter keep l).
Proof.
  induction l as [|x l IH]; simpl; [reflexivity|].
  rewrite insertSorted_filter by (now apply stableSort_sorted).
  rewrite IH. now destruct (keep x).
Qed.
End SortFilter.

Lemma filter_comm {A} (f g : A -> bool) l :
  List.filter f (List.filter g l) = List.filter g (List.filter f l).
Proof.
  induction l as [|x l IH]; simpl; [reflexivity|].
  destruct (f x) eqn:Ef, (g x) eqn:Eg; simpl; rewrite ?Ef, ?Eg, IH; reflexivity.
Qed.

Lemma arraySort_filter (keep : value -> bool) a :
  arraySort (List.filter keep a) = List.filter keep (arraySort a).
Proof.
  unfold arraySort. rewrite List.filter_app.
  rewrite (stableSort_filter sortCompare_le keep sortCompare_le_total sortCompare_le_trans).
  now rewrite (filter_comm keep), (filter_comm keep isUndefined).
Qed.

Lemma ownGroups_all m :
  (forall k, In k (map_keys m) -> isProto (toString k) = false) -> ownGroups m = m.
Proof.
  induction m as [|[k v] m IH]; intros H; simpl; [reflexivity|].
  rewrite (H k (or_introl eq_refl)). simpl. f_equal. apply IH.
  intros k' Hk'. apply H. now right.
Qed.

Lemma ownGroups_keys m :
  map_keys (ownGroups m)
  = List.filter (fun k => negb (isProto (toString k))) (map_keys m).
Proof.
  induction m as [|[k v] m IH]; simpl; [reflexivity|].
  destruct (negb (isProto (toString k))); simpl; now rewrite IH.
Qed.

Lemma obj_get_set_proto {V} (o : list (string * V)) s v :
  isProto s = false -> obj_get o "__proto__" = None ->
  obj_get (obj_set o s v) "__proto__" = None.
Proof.
  intros Hs Ho. rewrite obj_get_set_ne; [assumption|].
  intros ->. discriminate Hs.
Qed.

(** Line 35 creates no property ["__proto__"], and the other assignments
    set a property. *)
Lemma assignGroup_fold m ks : forall o,
  obj_get o "__proto__" = None ->
  fold_left (assignGroup m) ks o
  = fold_left (defineGroup m) (List.filter (fun k => negb (isProto (toString k))) ks) o.
Proof.
  induction ks as [|k ks IH]; intros o Ho; simpl; [reflexivity|].
  unfold assignGroup at 2.
  destruct (isProto (toString k)) eqn:E; simpl.
  - apply isProto_eq in E as E'. rewrite obj_assign_proto; [now apply IH | assumption |].
    now rewrite E'.
  - rewrite obj_assign_own by assumption. rewrite IH; [reflexivity|].
    now apply obj_get_set_proto.
Qed.

Lemma defineGroup_fold_own m ks : forall o,
  Forall (fun k => isProto (toString k) = false) ks ->
  fold_left (defineGroup (ownGroups m)) ks o = fold_left (defineGroup m) ks o.
Proof.
  induction ks as [|k ks IH]; intros o Hall; simpl; [reflexivity|].
  inversion Hall as [|? ? Hk Hks]; subst.
  unfold defineGroup at 2 4. rewrite (ownGroups_groupOf m k Hk). now apply IH.
Qed.

(** The result is the object built from the entries whose key gets a
    property. *)
Lemma buildResult_own m : buildResult m = defineAll (ownGroups m).
Proof.
  unfold buildResult, defineAll.
  rewrite assignGroup_fold by reflexivity.
  rewrite ownGroups_keys, arraySort_filter. symmetry. apply defineGroup_fold_own.
  apply List.Forall_forall. intros k Hk. apply filter_In in Hk as [_ Hk].
  now apply negb_true_iff in Hk.
Qed.

Lemma groupBy_Ok_run σ objects rule res :
  groupBy σ objects rule = Ok res <->
  exists m, groupLoop (toFunction σ rule) objects [] = Ok m /\
            forallb (convertible σ) (map_keys m) = true /\ res = buildResult m.
Proof.
  unfold groupBy. destruct (groupLoop _ _ _) as [m|e]; simpl.
  - destruct (forallb (convertible σ) (map_keys m)) eqn:E; split.
    + intros [= <-]. now exists m.
    + now intros (m' & [= <-] & _ & ->).
    + discriminate.
    + intros (m' & [= <-] & Hc & _). congruence.
  - split; [discriminate|]. now intros (m' & [=] & _).
Qed.

(** A result is built from the records whose key gets a property. *)
Lemma groupBy_Ok_inv σ objects rule res :
  groupBy σ objects rule = Ok res ->
  exists m, groupLoop (toFunction σ rule)
              (List.filter (named (toFunction σ rule)) objects) [] = Ok m /\
            res = defineAll m.
Proof.
  intros H. apply groupBy_Ok_run in H as (m & Hm & _ & ->).
  exists (ownGroups m). split; [|apply buildResult_own].
  apply (groupLoop_named _ _ _ _ Hm).
Qed.

Lemma named_all property objects :
  (forall r k, In r objects -> property r = Ok k -> isProto (toString k) = false) ->
  List.filter (named property) objects = objects.
Proof.
  induction objects as [|r rest IH]; intros H; simpl; [reflexivity|].
  rewrite IH by (intros r' k Hr'; apply H; now right).
  unfold named. destruct (property r) as [k|e] eqn:E; [|reflexivity].
  now rewrite (H r k (or_introl eq_refl) E).
Qed.

Lemma named_In property r objects :
  In r (List.filter (named property) objects) -> In r objects.
Proof. intros H. now apply filter_In in H. Qed.

Lemma named_keys property objects m :
  groupLoop property (List.filter (named property) objects) [] = Ok m ->
  forall k, In k (map_keys m) ->
    isProto (toString k) = false /\ exists r, In r objects /\ property r = Ok k.
Proof.
  intros Hm k Hk. apply (groupLoop_keys _ _ _ Hm) in Hk as (r & Hr & Hk).
  apply filter_In in Hr as [Hr Hn]. unfold named in Hn. rewrite Hk in Hn.
  split; [now apply negb_true_iff in Hn | eauto].
Qed.

Lemma named_keys_iff property objects m :
  groupLoop property (List.filter (named property) objects) [] = Ok m ->
  forall k, In k (map_keys m) <->
    isProto (toString k) = false /\ exists r, In r objects /\ property r = Ok k.
Proof.
  intros Hm k. rewrite (groupLoop_keys _ _ _ Hm). split.
  - intros (r & Hr & Hk). apply filter_In in Hr as [Hr Hn].
    unfold named in Hn. rewrite Hk in Hn. split; [|eauto].
    now destruct (isProto (toString k)).
  - intros (Hp & r & Hr & Hk). exists r. split; [|assumption].
    apply filter_In. split; [assumption|]. unfold named. now rewrite Hk, Hp.
Qed.

Lemma named_groupOf property objects m :
  groupLoop property (List.filter (named property) objects) [] = Ok m ->
  forall k, In k (map_keys m) ->
    groupOf m k = List.filter (inGroup property k) objects.
Proof.
  intros Hm k Hk. rewrite (groupLoop_groupOf _ _ _ Hm).
  apply named_filter_inGroup. now apply (named_keys _ _ _ Hm).
Qed.

(** ** Stability and error propagation *)



(** C6. Error propagation: when the derivation of the key raises on a record,
    and succeeded on the records before it, [groupBy] raises that very error
    and returns no result, whatever follows the record in the input. *)
Theorem groupBy_propagates σ pre r post rule e :
  Forall (fun x => exists k, toFunction σ rule x = Ok k) pre ->
  toFunction σ rule r = Throw e ->
  groupBy σ (pre ++ r :: post) rule = Throw e.
Proof.
  intros Hpre Hr. unfold groupBy.
  now rewrite (groupLoop_throw _ pre r post e [] Hpre Hr).
Qed.

Lemma groupBy_propagates_witness :
  groupBy Examples.teams ([VRef 0%nat] ++ VNull :: [VRef 1%nat]) (FieldName "team")
  = Throw (TypeError "Cannot read properties of null").
Proof.
  apply groupBy_propagates.
  - repeat constructor. exists (VStr "blue"). reflexivity.
  - reflexivity.
Defined.

Lemma convertible_Ok σ k : convertible σ k = true <-> exists s, jsToString σ k = Ok s.
Proof.
  unfold convertible. destruct (jsToString σ k) as [s|e]; split; try discriminate; eauto.
  now intros [s' [=]].
Qed.

(** X1.  A result is returned exactly when, for every record, the derivation
    of the key succeeds and the key can be converted to a string. *)
Lemma groupBy_Ok_iff σ objects rule :
  (exists res, groupBy σ objects rule = Ok res)
  <-> Forall (fun x => exists k, toFunction σ rule x = Ok k /\
                                 exists s, jsToString σ k = Ok s) objects.
Proof.
  split.
  - intros (res & H). apply groupBy_Ok_run in H as (m & Hm & Hc & _).
    pose proof (groupLoop_Ok_inv _ _ _ _ Hm) as Hall.
    rewrite List.Forall_forall in *. intros r Hr. destruct (Hall r Hr) as [k Hk].
    exists k. split; [assumption|]. apply convertible_Ok.
    rewrite forallb_forall in Hc. apply Hc, (groupLoop_keys _ _ _ Hm). eauto.
  - intros H.
    assert (Hok : Forall (fun x => exists k, toFunction σ rule x = Ok k) objects).
    { revert H. apply List.Forall_impl. intros r (k & Hk & _). eauto. }
    destruct (groupLoop_total (toFunction σ rule) objects [] Hok) as (m & Hm).
    exists (buildResult m). apply groupBy_Ok_run. exists m. repeat split; [assumption|].
    apply forallb_forall. intros k Hk.
    apply (groupLoop_keys _ _ _ Hm) in Hk as (r & Hr & Hk).
    rewrite List.Forall_forall in H. destruct (H r Hr) as (k' & Hk' & Hs).
    apply convertible_Ok. assert (k' = k) as -> by congruence. exact Hs.
Qed.

(** ** The order of the keys *)

(** *** The names of the properties, in creation order *)

Lemma existsb_eqb_In s names : existsb (String.eqb s) names = true <-> In s names.
Proof.
  rewrite existsb_exists. split.
  - intros (x & Hx & E). apply String.eqb_eq in E. congruence.
  - intros H. exists s. split; [assumption | apply String.eqb_refl].
Qed.

Lemma defineGroup_names m ks : forall o,
  List.map fst (fold_left (defineGroup m) ks o)
  = fold_left addName (List.map toString ks) (List.map fst o).
Proof.
  induction ks as [|k ks IH]; intros o; simpl; [reflexivity|].
  rewrite IH. unfold defineGroup, addName. now rewrite obj_set_names.
Qed.

Lemma addName_fold_In strs : forall names s,
  In s (fold_left addName strs names) <-> In s names \/ In s strs.
Proof.
  induction strs as [|x strs IH]; intros names s; simpl; [tauto|].
  rewrite IH. unfold addName. destruct (existsb _ _) eqn:E.
  - apply existsb_eqb_In in E. split; [tauto|]. intros [H|[<-|H]]; auto.
  - rewrite in_app_iff. simpl. tauto.
Qed.

Lemma addName_fold_NoDup strs : forall names,
  List.NoDup names -> List.NoDup (fold_left addName strs names).
Proof.
  induction strs as [|x strs IH]; intros names Hnd; simpl; [assumption|].
  apply IH. unfold addName. destruct (existsb _ _) eqn:E; [assumption|].
  apply (Permutation_NoDup (Permutation_cons_append names x)).
  constructor; [|assumption]. intros Hx. apply existsb_eqb_In in Hx. congruence.
Qed.

(** Names that arrive in ascending order are created in strictly ascending
    order. *)
Lemma addName_fold_sorted strs : forall names,
  StronglySorted (fun a b => String.ltb a b = true) names ->
  StronglySorted (fun a b => String.leb a b = true) strs ->
  (forall a s, In a names -> In s strs -> String.leb a s = true) ->
  StronglySorted (fun a b => String.ltb a b = true) (fold_left addName strs names).
Proof.
  induction strs as [|x strs IH]; intros names Hn Hs Hle; simpl; [assumption|].
  inversion Hs as [|? ? Hs' Hx]; subst. rewrite List.Forall_forall in Hx.
  apply IH; [|assumption|].
  - unfold addName. destruct (existsb _ _) eqn:E; [assumption|].
    apply StronglySorted_snoc; [assumption|]. intros y Hy.
    apply string_leb_ltb; [apply Hle; simpl; auto|].
    intros ->. apply existsb_eqb_In in Hy. congruence.
  - intros a s Ha Hs0. unfold addName in Ha. destruct (existsb _ _).
    + apply Hle; simpl; auto.
    + apply in_app_iff in Ha as [Ha|[<-|[]]]; [apply Hle; simpl; auto | auto].
Qed.

(** Copies of one name create it once, after the names that are there. *)
Lemma addName_fold_same u strs : forall names,
  Forall (eq u) strs ->
  fold_left addName strs names
  = if existsb (String.eqb u) names || match strs with [] => true | _ => false end
    then names else (names ++ [u]).
Proof.
  induction strs as [|x strs IH]; intros names Hall; simpl.
  - now rewrite orb_true_r.
  - inversion Hall as [|y ys Hy Hall']. subst y ys x. rewrite orb_false_r.
    rewrite (IH _ Hall'). unfold addName. destruct (existsb (String.eqb u) names) eqn:E.
    + rewrite E. reflexivity.
    + rewrite existsb_app. simpl. rewrite String.eqb_refl, orb_true_r. reflexivity.
Qed.

(** *** The names of the groups *)

Lemma isUndefined_eq v : isUndefined v = true <-> v = VUndefined.
Proof. destruct v; simpl; split; congruence. Qed.

Lemma filter_isUndefined_names l :
  Forall (eq "undefined") (List.map toString (List.filter isUndefined l)).
Proof.
  induction l as [|v l IH]; simpl; [constructor|].
  destruct v; simpl; try assumption. now constructor.
Qed.

Lemma filter_nil_existsb {A} (f : A -> bool) l :
  match List.filter f l with [] => true | _ => false end = negb (existsb f l).
Proof.
  induction l as [|x l IH]; simpl; [reflexivity|]. now destruct (f x).
Qed.

Lemma filter_map_comm {A B} (f : A -> B) (g : B -> bool) l :
  List.map f (List.filter (fun x => g (f x)) l) = List.filter g (List.map f l).
Proof.
  induction l as [|x l IH]; simpl; [reflexivity|].
  destruct (g (f x)); simpl; now rewrite IH.
Qed.

Lemma definedNames_sorted m :
  StronglySorted (fun a b => String.ltb a b = true) (definedNames m).
Proof.
  apply addName_fold_sorted.
  - constructor.
  - apply StronglySorted_map.
    apply (stableSort_sorted sortCompare_le sortCompare_le_total sortCompare_le_trans).
  - intros a s [].
Qed.

Lemma definedNames_In m s :
  In s (definedNames m)
  <-> exists k, In k (map_keys m) /\ k <> VUndefined /\ toString k = s.
Proof.
  unfold definedNames. rewrite addName_fold_In, in_map_iff. simpl. split.
  - intros [[]|(k & Hs & Hk)]. apply stableSort_In, filter_In in Hk as [Hk Hd].
    exists k. repeat split; try assumption. intros ->. discriminate.
  - intros (k & Hk & Hd & Hs). right. exists k. split; [assumption|].
    apply stableSort_In, filter_In. split; [assumption|].
    destruct (isUndefined k) eqn:E; [|reflexivity]. apply isUndefined_eq in E. contradiction.
Qed.

(** The properties of the result in creation order: the names of the defined
    keys in strictly ascending order, then ["undefined"] when [undefined] is a
    key and no defined key has that name. *)
Lemma defineAll_names m :
  List.map fst (defineAll m)
  = if existsb (String.eqb "undefined") (definedNames m)
       || negb (existsb isUndefined (map_keys m))
    then definedNames m
    else (definedNames m ++ ["undefined"]).
Proof.
  unfold defineAll, arraySort.
  rewrite defineGroup_names, map_app, fold_left_app. simpl List.map at 3.
  fold (definedNames m).
  rewrite (addName_fold_same "undefined") by apply filter_isUndefined_names.
  destruct (List.filter isUndefined (map_keys m)) eqn:E; simpl List.map;
    pose proof (filter_nil_existsb isUndefined (map_keys m)) as H; rewrite E in H;
    now rewrite <- H.
Qed.

(** The keys as the caller enumerates them: the array indices, ascending,
    then the other names in creation order. *)
Lemma keys_split {V} (o : list (string * V)) :
  exists idx,
    keys o = (idx ++ List.filter (fun s => negb (isArrayIndex s)) (List.map fst o)) /\
    Permutation idx (List.filter isArrayIndex (List.map fst o)) /\
    StronglySorted (fun s t => (indexValue s <= indexValue t)%N) idx.
Proof.
  unfold keys, entries. rewrite map_app.
  rewrite (filter_map_comm fst (fun s => negb (isArrayIndex s))).
  eexists. split; [reflexivity|]. split.
  - rewrite <- (filter_map_comm fst isArrayIndex).
    apply Permutation_map. symmetry. apply stableSort_perm.
  - apply StronglySorted_map.
    eapply StronglySorted_weaken.
    2:{ apply (stableSort_sorted (fun p q : string * V => (indexOf p <=? indexOf q)%N)).
        - intros x y. rewrite !N.leb_le. lia.
        - intros x y z. rewrite !N.leb_le. lia. }
    intros p q H. apply N.leb_le in H. exact H.
Qed.

Lemma arrayIndex_canonical s n :
  arrayIndex s = Some n -> s = NilZero.string_of_uint (N.to_uint n).
Proof.
  unfold arrayIndex. destruct (NilZero.uint_of_string s) as [d|]; [|discriminate].
  destruct (String.eqb _ s) eqn:E; simpl; [|discriminate].
  destruct (N.ltb _ _); [|discriminate]. intros [= <-].
  apply String.eqb_eq in E. congruence.
Qed.

Lemma indexValue_inj s t :
  isArrayIndex s = true -> isArrayIndex t = true ->
  indexValue s = indexValue t -> s = t.
Proof.
  unfold isArrayIndex, indexValue.
  destruct (arrayIndex s) as [n|] eqn:Es; [|discriminate].
  destruct (arrayIndex t) as [n'|] eqn:Et; [|discriminate].
  intros _ _ <-. apply arrayIndex_canonical in Es, Et. congruence.
Qed.

Lemma StronglySorted_strict (l : list string) :
  List.NoDup l -> Forall (fun s => isArrayIndex s = true) l ->
  StronglySorted (fun s t => (indexValue s <= indexValue t)%N) l ->
  StronglySorted (fun s t => (indexValue s < indexValue t)%N) l.
Proof.
  intros Hnd Hidx Hs. induction Hs as [|x l Hs IH Hx]; constructor.
  - inversion Hnd; inversion Hidx; subst. auto.
  - inversion Hnd as [|? ? Hnx _]; inversion Hidx as [|? ? Hix Hil]; subst.
    rewrite List.Forall_forall in *. intros y Hy.
    destruct (N.eq_dec (indexValue x) (indexValue y)) as [E|E].
    + apply indexValue_inj in E; auto. congruence.
    + specialize (Hx y Hy). lia.
Qed.

Lemma defineAll_names_NoDup m : List.NoDup (List.map fst (defineAll m)).
Proof.
  unfold defineAll. rewrite defineGroup_names. apply addName_fold_NoDup. constructor.
Qed.

(** The enumeration of the keys of the result. *)
Lemma defineAll_keys m :
  exists idx,
    keys (defineAll m)
    = (idx ++ List.filter (fun s => negb (isArrayIndex s)) (List.map fst (defineAll m))) /\
    Permutation idx (List.filter isArrayIndex (List.map fst (defineAll m))) /\
    Forall (fun s => isArrayIndex s = true) idx /\
    StronglySorted (fun s t => (indexValue s < indexValue t)%N) idx.
Proof.
  destruct (keys_split (defineAll m)) as (idx & Hk & Hperm & Hsorted).
  assert (Hidx : Forall (fun s => isArrayIndex s = true) idx).
  { rewrite List.Forall_forall. intros s Hs.
    apply (Permutation_in _ Hperm), filter_In in Hs. apply Hs. }
  exists idx. repeat split; try assumption.
  apply StronglySorted_strict; try assumption.
  apply (Permutation_NoDup (Permutation_sym Hperm)).
  apply List.NoDup_filter, defineAll_names_NoDup.
Qed.


(** Numbers fare no better outside the array indices: the keys -2 and -1
    come out as -1, -2. *)
Lemma groupBy_negative_keys :
  groupBy SortOrder.σ' SortOrder.objects (FieldName "k")
  = Ok [("-1", [VRef 1%nat]); ("-2", [VRef 0%nat])]
  /\ keys [("-1", [VRef 1%nat]); ("-2", [VRef 0%nat])] = ["-1"; "-2"].
Proof. split; reflexivity. Qed.



(** At that input the statement admits the order "zebra", "undefined" only:
    the name "undefined" is the string form of no derived key other than
    [undefined], so that it is none of the sorted keys. *)
Lemma groupBy_key_order_determines idx rest tl :
  Forall (fun s => isArrayIndex s = true) idx ->
  (forall s, In s (idx ++ rest) ->
     exists r k, In r MissingKey.objects /\
                 toFunction MissingKey.σ (FieldName "team") r = Ok k /\
                 k <> VUndefined /\ (exact k -> s = toString k)) ->
  (tl = [] \/ tl = ["undefined"]) ->
  ["undefined"; "zebra"] <> (idx ++ rest ++ tl).
Proof.
  intros Hidx Hnames Htl Heq.
  assert (Hin : In "undefined" (idx ++ rest)).
  { destruct Htl as [->| ->].
    - rewrite app_nil_r in Heq. rewrite <- Heq. now left.
    - rewrite app_assoc in Heq.
      destruct (idx ++ rest) as [|x [|y l]]; simpl in Heq; try discriminate.
      injection Heq as <- _. now left. }
  destruct (Hnames _ Hin) as (r & k & [<-|[<-|[]]] & Hk & Hu & Hs);
    vm_compute in Hk; injection Hk as <-.
  - now apply Hu.
  - discriminate (Hs I).
Qed.

(** *** The string form of a number *)

Lemma to_int_proper z :
  Z.to_int z <> Decimal.Pos Decimal.Nil /\ Z.to_int z <> Decimal.Neg Decimal.Nil.
Proof.
  destruct z; simpl; split; try discriminate; intros [= H];
    now apply DecimalPos.Unsigned.to_uint_nonnil in H.
Qed.

Lemma int_of_toString n :
  NilZero.int_of_string (toString (VNum n)) = Some (Z.to_int n).
Proof. simpl. destruct (to_int_proper n). now apply NilZero.isi. Qed.

Lemma toString_num_inj a b : toString (VNum a) = toString (VNum b) -> a = b.
Proof.
  intros H. apply (f_equal NilZero.int_of_string) in H.
  rewrite !int_of_toString in H. injection H as H.
  now apply DecimalZ.to_int_inj.
Qed.

Lemma toString_undefined k :
  toString k = "undefined" -> k = VUndefined \/ k = VStr "undefined".
Proof.
  destruct k as [| |[]|n|s|l]; simpl; intros H; try discriminate; auto.
  - pose proof (int_of_toString n) as Hn. simpl in Hn. rewrite H in Hn. discriminate.
  - right. congruence.
Qed.

Lemma toString_num_proto n : isProto (toString (VNum n)) = false.
Proof.
  destruct (isProto (toString (VNum n))) eqn:E; [|reflexivity].
  apply isProto_eq in E. pose proof (int_of_toString n) as Hn. simpl in Hn, E.
  rewrite E in Hn. discriminate.
Qed.

Lemma to_uint_nonnil n : N.to_uint n <> Decimal.Nil.
Proof.
  destruct n; simpl; [discriminate | apply DecimalPos.Unsigned.to_uint_nonnil].
Qed.

Lemma toString_nat n :
  0 <= n -> toString (VNum n) = NilZero.string_of_uint (N.to_uint (Z.to_N n)).
Proof. destruct n; simpl; [reflexivity | reflexivity | lia]. Qed.

(** A number from 0 to 2^32 - 2 names an array index, namely itself. *)
Lemma arrayIndex_toString n :
  0 <= n < 4294967295 -> arrayIndex (toString (VNum n)) = Some (Z.to_N n).
Proof.
  intros Hn. rewrite toString_nat by lia. unfold arrayIndex.
  rewrite NilZero.usu by apply to_uint_nonnil.
  rewrite DecimalN.Unsigned.of_to, String.eqb_refl. simpl.
  destruct (N.ltb_spec (Z.to_N n) 4294967295); [reflexivity | lia].
Qed.

Lemma defineAll_names_In m s :
  In s (List.map fst (defineAll m)) <-> exists k, In k (map_keys m) /\ toString k = s.
Proof.
  unfold defineAll. rewrite defineGroup_names, addName_fold_In. simpl.
  rewrite in_map_iff. split.
  - intros [[]|(k & Hs & Hk)]. exists k. now rewrite arraySort_In in Hk.
  - intros (k & Hk & Hs). right. exists k. now rewrite arraySort_In.
Qed.

(** ** Keys that are non-negative integers *)

Lemma StronglySorted_map_inv {A B} (f : A -> B) (R : B -> B -> Prop) l :
  StronglySorted R (List.map f l) -> StronglySorted (fun x y => R (f x) (f y)) l.
Proof.
  induction l as [|x l IH]; simpl; intros H; [constructor|].
  inversion H as [|? ? Hs Hx]; subst. constructor; [auto|].
  rewrite List.Forall_forall in *. intros y Hy. apply Hx. now apply in_map.
Qed.

Lemma StronglySorted_weaken_In {A} (R R' : A -> A -> Prop) l :
  (forall x y, In x l -> In y l -> R x y -> R' x y) ->
  StronglySorted R l -> StronglySorted R' l.
Proof.
  intros HR Hs. induction Hs as [|x l Hs IH Hx]; constructor.
  - apply IH. intros y z Hy Hz. apply HR; now right.
  - rewrite List.Forall_forall in *. intros y Hy.
    apply HR; [now left | now right | auto].
Qed.

Lemma filter_all {A} (f : A -> bool) l :
  (forall x, In x l -> f x = true) -> List.filter f l = l.
Proof.
  induction l as [|x l IH]; simpl; intros H; [reflexivity|].
  rewrite (H x) by auto. f_equal. auto.
Qed.

Lemma filter_none {A} (f : A -> bool) l :
  (forall x, In x l -> f x = false) -> List.filter f l = [].
Proof.
  induction l as [|x l IH]; simpl; intros H; [reflexivity|].
  rewrite (H x) by auto. auto.
Qed.

(** C10, as stated, fails.  The keys 10^10 and 5 * 10^9 are non-negative
    integers, and no array indices; the result enumerates them in the order in
    which the string sort left them, "10000000000" before "5000000000". *)
Lemma groupBy_integer_keys_counterexample :
  (forall r k, In r BigKeys.objects ->
     toFunction BigKeys.σ (FieldName "numSyllables") r = Ok k ->
     exists n, k = VNum n /\ 0 <= n)
  /\ groupBy BigKeys.σ BigKeys.objects (FieldName "numSyllables")
     = Ok [("10000000000", [VRef 0%nat]); ("5000000000", [VRef 1%nat])]
  /\ keys [("10000000000", [VRef 0%nat]); ("5000000000", [VRef 1%nat])]
     = [toString (VNum 10000000000); toString (VNum 5000000000)]
  /\ ~ keysAscending (toFunction BigKeys.σ (FieldName "numSyllables"))
         (entries [("10000000000", [VRef 0%nat]); ("5000000000", [VRef 1%nat])]).
Proof.
  split; [|split; [reflexivity|split; [reflexivity|]]].
  - intros r k Hr Hk. destruct Hr as [<-|[<-|[]]]; vm_compute in Hk;
      injection Hk as <-; eexists; (split; [reflexivity | lia]).
  - intros H.
    change (entries _)
      with [("10000000000", [VRef 0%nat]); ("5000000000", [VRef 1%nat])] in H.
    inversion H as [|? ? _ Hx]; subst. inversion Hx as [|? ? Hlt _]; subst.
    specialize (Hlt (VRef 0%nat) (VRef 1%nat) (VNum 10000000000) (VNum 5000000000)).
    simpl in Hlt. discriminate Hlt; auto.
Qed.

(** C10, amended.  When every derived key is an integer from 0 to 2^32 - 2,
    the keys of the result enumerate as the derived keys in strictly ascending
    numeric order, and the groups ascend with them. *)
Theorem groupBy_index_keys σ objects rule res :
  groupBy σ objects rule = Ok res ->
  (forall r k, In r objects -> toFunction σ rule r = Ok k ->
     exists n, k = VNum n /\ 0 <= n < 4294967295) ->
  (exists ns,
     keys res = List.map (fun n => toString (VNum n)) ns /\
     StronglySorted Z.lt ns /\
     (forall n, In n ns <-> exists r, In r objects /\ toFunction σ rule r = Ok (VNum n)))
  /\ keysAscending (toFunction σ rule) (entries res).
Proof.
  intros H Hnum. apply groupBy_Ok_inv in H as (m & Hm & ->).
  rewrite named_all in Hm.
  2:{ intros r k Hr Hk. destruct (Hnum r k Hr Hk) as (n & -> & _).
      apply toString_num_proto. }
  set (property := toFunction σ rule) in *.
  assert (Hname : forall s, In s (List.map fst (defineAll m)) ->
            exists n, s = toString (VNum n) /\ 0 <= n < 4294967295 /\
                      exists r, In r objects /\ property r = Ok (VNum n)).
  { intros s Hs. apply defineAll_names_In in Hs as (k & Hk & <-).
    apply (groupLoop_keys _ _ _ Hm) in Hk as (r & Hr & Hrk).
    destruct (Hnum r k Hr Hrk) as (n & -> & Hn). exists n. eauto. }
  assert (Hidxv : forall n, 0 <= n < 4294967295 ->
            isArrayIndex (toString (VNum n)) = true /\
            indexValue (toString (VNum n)) = Z.to_N n).
  { intros n Hn. unfold isArrayIndex, indexValue. now rewrite arrayIndex_toString. }
  destruct (defineAll_keys m) as (idx & Hk & Hperm & Hidx & Hstrict).
  rewrite filter_none in Hk.
  2:{ intros s Hs. destruct (Hname s Hs) as (n & -> & Hn & _).
      destruct (Hidxv n Hn) as [-> _]. reflexivity. }
  rewrite app_nil_r in Hk.
  rewrite filter_all in Hperm.
  2:{ intros s Hs. destruct (Hname s Hs) as (n & -> & Hn & _). apply Hidxv, Hn. }
  assert (Hin : forall s, In s idx <-> In s (List.map fst (defineAll m))).
  { intros s. split; apply Permutation_in; [assumption | now symmetry]. }
  split.
  - exists (List.map (fun s => Z.of_N (indexValue s)) idx). split; [|split].
    + rewrite Hk, map_map. rewrite <- (map_id idx) at 1. apply map_ext_in.
      intros s Hs. apply Hin in Hs. destruct (Hname s Hs) as (n & -> & Hn & _).
      destruct (Hidxv n Hn) as [_ ->]. now rewrite Z2N.id by lia.
    + apply StronglySorted_map. eapply StronglySorted_weaken; [|exact Hstrict].
      intros s t Hst. cbv beta. now apply N2Z.inj_lt.
    + intros n. rewrite in_map_iff. split.
      * intros (s & <- & Hs). apply Hin in Hs.
        destruct (Hname s Hs) as (n & -> & Hn & Hr).
        destruct (Hidxv n Hn) as [_ ->]. now rewrite Z2N.id by lia.
      * intros (r & Hr & Hrk). destruct (Hnum r _ Hr Hrk) as (n' & [= <-] & Hn).
        exists (toString (VNum n)). destruct (Hidxv n Hn) as [_ ->].
        split; [now rewrite Z2N.id by lia|].
        apply Hin, defineAll_names_In. exists (VNum n). split; [|reflexivity].
        apply (groupLoop_keys _ _ _ Hm). eauto.
  - unfold keysAscending.
    assert (Hs : StronglySorted (fun p q : string * list value =>
                   (indexValue (fst p) < indexValue (fst q))%N) (entries (defineAll m))).
    { apply (StronglySorted_map_inv fst (fun s t => (indexValue s < indexValue t)%N)).
      change (List.map fst (entries (defineAll m))) with (keys (defineAll m)).
      now rewrite Hk. }
    eapply StronglySorted_weaken_In; [|exact Hs].
    intros [s1 g1] [s2 g2] H1 H2 Hlt r1 r2 k1 k2 Hr1 Hr2 Hk1 Hk2. cbn [fst snd] in *.
    apply entries_In, defineAll_In in H1 as (k1' & _ & -> & ->).
    apply entries_In, defineAll_In in H2 as (k2' & _ & -> & ->).
    rewrite (groupLoop_groupOf _ _ _ Hm) in Hr1, Hr2.
    apply filter_In in Hr1 as [Hr1 Hg1]. apply filter_In in Hr2 as [Hr2 Hg2].
    unfold inGroup in Hg1, Hg2. fold property in Hk1, Hk2. rewrite Hk1 in Hg1. rewrite Hk2 in Hg2.
    apply sameValueZero_eq in Hg1, Hg2. subst k1' k2'.
    destruct (Hnum r1 k1 Hr1 Hk1) as (n1 & -> & Hn1).
    destruct (Hnum r2 k2 Hr2 Hk2) as (n2 & -> & Hn2).
    destruct (Hidxv n1 Hn1) as [_ E1]. destruct (Hidxv n2 Hn2) as [_ E2].
    rewrite E1, E2 in Hlt. simpl. apply Z.leb_le. lia.
Qed.

Lemma groupBy_index_keys_witness :
  (exists ns,
     keys [("1", [VRef 2%nat]); ("10", [VRef 1%nat]); ("2", [VRef 0%nat; VRef 3%nat])]
     = List.map (fun n => toString (VNum n)) ns /\
     StronglySorted Z.lt ns /\
     (forall n, In n ns <->
        exists r, In r [VRef 0%nat; VRef 1%nat; VRef 2%nat; VRef 3%nat] /\
                  toFunction Examples.words (FieldName "numSyllables") r = Ok (VNum n)))
  /\ keysAscending (toFunction Examples.words (FieldName "numSyllables"))
       (entries [("1", [VRef 2%nat]); ("10", [VRef 1%nat]); ("2", [VRef 0%nat; VRef 3%nat])]).
Proof.
  apply (groupBy_index_keys Examples.words
           [VRef 0%nat; VRef 1%nat; VRef 2%nat; VRef 3%nat] (FieldName "numSyllables")).
  - reflexivity.
  - intros r k Hr Hk. destruct Hr as [<-|[<-|[<-|[<-|[]]]]]; vm_compute in Hk;
      injection Hk as <-; eexists; (split; [reflexivity | lia]).
Defined.

(** ** Records without a key *)

Lemma getProp_total σ r propName :
  r <> VUndefined -> r <> VNull -> exists k, getProp σ r propName = Ok k.
Proof.
  intros Hu Hn. destruct r as [| |b|n|s|l]; simpl; try contradiction; eauto.
  - destruct (String.eqb propName "length"); eauto.
    destruct (arrayIndex propName); eauto.
  - destruct (σ !! l) as [[props|elems|entries]|]; eauto.
    destruct (String.eqb propName "length"); eauto.
    destruct (arrayIndex propName); eauto.
Qed.

Lemma all_same_last {A} (u : A) l :
  Forall (eq u) l -> l <> [] -> exists l', l = (l' ++ [u]).
Proof.
  intros Hall Hne. destruct (exists_last Hne) as (l' & x & ->). exists l'.
  rewrite List.Forall_forall in Hall. rewrite <- (Hall x); [reflexivity|].
  apply in_app_iff. right. now left.
Qed.

Lemma filter_isUndefined_all l : Forall (eq VUndefined) (List.filter isUndefined l).
Proof.
  rewrite List.Forall_forall. intros v Hv. apply filter_In in Hv as [_ Hv].
  apply isUndefined_eq in Hv. congruence.
Qed.

(** When [undefined] is a key, it is the last key assigned, and its group is
    the value of the property "undefined" of the result. *)
Lemma defineAll_get_undefined m :
  In VUndefined (map_keys m) ->
  obj_get (defineAll m) "undefined" = Some (groupOf m VUndefined).
Proof.
  intros Hin. unfold defineAll, arraySort.
  destruct (all_same_last VUndefined (List.filter isUndefined (map_keys m)))
    as (U & HU).
  - apply filter_isUndefined_all.
  - intros E. assert (H : In VUndefined (List.filter isUndefined (map_keys m)))
      by (apply filter_In; auto). now rewrite E in H.
  - rewrite HU, app_assoc, fold_left_app. simpl. unfold defineGroup at 1.
    apply (obj_get_set_eq _ "undefined").
Qed.

Lemma defineAll_keys_undefined_last m :
  In VUndefined (map_keys m) ->
  ~ In (VStr "undefined") (map_keys m) ->
  exists before, keys (defineAll m) = (before ++ ["undefined"]).
Proof.
  intros Hin Hnot. destruct (defineAll_keys m) as (idx & Hk & _).
  rewrite defineAll_names in Hk.
  assert (E1 : existsb (String.eqb "undefined") (definedNames m) = false).
  { destruct (existsb _ _) eqn:E; [|reflexivity].
    apply existsb_eqb_In, definedNames_In in E as (k & Hk' & Hd & Hs).
    apply toString_undefined in Hs as [->| ->]; contradiction. }
  assert (E2 : existsb isUndefined (map_keys m) = true).
  { apply existsb_exists. exists VUndefined. auto. }
  rewrite E1, E2 in Hk. simpl in Hk. rewrite List.filter_app in Hk. simpl in Hk.
  rewrite app_assoc in Hk. eauto.
Qed.

(** C7, as stated, fails in its last part.  The group of the records without
    a team is enumerated after the group "zebra", although "undefined" is below
    "zebra" in the order of the sort: [sort] puts [undefined] last without
    comparing it. *)
Lemma groupBy_missing_key_counterexample :
  groupBy MissingKey.σ MissingKey.objects (FieldName "team")
  = Ok [("zebra", [VRef 1%nat]); ("undefined", [VRef 0%nat])]
  /\ keys [("zebra", [VRef 1%nat]); ("undefined", [VRef 0%nat])] = ["zebra"; "undefined"]
  /\ sortCompare_le VUndefined (VStr "zebra") = true
  /\ ~ keysSortedAsStrings (keys [("zebra", [VRef 1%nat]); ("undefined", [VRef 0%nat])]).
Proof.
  split; [reflexivity|]. split; [reflexivity|]. split; [reflexivity|].
  intros H. change (keys _) with ["zebra"; "undefined"] in H.
  inversion H as [|? ? _ Hx]; subst. inversion Hx as [|? ? Hlt _]; subst.
  discriminate Hlt.
Qed.

Lemma primitive_jsToString σ k : primitive k -> jsToString σ k = Ok (toString k).
Proof. destruct k as [| |b|n|s|l]; intros H; try reflexivity. now destruct (H l). Qed.

Lemma primitive_convertible σ k : primitive k -> convertible σ k = true.
Proof. intros H. unfold convertible. now rewrite primitive_jsToString. Qed.

Lemma plainObject_getProp σ r propName :
  plainObject σ r -> exists k, getProp σ r propName = Ok k.
Proof. intros (l & props & -> & Hl). simpl. rewrite Hl. eauto. Qed.

(** C7, amended.  The records are plain objects, the rule is a property name
    that is no member of [Object.prototype], so that the lookup reads the
    record itself, and the values of the property are primitive values.  Then
    no error is raised; the records for which the lookup yields [undefined]
    are, in input order, the group "undefined" of the result; and that group
    is enumerated last, after every other key, unless the key of some record
    is the string "undefined". *)
Theorem groupBy_missing_key σ objects propName :
  Forall (plainObject σ) objects ->
  ~ In propName objectPrototypeNames ->
  (forall r k, In r objects -> getProp σ r propName = Ok k -> primitive k) ->
  (exists r, In r objects /\ getProp σ r propName = Ok VUndefined) ->
  exists res,
    groupBy σ objects (FieldName propName) = Ok res /\
    obj_get res "undefined"
    = Some (List.filter (inGroup (fun r => getProp σ r propName) VUndefined) objects) /\
    ((forall r, In r objects -> getProp σ r propName <> Ok (VStr "undefined")) ->
     exists before, keys res = (before ++ ["undefined"])).
Proof.
  intros Hrec _ Hprim (r & Hr & Hru).
  set (property := toFunction σ (FieldName propName)).
  assert (Hok : Forall (fun x => exists k, property x = Ok k) objects).
  { eapply List.Forall_impl; [|exact Hrec]. intros x Hx. now apply plainObject_getProp. }
  destruct (groupLoop_total _ objects [] Hok) as (m0 & Hm0).
  exists (buildResult m0). split.
  { apply groupBy_Ok_run. exists m0. repeat split; [assumption|].
    apply forallb_forall. intros k Hk.
    apply (groupLoop_keys _ _ _ Hm0) in Hk as (x & Hx & Hxk).
    apply primitive_convertible. exact (Hprim x k Hx Hxk). }
  rewrite buildResult_own.
  pose proof (groupLoop_named _ _ _ _ Hm0) as Hm. change (ownGroups []) with
    (@nil (value * list value)) in Hm.
  assert (Hin : In VUndefined (map_keys (ownGroups m0))).
  { apply (groupLoop_keys _ _ _ Hm). exists r. split; [|assumption].
    apply filter_In. split; [assumption|]. unfold named, property. simpl. now rewrite Hru. }
  split.
  - rewrite (defineAll_get_undefined _ Hin). f_equal.
    apply (named_groupOf _ _ _ Hm _ Hin).
  - intros Hno. apply defineAll_keys_undefined_last; [assumption|].
    intros Hs. apply (named_keys _ _ _ Hm) in Hs as (_ & x & Hx & Hxk).
    now apply (Hno x Hx).
Qed.

Lemma groupBy_missing_key_witness :
  exists res,
    groupBy MissingKey.σ MissingKey.objects (FieldName "team") = Ok res /\
    obj_get res "undefined"
    = Some (List.filter (inGroup (fun r => getProp MissingKey.σ r "team") VUndefined)
              MissingKey.objects) /\
    ((forall r, In r MissingKey.objects ->
        getProp MissingKey.σ r "team" <> Ok (VStr "undefined")) ->
     exists before, keys res = (before ++ ["undefined"])).
Proof.
  apply groupBy_missing_key.
  - repeat constructor; eexists _, _; split; reflexivity.
  - simpl. intuition discriminate.
  - intros r k [<-|[<-|[]]] Hk; vm_compute in Hk; injection Hk as <-; intros l; discriminate.
  - exists (VRef 0%nat). split; [now left | reflexivity].
Defined.

(** ** Keys with one string form *)

(** C1 at the input [{k: 2}, {k: "2"}]: the Map holds two groups, both are
    assigned to the property "2", the second assignment replaces the first,
    and the result holds one record of the two. *)
Theorem groupBy_completeness_fails :
  groupLoop (toFunction Collide.σ Collide.property) Collide.objects []
  = Ok [(VNum 2, [VRef 0%nat]); (VStr "2", [VRef 1%nat])]
  /\ groupBy Collide.σ Collide.objects Collide.property = Ok [("2", [VRef 1%nat])]
  /\ length (flatten [("2", [VRef 1%nat])]) = 1%nat
  /\ length Collide.objects = 2%nat.
Proof. repeat split. Qed.

(** C5 at the same input: the key of the first record is the number 2,
    whose string form is "2", and neither the group "2" nor any other group
    of the result contains that record. *)
Theorem groupBy_partition_fails :
  toFunction Collide.σ Collide.property (VRef 0%nat) = Ok (VNum 2)
  /\ toString (VNum 2) = "2"
  /\ groupBy Collide.σ Collide.objects Collide.property = Ok [("2", [VRef 1%nat])]
  /\ forall s g, In (s, g) (entries [("2", [VRef 1%nat])]) -> ~ In (VRef 0%nat) g.
Proof.
  repeat split.
  intros s g [Hsg|[]] Hr. injection Hsg as <- <-.
  destruct Hr as [Hr|[]]. discriminate Hr.
Qed.

(** C8 at the input [{k: "undefined"}, {k: "zebra"}, {}]: the group of the
    string "undefined" is replaced by the group of [undefined], at the place
    of the former, before "zebra"; grouping the flattened result again puts
    "undefined" after "zebra". *)
Theorem groupBy_regroup_fails :
  groupBy Collide.σ' Collide.objects' Collide.property
  = Ok [("undefined", [VRef 2%nat]); ("zebra", [VRef 1%nat])]
  /\ flatten [("undefined", [VRef 2%nat]); ("zebra", [VRef 1%nat])]
     = [VRef 2%nat; VRef 1%nat]
  /\ groupBy Collide.σ' [VRef 2%nat; VRef 1%nat] Collide.property
     = Ok [("zebra", [VRef 1%nat]); ("undefined", [VRef 2%nat])]
  /\ keys [("undefined", [VRef 2%nat]); ("zebra", [VRef 1%nat])] = ["undefined"; "zebra"]
  /\ keys [("zebra", [VRef 1%nat]); ("undefined", [VRef 2%nat])] = ["zebra"; "undefined"].
Proof. repeat split. Qed.

(** A group holds records of one key only. *)
Lemma groupBy_group_key σ objects rule res s g :
  groupBy σ objects rule = Ok res ->
  In (s, g) (entries res) ->
  exists k, s = toString k /\
    forall r, In r g <-> In r objects /\ toFunction σ rule r = Ok k.
Proof.
  intros H Hin. apply groupBy_Ok_inv in H as (m & Hm & ->).
  apply entries_In, defineAll_In in Hin as (k & Hk & -> & ->).
  exists k. split; [reflexivity|]. intros r.
  rewrite (named_groupOf _ _ _ Hm _ Hk), filter_In. unfold inGroup.
  destruct (toFunction σ rule r) as [k'|e].
  - rewrite sameValueZero_eq. split; intros [? ?]; split; congruence.
  - split; intros [? ?]; discriminate.
Qed.

Lemma NoDup_fst_functional {A B} (l : list (A * B)) a b b' :
  List.NoDup (List.map fst l) -> In (a, b) l -> In (a, b') l -> b = b'.
Proof.
  induction l as [|[x y] l IH]; simpl; intros Hnd H1 H2; [contradiction|].
  inversion Hnd as [|? ? Hx Hnd']; subst.
  destruct H1 as [H1|H1], H2 as [H2|H2].
  - congruence.
  - exfalso. apply Hx. replace x with a by congruence. now apply (in_map fst _ (a, b')).
  - exfalso. apply Hx. replace x with a by congruence. now apply (in_map fst _ (a, b)).
  - auto.
Qed.

(** Records whose keys are distinct values are in no common group. *)
Lemma groupBy_never_merges σ objects rule res r1 r2 k1 k2 s g :
  groupBy σ objects rule = Ok res ->
  toFunction σ rule r1 = Ok k1 ->
  toFunction σ rule r2 = Ok k2 ->
  k1 <> k2 ->
  In (s, g) (entries res) -> ~ (In r1 g /\ In r2 g).
Proof.
  intros H H1 H2 Hne Hin [Hr1 Hr2].
  destruct (groupBy_group_key _ _ _ _ _ _ H Hin) as (k & _ & Hg).
  apply Hg in Hr1 as [_ Hr1]. apply Hg in Hr2 as [_ Hr2]. congruence.
Qed.



(** ** Completeness when distinct keys have distinct names *)

Lemma map_has_In {V} (m : list (value * V)) k : map_has m k = true <-> In k (map_keys m).
Proof.
  rewrite map_get_keys. unfold map_has. destruct (map_get m k); split; congruence.
Qed.

Lemma map_keys_set {V} (m : list (value * V)) k v :
  map_keys (map_set m k v) = if map_has m k then map_keys m else map_keys m ++ [k].
Proof.
  unfold map_has, map_keys. induction m as [|[k' v'] m IH]; simpl; [reflexivity|].
  destruct (sameValueZero k' k); simpl; [reflexivity|].
  rewrite IH. now destruct (map_get m k).
Qed.

Lemma map_has_set {V} (m : list (value * V)) k v : map_has (map_set m k v) k = true.
Proof. unfold map_has. now rewrite map_get_set_eq. Qed.

Lemma ensureGroup_has m g : map_has (ensureGroup m g) g = true.
Proof.
  unfold ensureGroup. destruct (map_has m g) eqn:E; simpl; [assumption | apply map_has_set].
Qed.

Lemma ensureGroup_keys m g :
  map_keys (ensureGroup m g) = if map_has m g then map_keys m else map_keys m ++ [g].
Proof.
  unfold ensureGroup. destruct (map_has m g) eqn:E; simpl; [reflexivity|].
  now rewrite map_keys_set, E.
Qed.

Lemma groupLoop_NoDup property objects : forall m0 m,
  List.NoDup (map_keys m0) ->
  groupLoop property objects m0 = Ok m ->
  List.NoDup (map_keys m).
Proof.
  induction objects as [|r rest IH]; intros m0 m Hnd H.
  - simpl in H. now injection H as <-.
  - rewrite groupLoop_cons in H.
    destruct (property r) as [g|e]; simpl in H; [|discriminate].
    eapply IH; [|exact H].
    rewrite map_keys_set, ensureGroup_has, ensureGroup_keys.
    destruct (map_has m0 g) eqn:E; [assumption|].
    apply (Permutation_NoDup (Permutation_cons_append _ _)).
    constructor; [|assumption]. intros Hin. apply map_has_In in Hin. congruence.
Qed.

Lemma filter_split_perm {A} (f : A -> bool) l :
  Permutation l (List.filter f l ++ List.filter (fun x => negb (f x)) l).
Proof.
  induction l as [|x l IH]; simpl; [constructor|].
  destruct (f x); simpl.
  - now constructor.
  - rewrite IH at 1. apply Permutation_middle.
Qed.

Lemma arraySort_perm a : Permutation a (arraySort a).
Proof.
  unfold arraySort. rewrite <- stableSort_perm.
  rewrite (filter_split_perm isUndefined a) at 1. apply Permutation_app_comm.
Qed.

(** The groups of a duplicate-free list of keys that covers the derived keys
    hold every record once. *)
Lemma groups_partition property objects : forall ks,
  List.NoDup ks ->
  (forall r, In r objects -> exists k, In k ks /\ property r = Ok k) ->
  Permutation (concat (List.map (fun k => List.filter (inGroup property k) objects) ks))
              objects.
Proof.
  induction objects as [|r rest IH]; intros ks Hnd Hcover.
  - clear. induction ks as [|k ks IHk]; simpl; [constructor | exact IHk].
  - destruct (Hcover r (or_introl eq_refl)) as (k0 & Hk0 & Hr).
    apply in_split in Hk0 as (ks1 & ks2 & ->).
    assert (Hother : forall k, k <> k0 ->
              List.filter (inGroup property k) (r :: rest)
              = List.filter (inGroup property k) rest).
    { intros k Hk. simpl. unfold inGroup at 1. rewrite Hr.
      apply not_eq_sym, sameValueZero_neq in Hk. now rewrite Hk. }
    apply NoDup_remove in Hnd as Hnd'. destruct Hnd' as [_ Hnot].
    rewrite map_app, concat_app. cbn [List.map concat].
    rewrite (map_ext_in _ (fun k => List.filter (inGroup property k) rest) ks1).
    2:{ intros k Hk. apply Hother. intros ->. apply Hnot, in_app_iff. auto. }
    rewrite (map_ext_in _ (fun k => List.filter (inGroup property k) rest) ks2).
    2:{ intros k Hk. apply Hother. intros ->. apply Hnot, in_app_iff. auto. }
    assert (Hself : List.filter (inGroup property k0) (r :: rest)
                    = r :: List.filter (inGroup property k0) rest).
    { simpl. unfold inGroup at 1. now rewrite Hr, sameValueZero_refl. }
    rewrite Hself, <- app_comm_cons, <- Permutation_middle. constructor.
    specialize (IH (ks1 ++ k0 :: ks2) Hnd).
    rewrite map_app, concat_app in IH. cbn [List.map concat] in IH. apply IH.
    intros x Hx. apply Hcover. now right.
Qed.

Lemma obj_set_fresh {V} (o : list (string * V)) s v :
  ~ In s (List.map fst o) -> obj_set o s v = o ++ [(s, v)].
Proof.
  induction o as [|[s' v'] o IH]; simpl; intros Hs; [reflexivity|].
  destruct (String.eqb s' s) eqn:E.
  - apply String.eqb_eq in E. tauto.
  - rewrite IH by tauto. reflexivity.
Qed.

Lemma defineGroup_fresh m ks : forall o,
  List.NoDup (List.map toString ks) ->
  (forall k, In k ks -> ~ In (toString k) (List.map fst o)) ->
  fold_left (defineGroup m) ks o
  = o ++ List.map (fun k => (toString k, groupOf m k)) ks.
Proof.
  induction ks as [|k ks IH]; intros o Hnd Hfresh; simpl.
  - now rewrite app_nil_r.
  - simpl in Hnd. inversion Hnd as [|? ? Hk Hnd']; subst.
    unfold defineGroup at 2. rewrite obj_set_fresh by (apply Hfresh; now left).
    rewrite IH; [now rewrite <- app_assoc | assumption |].
    intros k' Hk'. rewrite map_app, in_app_iff. simpl.
    intros [H|[H|[]]].
    + apply (Hfresh k'); [now right | assumption].
    + apply Hk. simpl in H. rewrite H. now apply in_map.
Qed.

Lemma NoDup_map_inj_in {A B} (f : A -> B) l :
  (forall x y, In x l -> In y l -> f x = f y -> x = y) ->
  List.NoDup l -> List.NoDup (List.map f l).
Proof.
  intros Hinj Hnd. induction Hnd as [|x l Hx Hnd IH]; simpl; constructor.
  - rewrite in_map_iff. intros (y & Hy & Hin).
    apply Hinj in Hy; [congruence | now right | now left].
  - apply IH. intros a b Ha Hb. apply Hinj; now right.
Qed.

Section Distinct.
Variables (property : value -> result value) (objects : list value).
Variable m : list (value * list value).
Hypothesis Hloop : groupLoop property objects [] = Ok m.
Hypothesis Hdistinct : distinctNames property objects.

Lemma keys_names_inj k1 k2 :
  In k1 (map_keys m) -> In k2 (map_keys m) -> toString k1 = toString k2 -> k1 = k2.
Proof.
  intros H1 H2. apply (groupLoop_keys _ _ _ Hloop) in H1 as (r1 & Hr1 & Hk1).
  apply (groupLoop_keys _ _ _ Hloop) in H2 as (r2 & Hr2 & Hk2).
  now apply (Hdistinct r1 r2).
Qed.

Lemma keys_NoDup : List.NoDup (map_keys m).
Proof. apply (groupLoop_NoDup property objects [] m); [constructor | assumption]. Qed.

Lemma defineAll_distinct :
  defineAll m
  = List.map (fun k => (toString k, groupOf m k)) (arraySort (map_keys m)).
Proof.
  unfold defineAll. rewrite defineGroup_fresh; [reflexivity | | intros k _ []].
  apply NoDup_map_inj_in.
  - intros x y Hx Hy. apply keys_names_inj; now apply arraySort_In.
  - apply (Permutation_NoDup (arraySort_perm _)), keys_NoDup.
Qed.

Lemma flatten_perm : Permutation (flatten (defineAll m)) objects.
Proof.
  unfold flatten. rewrite <- flat_map_concat_map.
  rewrite <- (Permutation_flat_map snd (entries_perm (defineAll m))).
  rewrite defineAll_distinct, flat_map_concat_map, map_map. simpl.
  rewrite <- flat_map_concat_map.
  rewrite <- (Permutation_flat_map (groupOf m) (arraySort_perm (map_keys m))).
  rewrite flat_map_concat_map.
  rewrite (map_ext _ _ (groupLoop_groupOf _ _ _ Hloop)).
  apply groups_partition; [apply keys_NoDup|].
  intros r Hr. pose proof (groupLoop_Ok_inv _ _ _ _ Hloop) as Hall.
  rewrite List.Forall_forall in Hall. destruct (Hall r Hr) as (k & Hk).
  exists k. split; [|assumption]. apply (groupLoop_keys _ _ _ Hloop). eauto.
Qed.
End Distinct.

Lemma distinctNames_named property objects :
  distinctNames property objects ->
  distinctNames property (List.filter (named property) objects).
Proof.
  intros H r1 r2 k1 k2 H1 H2. apply H; now apply (named_In property).
Qed.

Lemma exact_proto k : exact k -> isProto (toString k) = true -> k = VStr "__proto__".
Proof.
  destruct k as [| |[]|n|s|l]; intros He H.
  - discriminate H.
  - discriminate H.
  - discriminate H.
  - discriminate H.
  - now rewrite (toString_num_proto n) in H.
  - apply isProto_eq in H. simpl in H. now subst.
  - destruct He.
Qed.



(** ** Regrouping when distinct keys have distinct names *)

Lemma sorted_unique {A} (R : A -> A -> Prop) :
  (forall x, ~ R x x) -> (forall x y z, R x y -> R y z -> R x z) ->
  forall l1 l2, StronglySorted R l1 -> StronglySorted R l2 ->
  (forall x, In x l1 <-> In x l2) -> l1 = l2.
Proof.
  intros Hirr Htr. induction l1 as [|x l1 IH]; intros [|y l2] H1 H2 Hmem.
  - reflexivity.
  - exfalso. apply (proj2 (Hmem y)). now left.
  - exfalso. apply (proj1 (Hmem x)). now left.
  - inversion H1 as [|? ? H1' Hx]; inversion H2 as [|? ? H2' Hy]; subst.
    rewrite List.Forall_forall in Hx, Hy.
    assert (x = y) as ->.
    { destruct (proj1 (Hmem x) (or_introl eq_refl)) as [E|Hxin]; [now symmetry|].
      destruct (proj2 (Hmem y) (or_introl eq_refl)) as [E|Hyin]; [assumption|].
      exfalso. apply (Hirr x). eapply Htr; [apply Hx, Hyin | apply Hy, Hxin]. }
    f_equal. apply IH; [assumption | assumption|].
    intros z. split; intros Hz.
    + destruct (proj1 (Hmem z) (or_intror Hz)) as [<-|?]; [|assumption].
      exfalso. apply (Hirr y). now apply Hx.
    + destruct (proj2 (Hmem z) (or_intror Hz)) as [<-|?]; [|assumption].
      exfalso. apply (Hirr y). now apply Hy.
Qed.

Lemma StronglySorted_NoDup_neq {A} (R : A -> A -> Prop) l :
  StronglySorted R l -> List.NoDup l -> StronglySorted (fun x y => R x y /\ x <> y) l.
Proof.
  induction 1 as [|x l Hs IH Hx]; intros Hnd; constructor;
    inversion Hnd as [|? ? Hnot Hnd']; subst.
  - auto.
  - rewrite List.Forall_forall in *. intros y Hy. split; [auto|]. intros ->. contradiction.
Qed.

Lemma filter_isUndefined_NoDup l :
  List.NoDup l ->
  List.filter isUndefined l = if existsb isUndefined l then [VUndefined] else [].
Proof.
  induction 1 as [|x l Hx Hnd IH]; simpl; [reflexivity|].
  destruct (isUndefined x) eqn:E; simpl; [|assumption].
  apply isUndefined_eq in E. subst x. rewrite IH.
  destruct (existsb isUndefined l) eqn:E'; [|reflexivity].
  apply existsb_exists in E' as (y & Hy & Hu). apply isUndefined_eq in Hu. subst. contradiction.
Qed.

(** Two duplicate-free lists of keys with the same members, on which the
    string form is injective, are sorted to the same array. *)
Lemma arraySort_unique l1 l2 :
  List.NoDup l1 -> List.NoDup l2 -> (forall k, In k l1 <-> In k l2) ->
  (forall x y, In x l1 -> In y l1 -> toString x = toString y -> x = y) ->
  arraySort l1 = arraySort l2.
Proof.
  intros Hnd1 Hnd2 Hmem Hinj. unfold arraySort. f_equal.
  - set (d := fun v => negb (isUndefined v)).
    set (R := fun x y : value => String.ltb (toString x) (toString y) = true).
    assert (Hstrict : forall l, List.NoDup l ->
              (forall x y, In x l -> In y l -> toString x = toString y -> x = y) ->
              StronglySorted R (stableSort sortCompare_le (List.filter d l))).
    { intros l Hnd Hi.
      pose proof (stableSort_sorted sortCompare_le sortCompare_le_total sortCompare_le_trans
                    (List.filter d l)) as Hs.
      apply StronglySorted_NoDup_neq in Hs.
      2:{ apply (Permutation_NoDup (stableSort_perm _ _)). now apply List.NoDup_filter. }
      eapply StronglySorted_weaken_In; [|exact Hs].
      intros x y Hx Hy [Hle Hne]. apply string_leb_ltb; [exact Hle|].
      intros E. apply Hne.
      apply stableSort_In, filter_In in Hx as [Hx _].
      apply stableSort_In, filter_In in Hy as [Hy _]. now apply Hi. }
    apply (sorted_unique R).
    + intros x. unfold R. now rewrite string_ltb_irrefl.
    + intros x y z. unfold R, String.ltb.
      destruct (String.compare (toString x) (toString y)) eqn:E1; try discriminate.
      destruct (String.compare (toString y) (toString z)) eqn:E2; try discriminate.
      now rewrite (string_compare_lt_trans _ _ _ E1 E2).
    + now apply Hstrict.
    + apply Hstrict; [assumption|].
      intros x y Hx Hy. apply Hinj; now apply Hmem.
    + intros k. rewrite !stableSort_In, !filter_In, Hmem. reflexivity.
  - rewrite !filter_isUndefined_NoDup by assumption.
    assert (existsb isUndefined l1 = existsb isUndefined l2) as ->; [|reflexivity].
    apply eq_true_iff_eq. rewrite !existsb_exists.
    split; intros (x & Hx & Hu); exists x; (split; [now apply Hmem | assumption]).
Qed.

Lemma filter_concat {A} (f : A -> bool) (ls : list (list A)) :
  List.filter f (concat ls) = concat (List.map (List.filter f) ls).
Proof.
  induction ls as [|l ls IH]; simpl; [reflexivity|]. now rewrite List.filter_app, IH.
Qed.

Lemma filter_filter_same {A} (f : A -> bool) l :
  List.filter f (List.filter f l) = List.filter f l.
Proof.
  induction l as [|x l IH]; simpl; [reflexivity|].
  destruct (f x) eqn:E; simpl; [rewrite E; now f_equal | assumption].
Qed.

Lemma inGroup_disjoint property k k' l :
  k <> k' ->
  List.filter (inGroup property k) (List.filter (inGroup property k') l) = [].
Proof.
  intros Hne. apply filter_none. intros r Hr. apply filter_In in Hr as [_ Hr].
  unfold inGroup in *. destruct (property r) as [g|]; [|reflexivity].
  apply sameValueZero_eq in Hr. subst g. apply sameValueZero_neq. congruence.
Qed.

Lemma concat_nil {A} (ls : list (list A)) :
  (forall l, In l ls -> l = []) -> concat ls = [].
Proof.
  induction ls as [|l ls IH]; simpl; intros H; [reflexivity|].
  rewrite (H l) by auto. apply IH. auto.
Qed.

Section Regroup.
Variables (property : value -> result value) (objects : list value).
Variable m : list (value * list value).
Hypothesis Hloop : groupLoop property objects [] = Ok m.
Hypothesis Hdistinct : distinctNames property objects.

(** The records of the flattened result that derive a key of the Map are
    the group of that key. *)
Lemma flatten_group k :
  In k (map_keys m) ->
  List.filter (inGroup property k) (flatten (defineAll m)) = groupOf m k.
Proof.
  intros Hk. unfold flatten. rewrite filter_concat, map_map.
  set (res := defineAll m).
  assert (Hin : In (toString k, groupOf m k) (entries res)).
  { apply entries_In. unfold res.
    rewrite (defineAll_distinct property objects m Hloop Hdistinct).
    apply in_map_iff. exists k. split; [reflexivity | now apply arraySort_In]. }
  assert (Hnd : List.NoDup (List.map fst (entries res))).
  { apply (Permutation_NoDup (Permutation_map fst (entries_perm res))).
    apply defineAll_names_NoDup. }
  apply in_split in Hin as (E1 & E2 & HE). rewrite HE in Hnd |- *.
  assert (Hother : forall e, In e (E1 ++ E2) ->
            List.filter (inGroup property k) (snd e) = []).
  { intros [s g] He. simpl.
    assert (Hin' : In (s, g) (entries res)).
    { rewrite HE. apply in_app_iff. apply in_app_iff in He as [?|?]; [left|right; right]; auto. }
    apply entries_In, defineAll_In in Hin' as (k' & Hk' & -> & ->).
    rewrite (groupLoop_groupOf _ _ _ Hloop).
    apply inGroup_disjoint. intros <-.
    rewrite map_app in Hnd. simpl in Hnd. apply NoDup_remove_2 in Hnd. apply Hnd.
    rewrite <- map_app. apply (in_map fst _ _ He). }
  rewrite map_app, concat_app. simpl.
  rewrite (concat_nil (List.map _ E1)), (concat_nil (List.map _ E2)).
  - rewrite app_nil_r. simpl. rewrite (groupLoop_groupOf _ _ _ Hloop).
    apply filter_filter_same.
  - intros l Hl. apply in_map_iff in Hl as (e & <- & He).
    apply Hother, in_app_iff. now right.
  - intros l Hl. apply in_map_iff in Hl as (e & <- & He).
    apply Hother, in_app_iff. now left.
Qed.

Lemma regroup_distinct :
  exists m2,
    groupLoop property (flatten (defineAll m)) [] = Ok m2 /\
    defineAll m2 = defineAll m.
Proof.
  pose proof (flatten_perm property objects m Hloop Hdistinct) as Hperm.
  assert (Hmem : forall r, In r (flatten (defineAll m)) <-> In r objects).
  { intros r. split; apply Permutation_in; [assumption | now symmetry]. }
  destruct (groupLoop_total property (flatten (defineAll m)) []) as (m2 & Hm2).
  { pose proof (groupLoop_Ok_inv _ _ _ _ Hloop) as Hall.
    rewrite List.Forall_forall in *. intros r Hr. apply Hall, Hmem, Hr. }
  exists m2. split; [assumption|].
  assert (Hd2 : distinctNames property (flatten (defineAll m))).
  { intros r1 r2 k1 k2 H1 H2. apply Hdistinct; now apply Hmem. }
  assert (Hkeys : forall k, In k (map_keys m2) <-> In k (map_keys m)).
  { intros k. rewrite (groupLoop_keys _ _ _ Hm2), (groupLoop_keys _ _ _ Hloop).
    split; intros (r & Hr & Hk); exists r; (split; [now apply Hmem | assumption]). }
  rewrite (defineAll_distinct _ _ _ Hm2 Hd2).
  rewrite (defineAll_distinct _ _ _ Hloop Hdistinct).
  rewrite (arraySort_unique (map_keys m2) (map_keys m)).
  - apply map_ext_in. intros k Hk. apply (proj1 (arraySort_In _ _)) in Hk. f_equal.
    rewrite (groupLoop_groupOf _ _ _ Hm2). now apply flatten_group.
  - apply (keys_NoDup _ _ _ Hm2).
  - apply (keys_NoDup _ _ _ Hloop).
  - assumption.
  - intros x y Hx Hy. apply (keys_names_inj _ _ _ Hm2 Hd2); assumption.
Qed.
End Regroup.


(** * The program on the store *)

(** ** Running the operations *)

Lemma triple_seq {A B} P (c : Stateful.M A) Q (k : A -> Stateful.M B) R E :
  triple P c Q E -> (forall a, triple (Q a) (k a) R E) -> triple P (Stateful.seq c k) R E.
Proof.
  intros Hc Hk σ HP. unfold Stateful.seq. specialize (Hc σ HP).
  destruct (c σ) as [[a|e] σ']; [apply (Hk a σ' Hc) | exact Hc].
Qed.

Lemma triple_conseq {A} (P P' : heap -> Prop) (c : Stateful.M A) (Q Q' : A -> heap -> Prop) E :
  (forall σ, P' σ -> P σ) -> (forall a σ, Q a σ -> Q' a σ) ->
  triple P c Q E -> triple P' c Q' E.
Proof.
  intros HP HQ Hc σ H. specialize (Hc σ (HP σ H)).
  destruct (c σ) as [[a|e] σ']; auto.
Qed.

Lemma triple_forOf {A} (I : heap -> Prop) (body : A -> Stateful.M unit) E l :
  (forall x, triple I (body x) (fun _ => I) E) ->
  triple I (Stateful.forOf l body) (fun _ => I) E.
Proof.
  intros Hbody. induction l as [|x l IH]; simpl.
  - intros σ H. exact H.
  - eapply triple_seq; [apply Hbody|]. intros u. exact IH.
Qed.

Lemma seq_Ok {A B} (c : Stateful.M A) (k : A -> Stateful.M B) σ a σ' :
  c σ = (Ok a, σ') -> Stateful.seq c k σ = k a σ'.
Proof. intros H. unfold Stateful.seq. now rewrite H. Qed.

Lemma seq_Throw {A B} (c : Stateful.M A) (k : A -> Stateful.M B) σ e σ' :
  c σ = (Throw e, σ') -> Stateful.seq c k σ = (Throw e, σ').
Proof. intros H. unfold Stateful.seq. now rewrite H. Qed.

Lemma arrayElems_run σ a elems :
  σ !! a = Some (CArr elems) -> Stateful.arrayElems a σ = (Ok elems, σ).
Proof. intros H. unfold Stateful.arrayElems, Stateful.seq, Stateful.load. now rewrite H. Qed.

Lemma arraySortInPlace_run σ a elems :
  σ !! a = Some (CArr elems) ->
  Stateful.arraySortInPlace a σ
  = if Stateful.sortConverts σ elems
    then (Ok tt, <[a := CArr (arraySort elems)]> σ)
    else (Throw conversionError, σ).
Proof.
  intros H. unfold Stateful.arraySortInPlace.
  now rewrite (seq_Ok _ _ _ _ _ (arrayElems_run _ _ _ H)).
Qed.

Lemma lookup_snoc (σ : heap) c : (σ ++ [c]) !! length σ = Some c.
Proof. now rewrite lookup_app_r, Nat.sub_diag by lia. Qed.

Lemma arrayElems_cases a σ :
  (exists elems, σ !! a = Some (CArr elems) /\ Stateful.arrayElems a σ = (Ok elems, σ))
  \/ (exists e, Stateful.arrayElems a σ = (Throw e, σ)).
Proof.
  unfold Stateful.arrayElems, Stateful.seq, Stateful.load.
  destruct (σ !! a) as [[props|elems|es]|]; eauto.
Qed.

Lemma mapEntries_run σ m es :
  σ !! m = Some (CMap es) -> Stateful.mapEntries m σ = (Ok es, σ).
Proof. intros H. unfold Stateful.mapEntries, Stateful.seq, Stateful.load. now rewrite H. Qed.

Lemma mapHas_run σ m es k :
  σ !! m = Some (CMap es) -> Stateful.mapHas m k σ = (Ok (map_has es k), σ).
Proof. intros H. unfold Stateful.mapHas, Stateful.seq. now rewrite (mapEntries_run _ _ _ H). Qed.

Lemma mapGet_run σ m es k :
  σ !! m = Some (CMap es) ->
  Stateful.mapGet m k σ = (Ok (match map_get es k with Some v => v | None => VUndefined end), σ).
Proof. intros H. unfold Stateful.mapGet, Stateful.seq. now rewrite (mapEntries_run _ _ _ H). Qed.

Lemma mapSet_run σ m es k v :
  σ !! m = Some (CMap es) ->
  Stateful.mapSet m k v σ = (Ok tt, <[m := CMap (map_set es k v)]> σ).
Proof. intros H. unfold Stateful.mapSet, Stateful.seq. now rewrite (mapEntries_run _ _ _ H). Qed.

Lemma mapKeys_run σ m es :
  σ !! m = Some (CMap es) -> Stateful.mapKeys m σ = (Ok (map_keys es), σ).
Proof. intros H. unfold Stateful.mapKeys, Stateful.seq. now rewrite (mapEntries_run _ _ _ H). Qed.

Lemma objSet_run σ o props key v :
  σ !! o = Some (CObj props) ->
  Stateful.objSet o key v σ
  = match jsToString σ key with
    | Ok _ => (Ok tt, <[o := CObj (obj_assign props (toString key) v)]> σ)
    | Throw e => (Throw e, σ)
    end.
Proof.
  intros H. unfold Stateful.objSet, Stateful.seq, Stateful.toPropertyKey, Stateful.load.
  destruct (jsToString σ key); [now rewrite H | reflexivity].
Qed.

Lemma prefix_insert_ge (σ0 σ : heap) l c :
  σ0 `prefix_of` σ -> (length σ0 <= l)%nat -> σ0 `prefix_of` <[l := c]> σ.
Proof.
  intros [k ->] Hl. exists (<[(l - length σ0)%nat := c]> k).
  now apply insert_app_r_alt.
Qed.

Lemma groupsAbove_set σ0 es k a :
  groupsAbove σ0 es -> (length σ0 < a)%nat -> groupsAbove σ0 (map_set es k (VRef a)).
Proof.
  intros Hes Ha. induction Hes as [|[k' v'] es Hkv Hes IH]; simpl.
  - repeat constructor. exists a. auto.
  - destruct (sameValueZero k' k); constructor; auto. exists a. auto.
Qed.

Lemma groupsAbove_get σ0 es k :
  groupsAbove σ0 es ->
  match map_get es k with
  | Some v => exists a, v = VRef a /\ (length σ0 < a)%nat
  | None => True
  end.
Proof.
  intros Hes. induction Hes as [|[k' v'] es Hkv Hes IH]; simpl; [exact I|].
  destruct (sameValueZero k' k); [exact Hkv | exact IH].
Qed.

Lemma ensureGroup_frame σ0 g σ es :
  σ0 `prefix_of` σ -> σ !! length σ0 = Some (CMap es) -> groupsAbove σ0 es ->
  exists σ1 es1,
    Stateful.ensureGroup (length σ0) g σ = (Ok tt, σ1) /\
    σ0 `prefix_of` σ1 /\ σ1 !! length σ0 = Some (CMap es1) /\ groupsAbove σ0 es1.
Proof.
  intros Hpre Hm Hes. unfold Stateful.ensureGroup, Stateful.seq at 1.
  rewrite (mapHas_run _ _ _ _ Hm).
  assert (Hlt : (length σ0 < length σ)%nat) by (now apply lookup_lt_Some in Hm).
  destruct (map_has es g); simpl.
  - exists σ, es. auto.
  - unfold Stateful.seq, Stateful.alloc.
    assert (Hm' : (σ ++ [CArr []]) !! length σ0 = Some (CMap es))
      by (rewrite lookup_app_l; auto).
    rewrite (mapSet_run _ _ _ _ _ Hm').
    eexists _, _. split; [reflexivity|]. split; [|split].
    + apply prefix_insert_ge; [now apply prefix_app_r | lia].
    + apply list_lookup_insert_eq. rewrite length_app. simpl. lia.
    + apply groupsAbove_set; assumption.
Qed.

(** The body of the first loop writes to the Map and to the arrays of the
    groups only. *)
Lemma groupRecord_frame σ0 property object :
  triple (mapInv σ0) (Stateful.groupRecord (length σ0) property object)
    (fun _ => mapInv σ0) (fun σ => σ0 `prefix_of` σ).
Proof.
  intros σ (Hpre & es & Hm & Hes).
  unfold Stateful.groupRecord, Stateful.seq at 1, Stateful.call.
  destruct (toFunction σ property object) as [g|e]; [|exact Hpre].
  unfold Stateful.seq at 1.
  destruct (ensureGroup_frame σ0 g σ es Hpre Hm Hes) as (σ1 & es1 & -> & Hpre1 & Hm1 & Hes1).
  unfold Stateful.seq at 1. rewrite (mapGet_run _ _ _ _ Hm1).
  pose proof (groupsAbove_get σ0 es1 g Hes1) as Hget.
  destruct (map_get es1 g) as [v|]; [|exact Hpre1].
  destruct Hget as (a & -> & Ha). unfold Stateful.arrayPush, Stateful.seq, Stateful.load.
  destruct (σ1 !! a) as [[props|elems|entries]|] eqn:Ea; try exact Hpre1.
  unfold Stateful.store. split; [apply prefix_insert_ge; [assumption | lia]|].
  exists es1. split; [|assumption].
  rewrite list_lookup_insert_ne by lia. assumption.
Qed.

Lemma assignKey_frame (σ0 : heap) (m result : loc) key :
  (length σ0 <= result)%nat ->
  triple (fun σ => σ0 `prefix_of` σ /\ exists props, σ !! result = Some (CObj props))
    (Stateful.assignKey m result key)
    (fun _ σ => σ0 `prefix_of` σ /\ exists props, σ !! result = Some (CObj props))
    (fun σ => σ0 `prefix_of` σ).
Proof.
  intros Hres σ (Hpre & props & Hr).
  unfold Stateful.assignKey, Stateful.seq, Stateful.mapGet, Stateful.seq,
    Stateful.mapEntries, Stateful.seq, Stateful.load.
  destruct (σ !! m) as [[?|?|es]|]; cbv beta iota; try exact Hpre.
  unfold Stateful.ret. rewrite (objSet_run _ _ _ _ _ Hr).
  destruct (jsToString σ key); [|exact Hpre]. split.
  - now apply prefix_insert_ge.
  - eexists. apply list_lookup_insert_eq. now apply lookup_lt_Some in Hr.
Qed.

(** C9.  Input immutability: whatever the store, the array and the rule, and
    whether [Stateful.groupBy] returns or raises, the store it leaves is the
    store it was given followed by the objects it has allocated.  No object
    that existed before the call, the input array and the records among them,
    has changed; the Map, the arrays of the groups, the array of the keys and
    the result are new objects of this call, and the result returned is one of
    them. *)
Theorem groupBy_frame (objects : loc) (property : keyRule) (σ : heap) :
  match Stateful.groupBy objects property σ with
  | (Ok v, σ') =>
      σ `prefix_of` σ' /\
      exists l props, v = VRef l /\ (length σ <= l)%nat /\ σ' !! l = Some (CObj props)
  | (Throw _, σ') => σ `prefix_of` σ'
  end.
Proof.
  unfold Stateful.groupBy.
  rewrite (seq_Ok _ _ σ (length σ) (σ ++ [CMap []]) eq_refl).
  set (σ1 := σ ++ [CMap []]).
  assert (Hpre1 : σ `prefix_of` σ1) by (now apply prefix_app_r).
  assert (Hinv1 : mapInv σ σ1).
  { split; [assumption|]. exists []. split; [apply lookup_snoc | constructor]. }
  destruct (arrayElems_cases objects σ1) as [(elems & _ & E)|(e & E)].
  2:{ now rewrite (seq_Throw _ _ _ _ _ E). }
  rewrite (seq_Ok _ _ _ _ _ E).
  pose proof (triple_forOf (mapInv σ) (Stateful.groupRecord (length σ) property) _ elems
                (groupRecord_frame σ property) σ1 Hinv1) as Hloop.
  destruct (Stateful.forOf elems (Stateful.groupRecord (length σ) property) σ1)
    as [[[]|e] σ2] eqn:Eloop.
  2:{ now rewrite (seq_Throw _ _ _ _ _ Eloop). }
  rewrite (seq_Ok _ _ _ _ _ Eloop).
  destruct Hloop as (Hpre2 & es & Hm2 & _).
  assert (Hlen2 : (length σ < length σ2)%nat) by (now apply lookup_lt_Some in Hm2).
  rewrite (seq_Ok _ _ σ2 (length σ2) (σ2 ++ [CObj []]) eq_refl).
  set (σ3 := σ2 ++ [CObj []]).
  assert (Hlen3 : length σ3 = S (length σ2)) by (unfold σ3; rewrite length_app; simpl; lia).
  assert (Hm3 : σ3 !! length σ = Some (CMap es)) by (unfold σ3; now rewrite lookup_app_l).
  rewrite (seq_Ok _ _ _ _ _ (mapKeys_run _ _ _ Hm3)).
  rewrite (seq_Ok _ _ σ3 (length σ3) (σ3 ++ [CArr (map_keys es)]) eq_refl).
  set (σ4 := σ3 ++ [CArr (map_keys es)]).
  assert (Hk4 : σ4 !! length σ3 = Some (CArr (map_keys es))) by apply lookup_snoc.
  pose proof (arraySortInPlace_run _ _ _ Hk4) as Esort.
  destruct (Stateful.sortConverts σ4 (map_keys es)).
  2:{ rewrite (seq_Throw _ _ _ _ _ Esort). unfold σ4. now apply prefix_app_r, prefix_app_r. }
  rewrite (seq_Ok _ _ _ _ _ Esort).
  set (σ5 := <[length σ3 := CArr (arraySort (map_keys es))]> σ4).
  assert (Hk5 : σ5 !! length σ3 = Some (CArr (arraySort (map_keys es)))).
  { apply list_lookup_insert_eq. now apply lookup_lt_Some in Hk4. }
  rewrite (seq_Ok _ _ _ _ _ (arrayElems_run _ _ _ Hk5)).
  assert (Hinv5 : σ `prefix_of` σ5 /\ exists props, σ5 !! length σ2 = Some (CObj props)).
  { split.
    - apply prefix_insert_ge; [|lia]. now apply prefix_app_r, prefix_app_r.
    - exists []. unfold σ5, σ4. rewrite list_lookup_insert_ne by lia.
      rewrite lookup_app_l by lia. apply lookup_snoc. }
  assert (Hres : (length σ <= length σ2)%nat) by lia.
  pose proof (triple_forOf _ (Stateful.assignKey (length σ) (length σ2)) _
                (arraySort (map_keys es))
                (fun key => assignKey_frame σ (length σ) (length σ2) key Hres) σ5 Hinv5)
    as Hloop2.
  destruct (Stateful.forOf (arraySort (map_keys es))
              (Stateful.assignKey (length σ) (length σ2)) σ5) as [[[]|e] σ6] eqn:Eloop2.
  2:{ now rewrite (seq_Throw _ _ _ _ _ Eloop2). }
  rewrite (seq_Ok _ _ _ _ _ Eloop2). unfold Stateful.ret.
  destruct Hloop2 as (Hpre6 & props & Hr6).
  split; [assumption|]. exists (length σ2), props. auto.
Qed.

(** ** The two models agree *)

Lemma tableEntries_get t k :
  map_get (tableEntries t) k = option_map (fun ag => VRef (fst ag)) (tableGet t k).
Proof.
  induction t as [|[[k' a] g] t IH]; simpl; [reflexivity|].
  now destruct (sameValueZero k' k).
Qed.

Lemma tableGroups_get t k :
  map_get (tableGroups t) k = option_map snd (tableGet t k).
Proof.
  induction t as [|[[k' a] g] t IH]; simpl; [reflexivity|].
  now destruct (sameValueZero k' k).
Qed.

Lemma tableEntries_keys t : map_keys (tableEntries t) = map_keys (tableGroups t).
Proof.
  unfold map_keys, tableEntries, tableGroups. rewrite !map_map. reflexivity.
Qed.

Lemma tableGet_In t k a g : tableGet t k = Some (a, g) -> In (k, a, g) t.
Proof.
  induction t as [|[[k' a'] g'] t IH]; simpl; [discriminate|].
  svz_cases k' k.
  - intros [= -> ->]. now left.
  - intros H. right. auto.
Qed.

Lemma tableEntries_new t k a :
  tableGet t k = None ->
  map_set (tableEntries t) k (VRef a) = tableEntries (t ++ [(k, a, [])]).
Proof.
  induction t as [|[[k' a'] g'] t IH]; simpl; [reflexivity|].
  destruct (sameValueZero k' k); [discriminate|]. intros H. now rewrite IH.
Qed.

Lemma tableGroups_new t k a :
  tableGet t k = None ->
  map_set (tableGroups t) k [] = tableGroups (t ++ [(k, a, [])]).
Proof.
  induction t as [|[[k' a'] g'] t IH]; simpl; [reflexivity|].
  destruct (sameValueZero k' k); [discriminate|]. intros H. now rewrite IH.
Qed.

Lemma tableGroups_set t k g :
  tableGet t k <> None ->
  map_set (tableGroups t) k g = tableGroups (tableSet t k g).
Proof.
  induction t as [|[[k' a'] g'] t IH]; simpl; [congruence|].
  destruct (sameValueZero k' k); simpl; [reflexivity|]. intros H. now rewrite IH.
Qed.

Lemma tableEntries_set t k g : tableEntries (tableSet t k g) = tableEntries t.
Proof.
  induction t as [|[[k' a'] g'] t IH]; simpl; [reflexivity|].
  destruct (sameValueZero k' k); simpl; [reflexivity|]. now rewrite IH.
Qed.

Lemma tableLocs_set t k g : tableLocs (tableSet t k g) = tableLocs t.
Proof.
  induction t as [|[[k' a'] g'] t IH]; simpl; [reflexivity|].
  destruct (sameValueZero k' k); simpl; [reflexivity|]. now rewrite IH.
Qed.

Lemma tableSet_In t k g a g' e :
  List.NoDup (tableLocs t) -> tableGet t k = Some (a, g') ->
  In e (tableSet t k g) ->
  e = (k, a, g) \/ (In e t /\ snd (fst e) <> a).
Proof.
  induction t as [|[[k0 a0] g0] t IH]; simpl; [discriminate|].
  intros Hnd Hg He. inversion Hnd as [|? ? Hnot Hnd']; subst.
  svz_cases k0 k.
  - injection Hg as -> ->. destruct He as [<-|He]; [now left|].
    right. split; [now right|]. intros <-. apply Hnot.
    apply (in_map (fun e => snd (fst e)) _ _ He).
  - destruct He as [<-|He].
    + right. split; [now left|]. simpl. intros ->. apply Hnot.
      apply tableGet_In in Hg. apply (in_map (fun e => snd (fst e)) _ _ Hg).
    + destruct (IH Hnd' Hg He) as [?|[? ?]]; auto.
Qed.

Lemma tableGet_app_new t k a :
  tableGet t k = None -> tableGet (t ++ [(k, a, [])]) k = Some (a, []).
Proof.
  induction t as [|[[k' a'] g'] t IH]; simpl.
  - now rewrite sameValueZero_refl.
  - destruct (sameValueZero k' k); [discriminate | exact IH].
Qed.

Lemma tableGet_set_eq t k g a g' :
  tableGet t k = Some (a, g') -> tableGet (tableSet t k g) k = Some (a, g).
Proof.
  induction t as [|[[k0 a0] g0] t IH]; simpl; [discriminate|].
  destruct (sameValueZero k0 k) eqn:E; simpl; rewrite E; [congruence | exact IH].
Qed.

Lemma tableIn_locs_lt σ m t a :
  tableIn σ m t -> In a (tableLocs t) -> (m < a < length σ)%nat.
Proof.
  intros (_ & _ & Hall) Ha. unfold tableLocs in Ha.
  apply in_map_iff in Ha as (e & <- & He).
  rewrite List.Forall_forall in Hall. destruct (Hall e He) as [Hlt Hl].
  apply lookup_lt_Some in Hl. cbv beta. lia.
Qed.

Lemma represents_obj_set σ props res s a g :
  represents σ props res -> σ !! a = Some (CArr g) ->
  represents σ (obj_set props s (VRef a)) (obj_set res s g).
Proof.
  intros Hrep Ha. induction Hrep as [|[s1 v1] [s2 g2] props res [Hs Hv] Hrep IH]; simpl.
  - repeat constructor. simpl. eauto.
  - simpl in Hs. subst s2. destruct (String.eqb s1 s).
    + constructor; [|assumption]. simpl. eauto.
    + constructor; [|assumption]. simpl. auto.
Qed.

Lemma represents_get σ props res s :
  represents σ props res ->
  match obj_get props s, obj_get res s with
  | Some _, Some _ | None, None => True
  | _, _ => False
  end.
Proof.
  intros Hrep. induction Hrep as [|[s1 v1] [s2 g2] props res [Hs Hv] Hrep IH]; simpl.
  - exact I.
  - simpl in Hs. subst s2. now destruct (String.eqb s1 s).
Qed.

Lemma represents_obj_assign σ props res s a g :
  represents σ props res -> σ !! a = Some (CArr g) ->
  represents σ (obj_assign props s (VRef a)) (obj_assign res s g).
Proof.
  intros Hrep Ha. unfold obj_assign. pose proof (represents_get σ props res s Hrep) as Hget.
  destruct (obj_get props s), (obj_get res s); try contradiction.
  - now apply represents_obj_set.
  - destruct (String.eqb s "__proto__"); [assumption | now apply represents_obj_set].
Qed.

Lemma represents_insert σ props res l c :
  represents σ props res ->
  (forall elems, σ !! l <> Some (CArr elems)) ->
  represents (<[l := c]> σ) props res.
Proof.
  intros Hrep Hl. eapply Forall2_impl; [exact Hrep|].
  intros p q [Hs (a & Hv & Ha)]. split; [assumption|]. exists a. split; [assumption|].
  rewrite list_lookup_insert_ne; [assumption|]. intros ->. now apply (Hl (snd q)).
Qed.

Lemma tableIn_insert σ m t l c :
  tableIn σ m t -> l <> m -> ~ In l (tableLocs t) -> tableIn (<[l := c]> σ) m t.
Proof.
  intros (Hm & Hnd & Hall) Hl1 Hl2. split; [|split; [assumption|]].
  - rewrite list_lookup_insert_ne; [assumption | congruence].
  - rewrite List.Forall_forall in *. intros e He. destruct (Hall e He) as [Hlt Hc].
    split; [assumption|]. rewrite list_lookup_insert_ne; [assumption|].
    intros ->. apply Hl2. apply (in_map (fun e => snd (fst e)) _ _ He).
Qed.

Lemma tableIn_other σ m t l props :
  tableIn σ m t -> σ !! l = Some (CObj props) -> l <> m /\ ~ In l (tableLocs t).
Proof.
  intros (Hm & _ & Hall) Hl. split.
  - intros ->. congruence.
  - unfold tableLocs. rewrite in_map_iff. intros (e & <- & He).
    rewrite List.Forall_forall in Hall. destruct (Hall e He) as [_ Hc]. congruence.
Qed.

Section Refine.
Variables (σ0 : heap) (property : keyRule) (elems : list value).

(** The rule answers on the records as it does in the initial store,
    whatever is allocated after it. *)
Hypothesis stable : forall σ, σ0 `prefix_of` σ -> forall r, In r elems ->
  toFunction σ property r = toFunction σ0 property r.

Lemma ensureGroup_sim g σ t :
  σ0 `prefix_of` σ -> tableIn σ (length σ0) t ->
  exists σ1 t1 a,
    Stateful.ensureGroup (length σ0) g σ = (Ok tt, σ1) /\
    σ0 `prefix_of` σ1 /\ tableIn σ1 (length σ0) t1 /\
    tableGroups t1 = ensureGroup (tableGroups t) g /\
    tableGet t1 g = Some (a, groupOf (tableGroups t) g).
Proof.
  intros Hpre Ht. pose proof Ht as (Hm & Hnd & Hall).
  unfold Stateful.ensureGroup, Stateful.seq at 1. rewrite (mapHas_run _ _ _ _ Hm).
  unfold ensureGroup, groupOf, map_has.
  rewrite tableEntries_get, tableGroups_get.
  destruct (tableGet t g) as [[a grp]|] eqn:Eg; simpl.
  - exists σ, t, a. auto.
  - assert (Hlt : (length σ0 < length σ)%nat) by (now apply lookup_lt_Some in Hm).
    unfold Stateful.seq, Stateful.alloc.
    assert (Hm' : (σ ++ [CArr []]) !! length σ0 = Some (CMap (tableEntries t)))
      by (rewrite lookup_app_l; auto).
    rewrite (mapSet_run _ _ _ _ _ Hm').
    exists (<[length σ0 := CMap (map_set (tableEntries t) g (VRef (length σ)))]>
              (σ ++ [CArr []])), (t ++ [(g, length σ, [])]), (length σ).
    split; [reflexivity|]. split; [|split; [|split]].
    + apply prefix_insert_ge; [now apply prefix_app_r | lia].
    + split; [|split].
      * rewrite (tableEntries_new _ _ _ Eg).
        apply list_lookup_insert_eq. rewrite length_app. simpl. lia.
      * unfold tableLocs. rewrite map_app. simpl.
        apply (Permutation_NoDup (Permutation_cons_append _ _)).
        constructor; [|assumption]. intros Hin.
        apply (tableIn_locs_lt _ _ _ _ Ht) in Hin. lia.
      * apply Forall_app. split.
        -- eapply List.Forall_impl; [|exact Hall]. intros e [Hl He].
           split; [assumption|]. rewrite list_lookup_insert_ne by lia.
           rewrite lookup_app_l; [assumption | now apply lookup_lt_Some in He].
        -- repeat constructor; simpl; [lia|].
           rewrite list_lookup_insert_ne by lia.
           now rewrite lookup_app_r, Nat.sub_diag by lia.
    + symmetry. now apply tableGroups_new.
    + now apply tableGet_app_new.
Qed.

Lemma arrayPush_sim σ t g a grp r :
  σ0 `prefix_of` σ -> tableIn σ (length σ0) t ->
  tableGet t g = Some (a, grp) ->
  exists σ1,
    Stateful.arrayPush (VRef a) r σ = (Ok tt, σ1) /\
    σ0 `prefix_of` σ1 /\ tableIn σ1 (length σ0) (tableSet t g (grp ++ [r])).
Proof.
  intros Hpre Ht Hg. pose proof Ht as (Hm & Hnd & Hall).
  pose proof (tableGet_In _ _ _ _ Hg) as Hin.
  rewrite List.Forall_forall in Hall. destruct (Hall _ Hin) as [Hlt Ha]. simpl in Hlt, Ha.
  unfold Stateful.arrayPush, Stateful.seq, Stateful.load. rewrite Ha.
  eexists. split; [reflexivity|]. split; [apply prefix_insert_ge; [assumption | lia]|].
  split; [|split].
  - rewrite tableEntries_set, list_lookup_insert_ne by lia. assumption.
  - now rewrite tableLocs_set.
  - rewrite List.Forall_forall. intros e He.
    apply (tableSet_In _ _ _ _ _ _ Hnd Hg) in He as [->|[He Hne]]; simpl.
    + split; [assumption|].
      apply list_lookup_insert_eq. now apply lookup_lt_Some in Ha.
    + destruct (Hall _ He) as [Hl Hc]. split; [assumption|].
      rewrite list_lookup_insert_ne by congruence. assumption.
Qed.

Lemma groupRecord_sim r σ t :
  In r elems -> σ0 `prefix_of` σ -> tableIn σ (length σ0) t ->
  match Stateful.groupRecord (length σ0) property r σ, toFunction σ0 property r with
  | (Ok _, σ1), Ok g =>
      σ0 `prefix_of` σ1 /\
      exists t1, tableIn σ1 (length σ0) t1 /\
        tableGroups t1
        = map_set (ensureGroup (tableGroups t) g) g (groupOf (tableGroups t) g ++ [r])
  | (Throw e, σ1), Throw e' => e = e'
  | _, _ => False
  end.
Proof.
  intros Hr Hpre Ht.
  unfold Stateful.groupRecord, Stateful.seq at 1, Stateful.call.
  rewrite (stable σ Hpre r Hr).
  destruct (toFunction σ0 property r) as [g|e]; [|reflexivity].
  unfold Stateful.seq at 1.
  destruct (ensureGroup_sim g σ t Hpre Ht) as (σ1 & t1 & a & -> & Hpre1 & Ht1 & Hg1 & Ha).
  unfold Stateful.seq at 1. pose proof Ht1 as (Hm1 & _).
  rewrite (mapGet_run _ _ _ _ Hm1), tableEntries_get, Ha.
  cbv beta iota delta [option_map fst].
  destruct (arrayPush_sim σ1 t1 g a _ r Hpre1 Ht1 Ha) as (σ2 & -> & Hpre2 & Ht2).
  split; [assumption|]. eexists. split; [exact Ht2|].
  rewrite <- tableGroups_set by congruence. now rewrite Hg1.
Qed.

Lemma groupLoop_sim rs : forall σ t,
  incl rs elems -> σ0 `prefix_of` σ -> tableIn σ (length σ0) t ->
  match Stateful.forOf rs (Stateful.groupRecord (length σ0) property) σ,
        groupLoop (toFunction σ0 property) rs (tableGroups t) with
  | (Ok _, σ1), Ok groupedObjects =>
      σ0 `prefix_of` σ1 /\
      exists t1, tableIn σ1 (length σ0) t1 /\ tableGroups t1 = groupedObjects
  | (Throw e, σ1), Throw e' => e = e'
  | _, _ => False
  end.
Proof.
  induction rs as [|r rs IH]; intros σ t Hincl Hpre Ht.
  - simpl. eauto.
  - rewrite groupLoop_cons. simpl Stateful.forOf. unfold Stateful.seq at 1.
    pose proof (groupRecord_sim r σ t (Hincl r (or_introl eq_refl)) Hpre Ht) as Hstep.
    destruct (Stateful.groupRecord (length σ0) property r σ) as [[[]|e] σ1],
             (toFunction σ0 property r) as [g|e']; simpl; try contradiction; [|assumption].
    destruct Hstep as (Hpre1 & t1 & Ht1 & <-).
    apply IH; [|assumption|assumption].
    intros x Hx. apply Hincl. now right.
Qed.
End Refine.

Section Assign.
Variables (m result : loc) (t : groupTable).

Lemma assignKey_sim key σ props res :
  tableIn σ m t -> σ !! result = Some (CObj props) -> represents σ props res ->
  tableGet t key <> None -> primitive key ->
  exists σ1 props1,
    Stateful.assignKey m result key σ = (Ok tt, σ1) /\
    tableIn σ1 m t /\ σ1 !! result = Some (CObj props1) /\
    represents σ1 props1 (assignGroup (tableGroups t) res key).
Proof.
  intros Ht Hres Hrep Hkey Hprim. pose proof Ht as (Hm & _ & Hall).
  unfold Stateful.assignKey, Stateful.seq at 1.
  rewrite (mapGet_run _ _ _ _ Hm), tableEntries_get.
  unfold assignGroup, groupOf. rewrite tableGroups_get.
  destruct (tableGet t key) as [[a g]|] eqn:Eg; [|congruence]. simpl.
  rewrite (objSet_run _ _ _ _ _ Hres), (primitive_jsToString _ _ Hprim).
  eexists _, _. split; [reflexivity|]. split; [|split].
  - destruct (tableIn_other _ _ _ _ _ Ht Hres). now apply tableIn_insert.
  - apply list_lookup_insert_eq. now apply lookup_lt_Some in Hres.
  - apply represents_insert; [|intros ?; rewrite Hres; discriminate].
    apply represents_obj_assign; [assumption|].
    apply tableGet_In in Eg. rewrite List.Forall_forall in Hall.
    apply (Hall _ Eg).
Qed.

Lemma assignLoop_sim ks : forall σ props res,
  tableIn σ m t -> σ !! result = Some (CObj props) -> represents σ props res ->
  (forall k, In k ks -> tableGet t k <> None /\ primitive k) ->
  exists σ1 props1,
    Stateful.forOf ks (Stateful.assignKey m result) σ = (Ok tt, σ1) /\
    σ1 !! result = Some (CObj props1) /\
    represents σ1 props1 (fold_left (assignGroup (tableGroups t)) ks res).
Proof.
  induction ks as [|k ks IH]; intros σ props res Ht Hres Hrep Hks.
  - exists σ, props. auto.
  - simpl. unfold Stateful.seq at 1.
    destruct (Hks k (or_introl eq_refl)) as [Hget Hprim].
    destruct (assignKey_sim k σ props res Ht Hres Hrep Hget Hprim)
      as (σ1 & props1 & -> & Ht1 & Hres1 & Hrep1).
    apply (IH σ1 props1 _ Ht1 Hres1 Hrep1).
    intros k' Hk'. apply Hks. now right.
Qed.
End Assign.

Lemma tableIn_app σ m t c : tableIn σ m t -> tableIn (σ ++ [c]) m t.
Proof.
  intros (Hm & Hnd & Hall). split; [|split; [assumption|]].
  - rewrite lookup_app_l; [assumption | now apply lookup_lt_Some in Hm].
  - eapply List.Forall_impl; [|exact Hall]. intros e [Hlt He]. split; [assumption|].
    rewrite lookup_app_l; [assumption | now apply lookup_lt_Some in He].
Qed.

Lemma primitive_sortConverts σ ks :
  (forall k, In k ks -> primitive k) -> Stateful.sortConverts σ ks = true.
Proof.
  intros H. unfold Stateful.sortConverts. apply orb_true_iff. right.
  apply forallb_forall. intros k Hk. apply primitive_convertible, H.
  now apply filter_In in Hk as [Hk _].
Qed.

(** The stateful model computes what the functional model says.  When the
    array [objects] holds [elems], the rule answers on them as it does in
    the initial store and the keys that it gives are primitive values,
    [Stateful.groupBy] raises what [groupBy] raises, or returns a new object
    that represents the result of [groupBy]. *)
Theorem groupBy_refines (σ : heap) (objects : loc) (elems : list value) (property : keyRule) :
  σ !! objects = Some (CArr elems) ->
  (forall σ', σ `prefix_of` σ' -> forall r, In r elems ->
     toFunction σ' property r = toFunction σ property r) ->
  (forall r k, In r elems -> toFunction σ property r = Ok k -> primitive k) ->
  match Stateful.groupBy objects property σ, groupBy σ elems property with
  | (Ok v, σ'), Ok res =>
      exists l props,
        v = VRef l /\ (length σ <= l)%nat /\
        σ' !! l = Some (CObj props) /\ represents σ' props res
  | (Throw e, _), Throw e' => e = e'
  | _, _ => False
  end.
Proof.
  intros Hobj Hstable Hprim. unfold Stateful.groupBy, groupBy.
  rewrite (seq_Ok _ _ σ (length σ) (σ ++ [CMap []]) eq_refl).
  set (σ1 := σ ++ [CMap []]).
  assert (Hpre1 : σ `prefix_of` σ1) by (now apply prefix_app_r).
  assert (Ht1 : tableIn σ1 (length σ) []).
  { split; [apply lookup_snoc | split; constructor]. }
  assert (Hobj1 : σ1 !! objects = Some (CArr elems)).
  { unfold σ1. rewrite lookup_app_l; [assumption | now apply lookup_lt_Some in Hobj]. }
  rewrite (seq_Ok _ _ _ _ _ (arrayElems_run _ _ _ Hobj1)).
  pose proof (groupLoop_sim σ property elems Hstable elems σ1 [] (incl_refl _) Hpre1 Ht1)
    as Hloop.
  change (tableGroups []) with (@nil (value * list value)) in Hloop.
  destruct (Stateful.forOf elems (Stateful.groupRecord (length σ) property) σ1)
    as [[[]|e] σ2] eqn:Eloop,
    (groupLoop (toFunction σ property) elems []) as [groupedObjects|e'] eqn:Epure;
    simpl in Hloop; try contradiction.
  2:{ now rewrite (seq_Throw _ _ _ _ _ Eloop). }
  rewrite (seq_Ok _ _ _ _ _ Eloop). simpl bind.
  destruct Hloop as (Hpre2 & t & Ht2 & <-).
  assert (Hkeys : forall k, In k (map_keys (tableGroups t)) -> primitive k).
  { intros k Hk. apply (groupLoop_keys _ _ _ Epure) in Hk as (r & Hr & Hk).
    exact (Hprim r k Hr Hk). }
  replace (forallb (convertible σ) (map_keys (tableGroups t))) with true.
  2:{ symmetry. apply forallb_forall. intros k Hk. apply primitive_convertible, Hkeys, Hk. }
  assert (Hlen2 : (length σ < length σ2)%nat).
  { destruct Ht2 as (Hm2 & _). now apply lookup_lt_Some in Hm2. }
  rewrite (seq_Ok _ _ σ2 (length σ2) (σ2 ++ [CObj []]) eq_refl).
  set (σ3 := σ2 ++ [CObj []]).
  pose proof (tableIn_app _ _ _ (CObj []) Ht2) as Ht3. fold σ3 in Ht3.
  pose proof Ht3 as (Hm3 & _).
  rewrite (seq_Ok _ _ _ _ _ (mapKeys_run _ _ _ Hm3)).
  rewrite (seq_Ok _ _ σ3 (length σ3) (σ3 ++ [CArr (map_keys (tableEntries t))]) eq_refl).
  set (σ4 := σ3 ++ [CArr (map_keys (tableEntries t))]).
  assert (Hk4 : σ4 !! length σ3 = Some (CArr (map_keys (tableEntries t))))
    by apply lookup_snoc.
  assert (Esort : Stateful.arraySortInPlace (length σ3) σ4
                  = (Ok tt, <[length σ3 := CArr (arraySort (map_keys (tableEntries t)))]> σ4)).
  { rewrite (arraySortInPlace_run _ _ _ Hk4), primitive_sortConverts; [reflexivity|].
    rewrite tableEntries_keys. exact Hkeys. }
  rewrite (seq_Ok _ _ _ _ _ Esort).
  set (σ5 := <[length σ3 := CArr (arraySort (map_keys (tableEntries t)))]> σ4).
  assert (Hk5 : σ5 !! length σ3 = Some (CArr (arraySort (map_keys (tableEntries t))))).
  { apply list_lookup_insert_eq. now apply lookup_lt_Some in Hk4. }
  rewrite (seq_Ok _ _ _ _ _ (arrayElems_run _ _ _ Hk5)).
  assert (Hlen3 : length σ3 = S (length σ2)) by (unfold σ3; rewrite length_app; simpl; lia).
  assert (Hres4 : σ4 !! length σ2 = Some (CObj [])).
  { unfold σ4. rewrite lookup_app_l by lia. apply lookup_snoc. }
  assert (Hres5 : σ5 !! length σ2 = Some (CObj [])).
  { unfold σ5. rewrite list_lookup_insert_ne by lia. assumption. }
  assert (Ht5 : tableIn σ5 (length σ) t).
  { unfold σ5. apply tableIn_insert; [now apply tableIn_app | lia |].
    intros Hin. apply (tableIn_locs_lt _ _ _ _ Ht2) in Hin. lia. }
  rewrite tableEntries_keys.
  destruct (assignLoop_sim (length σ) (length σ2) t
              (arraySort (map_keys (tableGroups t))) σ5 [] [] Ht5 Hres5)
    as (σ6 & props & Eloop2 & Hres6 & Hrep6).
  { constructor. }
  { intros k Hk. apply (proj1 (arraySort_In _ _)) in Hk.
    split; [|exact (Hkeys k Hk)]. apply map_get_keys in Hk.
    rewrite tableGroups_get in Hk. now destruct (tableGet t k). }
  rewrite (seq_Ok _ _ _ _ _ Eloop2). unfold Stateful.ret.
  exists (length σ2), props. repeat split; try assumption. lia.
Qed.

(** A property name is a rule of that kind when the records are objects of
    the initial store. *)
Lemma getProp_stable (σ σ' : heap) r propName :
  σ `prefix_of` σ' -> (forall l, r = VRef l -> (l < length σ)%nat) ->
  getProp σ' r propName = getProp σ r propName.
Proof.
  intros Hpre Hr. destruct r as [| |b|n|s|l]; simpl; try reflexivity.
  now rewrite <- (prefix_lookup_lt σ σ' l (Hr l eq_refl) Hpre).
Qed.

Lemma exact_primitive k : exact k -> primitive k.
Proof. intros H l ->. exact H. Qed.

(** X8.  With a field name as the rule, the program on the store and the
    function on lists agree on an array whose elements are [null],
    [undefined] or plain objects of the store, when the name is not a member
    of [Object.prototype] and the values of the field are primitive values
    that have an exact string form: both raise the same error, or the program
    returns a new object whose properties, in creation order, refer to arrays
    that hold the groups of the function. *)
Lemma groupBy_refines_field (σ : heap) (objects : loc) (elems : list value) propName :
  σ !! objects = Some (CArr elems) ->
  Forall (fun r => r = VNull \/ r = VUndefined \/ plainObject σ r) elems ->
  ~ In propName objectPrototypeNames ->
  (forall r k, In r elems -> getProp σ r propName = Ok k -> exact k) ->
  match Stateful.groupBy objects (FieldName propName) σ,
        groupBy σ elems (FieldName propName) with
  | (Ok v, σ'), Ok res =>
      exists l props,
        v = VRef l /\ (length σ <= l)%nat /\
        σ' !! l = Some (CObj props) /\ represents σ' props res
  | (Throw e, _), Throw e' => e = e'
  | _, _ => False
  end.
Proof.
  intros Hobj Hwf _ Hexact. apply groupBy_refines; [assumption| |].
  - intros σ' Hpre r Hr. simpl. apply getProp_stable; [assumption|].
    rewrite List.Forall_forall in Hwf.
    destruct (Hwf r Hr) as [->|[->|(l' & props & -> & Hl)]]; intros l [= <-].
    now apply lookup_lt_Some in Hl.
  - intros r k Hr Hk. apply exact_primitive. exact (Hexact r k Hr Hk).
Qed.

(** * More on groupBy *)

(** ** The groups and the keys of the result *)

(** X2.  No group of the result is empty.  When the derived keys are
    primitive values that have an exact string form, the result has no group
    exactly when every record has the key "__proto__": the assignment of
    that name creates no property, and every other record is in a group. *)
Theorem groupBy_groups_nonempty σ objects rule res :
  groupBy σ objects rule = Ok res ->
  (forall r k, In r objects -> toFunction σ rule r = Ok k -> exact k) ->
  (forall s g, In (s, g) (entries res) -> g <> []) /\
  (res = [] <->
   forall r, In r objects -> toFunction σ rule r = Ok (VStr "__proto__")).
Proof.
  intros H Hexact. pose proof H as Hrun.
  apply groupBy_Ok_run in Hrun as (m0 & Hm0 & _ & _).
  apply groupLoop_Ok_inv in Hm0. rewrite List.Forall_forall in Hm0.
  apply groupBy_Ok_inv in H as (m & Hm & ->). split.
  - intros s g Hin Hg. apply entries_In, defineAll_In in Hin as (k & Hk & _ & ->).
    rewrite (named_groupOf _ _ _ Hm _ Hk) in Hg.
    apply (named_keys _ _ _ Hm) in Hk as (_ & r & Hr & Hk).
    assert (Hin : In r (List.filter (inGroup (toFunction σ rule) k) objects)).
    { apply filter_In. split; [assumption|]. unfold inGroup. rewrite Hk.
      apply sameValueZero_refl. }
    now rewrite Hg in Hin.
  - split.
    + intros Hres r Hr. destruct (Hm0 r Hr) as [k Hk]. rewrite Hk. f_equal.
      apply (exact_proto k (Hexact r k Hr Hk)).
      destruct (isProto (toString k)) eqn:E; [reflexivity|]. exfalso.
      assert (Hin : In (toString k) (List.map fst (defineAll m))).
      { apply defineAll_names_In. exists k. split; [|reflexivity].
        apply (groupLoop_keys _ _ _ Hm). exists r. split; [|assumption].
        apply filter_In. split; [assumption|]. unfold named. now rewrite Hk, E. }
      now rewrite Hres in Hin.
    + intros Hall.
      assert (E : List.filter (named (toFunction σ rule)) objects = []).
      { clear -Hall. induction objects as [|r rest IH]; [reflexivity|]. simpl.
        unfold named at 1. rewrite (Hall r (or_introl eq_refl)). simpl.
        apply IH. intros r' Hr'. apply Hall. now right. }
      rewrite E in Hm. simpl in Hm. injection Hm as <-. reflexivity.
Qed.

Lemma groupBy_groups_nonempty_witness :
  (forall s g,
     In (s, g) (entries [("blue", [VRef 0%nat; VRef 2%nat]); ("red", [VRef 1%nat])]) ->
     g <> []) /\
  ([("blue", [VRef 0%nat; VRef 2%nat]); ("red", [VRef 1%nat])] = []
   <-> forall r, In r [VRef 0%nat; VRef 1%nat; VRef 2%nat] ->
         toFunction Examples.teams (FieldName "team") r = Ok (VStr "__proto__")).
Proof.
  apply (groupBy_groups_nonempty Examples.teams [VRef 0%nat; VRef 1%nat; VRef 2%nat]
           (FieldName "team")).
  - reflexivity.
  - intros r k [<-|[<-|[<-|[]]]] Hk; vm_compute in Hk; injection Hk as <-; exact I.
Defined.

Lemma stableSort_map {A B} (f : A -> B) (le : B -> B -> bool) l :
  List.map f (stableSort (fun x y => le (f x) (f y)) l) = stableSort le (List.map f l).
Proof.
  induction l as [|x l IH]; simpl; [reflexivity|]. rewrite <- IH.
  generalize (stableSort (fun x y => le (f x) (f y)) l). intros l'.
  induction l' as [|y l' IH']; simpl; [reflexivity|].
  destruct (le (f x) (f y)); simpl; [reflexivity | now rewrite IH'].
Qed.

Lemma keys_enumerate {V} (o : list (string * V)) : keys o = enumerate (List.map fst o).
Proof.
  unfold keys, entries, enumerate. rewrite map_app. f_equal.
  - rewrite <- (filter_map_comm fst isArrayIndex).
    apply (stableSort_map fst (fun s t => (indexValue s <=? indexValue t)%N)).
  - apply (filter_map_comm fst (fun s => negb (isArrayIndex s))).
Qed.

Lemma string_ltb_trans a b c :
  String.ltb a b = true -> String.ltb b c = true -> String.ltb a c = true.
Proof.
  unfold String.ltb.
  destruct (String.compare a b) eqn:E1; try discriminate.
  destruct (String.compare b c) eqn:E2; try discriminate.
  now rewrite (string_compare_lt_trans _ _ _ E1 E2).
Qed.

(** The names of the properties of the result, in creation order, are
    determined by the set of the keys of the Map. *)
Lemma defineAll_names_set m1 m2 :
  (forall k, In k (map_keys m1) <-> In k (map_keys m2)) ->
  List.map fst (defineAll m1) = List.map fst (defineAll m2).
Proof.
  intros Hkeys. rewrite !defineAll_names.
  assert (definedNames m1 = definedNames m2) as ->.
  { apply (sorted_unique (fun a b => String.ltb a b = true)).
    - intros x. now rewrite string_ltb_irrefl.
    - apply string_ltb_trans.
    - apply definedNames_sorted.
    - apply definedNames_sorted.
    - intros s. rewrite !definedNames_In.
      split; intros (k & Hk & Hr); exists k; (split; [now apply Hkeys | assumption]). }
  assert (existsb isUndefined (map_keys m1) = existsb isUndefined (map_keys m2)) as ->;
    [|reflexivity].
  apply eq_true_iff_eq. rewrite !existsb_exists.
  split; intros (x & Hx & Hu); exists x; (split; [now apply Hkeys | assumption]).
Qed.




(** ** The example of the documentation *)

Lemma teams_distinctNames :
  distinctNames (toFunction Examples.teams (FieldName "team"))
    [VRef 0%nat; VRef 1%nat; VRef 2%nat].
Proof.
  intros r1 r2 k1 k2 [<-|[<-|[<-|[]]]] [<-|[<-|[<-|[]]]] H1 H2 Hs;
    vm_compute in H1, H2; injection H1 as <-; injection H2 as <-;
    first [reflexivity | discriminate Hs].
Qed.

Lemma teams_exact r k :
  In r [VRef 0%nat; VRef 1%nat; VRef 2%nat] ->
  toFunction Examples.teams (FieldName "team") r = Ok k -> exact k.
Proof.
  intros [<-|[<-|[<-|[]]]] Hk; vm_compute in Hk; injection Hk as <-; exact I.
Qed.





Lemma groupBy_refines_field_witness :
  match Stateful.groupBy 3%nat (FieldName "team")
          (Examples.teams ++ [CArr [VRef 0%nat; VRef 1%nat; VRef 2%nat]]),
        groupBy (Examples.teams ++ [CArr [VRef 0%nat; VRef 1%nat; VRef 2%nat]])
          [VRef 0%nat; VRef 1%nat; VRef 2%nat] (FieldName "team") with
  | (Ok v, σ'), Ok res =>
      exists l props,
        v = VRef l /\
        (length (Examples.teams ++ [CArr [VRef 0%nat; VRef 1%nat; VRef 2%nat]]) <= l)%nat /\
        σ' !! l = Some (CObj props) /\ represents σ' props res
  | (Throw e, _), Throw e' => e = e'
  | _, _ => False
  end.
Proof.
  apply (groupBy_refines_field
           (Examples.teams ++ [CArr [VRef 0%nat; VRef 1%nat; VRef 2%nat]]) 3%nat
           [VRef 0%nat; VRef 1%nat; VRef 2%nat] "team").
  - reflexivity.
  - apply List.Forall_forall.
    intros r [<-|[<-|[<-|[]]]]; right; right; eexists _, _; split; reflexivity.
  - simpl. intuition discriminate.
  - intros r k [<-|[<-|[<-|[]]]] Hk; vm_compute in Hk; injection Hk as <-; exact I.
Defined.

(** ** The groups of the result are new arrays *)

Lemma assignLoop_above (σ0 : heap) (m result : loc) es ks : forall σ props,
  m <> result ->
  σ !! m = Some (CMap es) -> groupsAbove σ0 es ->
  σ !! result = Some (CObj props) ->
  Forall (fun p => exists a, snd p = VRef a /\ (length σ0 < a)%nat) props ->
  (forall k, In k ks -> map_get es k <> None) ->
  match Stateful.forOf ks (Stateful.assignKey m result) σ with
  | (Ok _, σ1) =>
      exists props1,
        σ1 !! result = Some (CObj props1) /\
        Forall (fun p => exists a, snd p = VRef a /\ (length σ0 < a)%nat) props1
  | (Throw _, _) => True
  end.
Proof.
  intros σ props Hne. revert σ props.
  induction ks as [|k ks IH]; intros σ props Hm Hes Hres Hprops Hks.
  - exists props. auto.
  - simpl. unfold Stateful.seq at 1. unfold Stateful.assignKey, Stateful.seq at 1.
    rewrite (mapGet_run _ _ _ _ Hm).
    destruct (map_get es k) as [v|] eqn:Ev; [|now destruct (Hks k (or_introl eq_refl))].
    rewrite (objSet_run _ _ _ _ _ Hres).
    destruct (jsToString σ k) as [name|e]; [|exact I].
    apply (IH _ (obj_assign props (toString k) v)).
    + now rewrite list_lookup_insert_ne by auto.
    + assumption.
    + apply list_lookup_insert_eq. now apply lookup_lt_Some in Hres.
    + apply List.Forall_forall. intros [s w] Hin.
      apply obj_assign_In in Hin as [[= -> ->]|Hin].
      * apply map_get_In in Ev. unfold groupsAbove in Hes.
        rewrite List.Forall_forall in Hes. apply (Hes _ Ev).
      * rewrite List.Forall_forall in Hprops. apply (Hprops _ Hin).
    + intros k' Hk'. apply Hks. now right.
Qed.

(** X9.  Every property of the object that the program returns refers to
    an object that the call has allocated: no group is the array of the
    records or any other object that was in the store before the call. *)
Theorem groupBy_groups_fresh (objects : loc) (property : keyRule) (σ σ' : heap) v :
  Stateful.groupBy objects property σ = (Ok v, σ') ->
  exists l props,
    v = VRef l /\ σ' !! l = Some (CObj props) /\
    Forall (fun p => exists a, snd p = VRef a /\ (length σ < a)%nat) props.
Proof.
  unfold Stateful.groupBy.
  rewrite (seq_Ok _ _ σ (length σ) (σ ++ [CMap []]) eq_refl).
  set (σ1 := σ ++ [CMap []]).
  assert (Hpre1 : σ `prefix_of` σ1) by (now apply prefix_app_r).
  assert (Hinv1 : mapInv σ σ1).
  { split; [assumption|]. exists []. split; [apply lookup_snoc | constructor]. }
  destruct (arrayElems_cases objects σ1) as [(elems & _ & E)|(e & E)].
  2:{ rewrite (seq_Throw _ _ _ _ _ E). discriminate. }
  rewrite (seq_Ok _ _ _ _ _ E).
  pose proof (triple_forOf (mapInv σ) (Stateful.groupRecord (length σ) property) _ elems
                (groupRecord_frame σ property) σ1 Hinv1) as Hloop.
  destruct (Stateful.forOf elems (Stateful.groupRecord (length σ) property) σ1)
    as [[[]|e] σ2] eqn:Eloop.
  2:{ rewrite (seq_Throw _ _ _ _ _ Eloop). discriminate. }
  rewrite (seq_Ok _ _ _ _ _ Eloop).
  destruct Hloop as (Hpre2 & es & Hm2 & Hes).
  assert (Hlen2 : (length σ < length σ2)%nat) by (now apply lookup_lt_Some in Hm2).
  rewrite (seq_Ok _ _ σ2 (length σ2) (σ2 ++ [CObj []]) eq_refl).
  set (σ3 := σ2 ++ [CObj []]).
  assert (Hlen3 : length σ3 = S (length σ2)) by (unfold σ3; rewrite length_app; simpl; lia).
  assert (Hm3 : σ3 !! length σ = Some (CMap es)) by (unfold σ3; now rewrite lookup_app_l).
  rewrite (seq_Ok _ _ _ _ _ (mapKeys_run _ _ _ Hm3)).
  rewrite (seq_Ok _ _ σ3 (length σ3) (σ3 ++ [CArr (map_keys es)]) eq_refl).
  set (σ4 := σ3 ++ [CArr (map_keys es)]).
  assert (Hk4 : σ4 !! length σ3 = Some (CArr (map_keys es))) by apply lookup_snoc.
  pose proof (arraySortInPlace_run _ _ _ Hk4) as Esort.
  destruct (Stateful.sortConverts σ4 (map_keys es)).
  2:{ rewrite (seq_Throw _ _ _ _ _ Esort). discriminate. }
  rewrite (seq_Ok _ _ _ _ _ Esort).
  set (σ5 := <[length σ3 := CArr (arraySort (map_keys es))]> σ4).
  assert (Hk5 : σ5 !! length σ3 = Some (CArr (arraySort (map_keys es)))).
  { apply list_lookup_insert_eq. now apply lookup_lt_Some in Hk4. }
  rewrite (seq_Ok _ _ _ _ _ (arrayElems_run _ _ _ Hk5)).
  assert (Hm5 : σ5 !! length σ = Some (CMap es)).
  { unfold σ5, σ4. rewrite list_lookup_insert_ne by lia. now rewrite lookup_app_l by lia. }
  assert (Hres5 : σ5 !! length σ2 = Some (CObj [])).
  { unfold σ5, σ4. rewrite list_lookup_insert_ne by lia.
    rewrite lookup_app_l by lia. apply lookup_snoc. }
  assert (Habove := assignLoop_above σ (length σ) (length σ2) es
                      (arraySort (map_keys es)) σ5 []).
  destruct (Stateful.forOf (arraySort (map_keys es))
              (Stateful.assignKey (length σ) (length σ2)) σ5) as [[[]|e] σ6] eqn:Eloop2.
  2:{ rewrite (seq_Throw _ _ _ _ _ Eloop2). discriminate. }
  destruct Habove as (props & Hres6 & Hprops); try assumption.
  { lia. }
  { constructor. }
  { intros k Hk. now apply arraySort_In, map_get_keys in Hk. }
  rewrite (seq_Ok _ _ _ _ _ Eloop2). unfold Stateful.ret. intros [= <- <-].
  exists (length σ2), props. auto.
Qed.

Lemma groupBy_groups_fresh_witness :
  exists l props,
    VRef 7%nat = VRef l /\
    (Examples.teams ++
     [ CArr [VRef 0%nat; VRef 1%nat; VRef 2%nat];
       CMap [(VStr "blue", VRef 5%nat); (VStr "red", VRef 6%nat)];
       CArr [VRef 0%nat; VRef 2%nat];
       CArr [VRef 1%nat];
       CObj [("blue", VRef 5%nat); ("red", VRef 6%nat)];
       CArr [VStr "blue"; VStr "red"] ]) !! l = Some (CObj props) /\
    Forall (fun p => exists a,
              snd p = VRef a /\
              (length (Examples.teams ++ [CArr [VRef 0%nat; VRef 1%nat; VRef 2%nat]]) < a)%nat)
      props.
Proof.
  apply (groupBy_groups_fresh 3%nat (FieldName "team")
           (Examples.teams ++ [CArr [VRef 0%nat; VRef 1%nat; VRef 2%nat]])).
  reflexivity.
Defined.

(** * The page *)

(** ** The request URLs *)

Ltac each_ascii c := destruct c as [[] [] [] [] [] [] [] []].

Lemma decodeHead_encodeChar c rest :
  decodeHead (encodeChar c ++ rest)%string = Some (c, rest).
Proof. each_ascii c; reflexivity. Qed.

Lemma encodeChar_nonempty c rest : (encodeChar c ++ rest)%string <> EmptyString.
Proof.
  intros H. pose proof (decodeHead_encodeChar c rest) as Hd. rewrite H in Hd. discriminate.
Qed.

Lemma formEncode_inj s t : formEncode s = formEncode t -> s = t.
Proof.
  revert t. induction s as [|c s IH]; intros [|d t] H; simpl in H.
  - reflexivity.
  - symmetry in H. now apply encodeChar_nonempty in H.
  - now apply encodeChar_nonempty in H.
  - pose proof (decodeHead_encodeChar c (formEncode s)) as Hc.
    rewrite H, decodeHead_encodeChar in Hc. injection Hc as -> Hs.
    f_equal. apply IH. now symmetry.
Qed.

Lemma chars_app s t : chars (s ++ t)%string = chars s ++ chars t.
Proof. induction s as [|c s IH]; simpl; [reflexivity | now rewrite IH]. Qed.

Lemma encodeChar_safe c : forallb isQuerySafe (chars (encodeChar c)) = true.
Proof. each_ascii c; reflexivity. Qed.

Lemma formEncode_safe s : forallb isQuerySafe (chars (formEncode s)) = true.
Proof.
  induction s as [|c s IH]; simpl; [reflexivity|].
  now rewrite chars_app, forallb_app, encodeChar_safe, IH.
Qed.

Lemma string_app_inv_head (s t u : string) : (s ++ t)%string = (s ++ u)%string -> t = u.
Proof. induction s as [|c s IH]; simpl; intros H; [assumption|]. injection H as H. auto. Qed.

(** X10.  The two URLs do not depend on the argument they are called with,
    and each determines the word of the input field: two calls give the same
    URL exactly when the field holds the same word. *)
Theorem datamuse_url_determines_word p1 p2 x y :
  (getDatamuseRhymeUrl p1 x = getDatamuseRhymeUrl p2 y <-> wordInput p1 = wordInput p2) /\
  (getDatamuseSimilarToUrl p1 x = getDatamuseSimilarToUrl p2 y <-> wordInput p1 = wordInput p2).
Proof.
  unfold getDatamuseRhymeUrl, getDatamuseSimilarToUrl. split; split.
  - intros H. apply string_app_inv_head in H. simpl in H. injection H as H.
    now apply formEncode_inj.
  - now intros ->.
  - intros H. apply string_app_inv_head in H. simpl in H. injection H as H.
    now apply formEncode_inj.
  - now intros ->.
Qed.

(** X11.  Each URL is the address of the service followed by one parameter,
    whose value is made of ASCII letters and digits and of * - . _ + % only:
    whatever the field holds, the query has no space, no further & or = and
    no #. *)
Theorem datamuse_url_query_safe p x :
  exists v,
    getDatamuseRhymeUrl p x = ("https://api.datamuse.com/words?rel_rhy=" ++ v)%string /\
    getDatamuseSimilarToUrl p x = ("https://api.datamuse.com/words?ml=" ++ v)%string /\
    forallb isQuerySafe (chars v) = true.
Proof.
  exists (formEncode (wordInput p)). repeat split. apply formEncode_safe.
Qed.

Lemma encodeChar_plain c :
  isAlnum c || (N_of_ascii c =? 32)%N = true ->
  encodeChar c = String (if (N_of_ascii c =? 32)%N then "+"%char else c) EmptyString.
Proof. each_ascii c; intros H; try discriminate H; reflexivity. Qed.

(** X12.  A word of ASCII letters, digits and spaces is put in the URL as it
    is, with + for each space. *)
Theorem datamuse_url_plain_word p x :
  forallb (fun c => isAlnum c || (N_of_ascii c =? 32)%N) (chars (wordInput p)) = true ->
  getDatamuseRhymeUrl p x
  = ("https://api.datamuse.com/words?rel_rhy=" ++ plusForSpace (wordInput p))%string /\
  getDatamuseSimilarToUrl p x
  = ("https://api.datamuse.com/words?ml=" ++ plusForSpace (wordInput p))%string.
Proof.
  intros H.
  assert (Henc : formEncode (wordInput p) = plusForSpace (wordInput p)).
  { induction (wordInput p) as [|c s IH]; simpl in *; [reflexivity|].
    apply andb_prop in H as [Hc Hs]. rewrite (encodeChar_plain c Hc), (IH Hs). reflexivity. }
  unfold getDatamuseRhymeUrl, getDatamuseSimilarToUrl. simpl. now rewrite Henc.
Qed.

Lemma datamuse_url_plain_word_witness :
  getDatamuseRhymeUrl Pages.iceCream VUndefined
  = "https://api.datamuse.com/words?rel_rhy=ice+cream" /\
  getDatamuseSimilarToUrl Pages.iceCream VUndefined
  = "https://api.datamuse.com/words?ml=ice+cream".
Proof. apply (datamuse_url_plain_word Pages.iceCream VUndefined). reflexivity. Defined.

(** ** Saved words *)

Lemma string_app_cons c (s t : string) : (String c s ++ t)%string = String c (s ++ t)%string.
Proof. reflexivity. Qed.

Lemma string_app_nil_r (s : string) : (s ++ EmptyString)%string = s.
Proof. induction s as [|c s IH]; [reflexivity|]. now rewrite string_app_cons, IH. Qed.

Lemma string_app_assoc (s t u : string) : ((s ++ t) ++ u)%string = (s ++ t ++ u)%string.
Proof. induction s as [|c s IH]; [reflexivity|]. now rewrite !string_app_cons, IH. Qed.

Lemma saveAll_snoc ws w p : saveAll (ws ++ [w]) p = addToSavedWords w (saveAll ws p).
Proof. unfold saveAll. now rewrite fold_left_app. Qed.

Lemma addToSavedWords_array w p :
  savedWordsArray (addToSavedWords w p) = savedWordsArray p ++ [w].
Proof. reflexivity. Qed.

Lemma addToSavedWords_display w p :
  savedWords (addToSavedWords w p)
  = match length (savedWordsArray p) with
    | 0%nat => [Html "(none)"]
    | 1%nat => [Text (toString w)]
    | _ => savedWords p ++ [Text (", " ++ toString w)%string]
    end.
Proof. unfold addToSavedWords. simpl. now destruct (length _) as [|[|n]]. Qed.

Lemma saveAll_state p w0 ws :
  savedWordsArray p = [] ->
  savedWordsArray (saveAll ws (addToSavedWords w0 p)) = w0 :: ws /\
  savedWords (saveAll ws (addToSavedWords w0 p)) = savedDisplay ws.
Proof.
  intros Hp. induction ws as [|w ws [IHa IHd]] using rev_ind.
  - unfold saveAll. cbn [fold_left]. rewrite addToSavedWords_array, addToSavedWords_display, Hp. auto.
  - rewrite saveAll_snoc, addToSavedWords_array, addToSavedWords_display, IHa, IHd.
    split; [reflexivity|].
    destruct ws as [|w1 ws]; [reflexivity|].
    cbn [length]. unfold savedDisplay. cbn [app]. now rewrite map_app.
Qed.

Lemma textContent_separated ws :
  textContent (List.map (fun w => Text (", " ++ toString w)%string) ws)
  = Some (String.concat EmptyString (List.map (fun w => (", " ++ toString w)%string) ws)).
Proof.
  induction ws as [|w ws IH]; simpl; [reflexivity|]. rewrite IH. simpl.
  destruct ws; simpl; [|reflexivity].
  now rewrite string_app_nil_r.
Qed.

Lemma concat_separated (x : string) (ws : list string) :
  String.concat ", " (x :: ws)
  = (x ++ String.concat EmptyString (List.map (fun w => (", " ++ w)%string) ws))%string.
Proof.
  revert x. induction ws as [|w ws IH]; intros x.
  - simpl. now rewrite string_app_nil_r.
  - change (String.concat ", " (x :: w :: ws))
      with (x ++ ", " ++ String.concat ", " (w :: ws))%string.
    rewrite IH. simpl. destruct ws; simpl; [now rewrite !string_app_nil_r|].
    now rewrite string_app_assoc.
Qed.

(** X13.  After the call of line 122 and the saves of the words [ws], the
    array holds the argument of the first call followed by [ws], and the
    element shows (none) when nothing was saved, and else the words of [ws]
    in order, each after the first preceded by a comma and a space: the
    argument of the first call is stored and never shown, and the text reads
    as the words joined by a comma and a space. *)
Theorem addToSavedWords_display_after p w0 ws :
  savedWordsArray p = [] ->
  savedWordsArray (saveAll ws (addToSavedWords w0 p)) = w0 :: ws /\
  savedWords (saveAll ws (addToSavedWords w0 p))
  = match ws with
    | [] => [Html "(none)"]
    | w :: rest =>
        Text (toString w) :: List.map (fun w => Text (", " ++ toString w)%string) rest
    end /\
  (ws <> [] ->
   textContent (savedWords (saveAll ws (addToSavedWords w0 p)))
   = Some (String.concat ", " (List.map toString ws))).
Proof.
  intros Hp. destruct (saveAll_state p w0 ws Hp) as [Ha Hd].
  split; [assumption|]. split; [assumption|].
  intros Hne. rewrite Hd. destruct ws as [|w ws]; [contradiction|].
  cbn [savedDisplay textContent List.map]. rewrite textContent_separated.
  cbn [option_map]. rewrite concat_separated. f_equal. f_equal.
  now rewrite map_map.
Qed.

Lemma addToSavedWords_display_after_witness :
  savedWordsArray (saveAll [VStr "cat"; VStr "hat"] (addToSavedWords VUndefined (Pages.start EmptyString)))
  = [VUndefined; VStr "cat"; VStr "hat"] /\
  savedWords (saveAll [VStr "cat"; VStr "hat"] (addToSavedWords VUndefined (Pages.start EmptyString)))
  = [Text "cat"; Text ", hat"] /\
  ([VStr "cat"; VStr "hat"] <> [] ->
   textContent
     (savedWords (saveAll [VStr "cat"; VStr "hat"] (addToSavedWords VUndefined (Pages.start EmptyString))))
   = Some "cat, hat").
Proof.
  apply (addToSavedWords_display_after (Pages.start EmptyString) VUndefined [VStr "cat"; VStr "hat"]).
  reflexivity.
Defined.

(** ** The callbacks of the requests *)

Lemma getProp_nullish σ r propName e :
  getProp σ r propName = Throw e -> ~ notNullish r.
Proof.
  intros H [Hu Hn]. destruct (getProp_total σ r propName Hu Hn) as [k Hk]. congruence.
Qed.

Lemma getProp_Ok_notNullish σ r propName k :
  getProp σ r propName = Ok k -> notNullish r.
Proof. intros H. split; intros ->; discriminate H. Qed.

Lemma notNullish_dec r : {notNullish r} + {~ notNullish r}.
Proof.
  destruct r; try (left; split; discriminate); right; intros [Hu Hn]; congruence.
Qed.

(** A list of values is free of [null] and [undefined], or has a first
    element that is one of them. *)
Lemma first_nullish (l : list value) :
  Forall notNullish l \/
  exists pre r post, l = pre ++ r :: post /\ Forall notNullish pre /\ ~ notNullish r.
Proof.
  induction l as [|x l [IH|(pre & r & post & -> & Hpre & Hr)]].
  - left. constructor.
  - destruct (notNullish_dec x) as [Hx|Hx].
    + left. now constructor.
    + right. exists [], x, l. repeat split; [constructor | assumption].
  - destruct (notNullish_dec x) as [Hx|Hx].
    + right. exists (x :: pre), r, post. repeat split; [now constructor | assumption].
    + right. exists [], x, (pre ++ r :: post). repeat split; [constructor | assumption].
Qed.

Lemma shown_notNullish σ r : shown σ r -> notNullish r.
Proof.
  intros [s H]. unfold wordString in H.
  destruct (getProp σ r "word") as [w|e] eqn:E; [|discriminate H].
  now apply getProp_Ok_notNullish in E.
Qed.

Lemma itemNode_shown σ item s :
  wordString σ item = Ok s -> itemNode σ item = Html (listItem s).
Proof. intros H. unfold itemNode. now rewrite H. Qed.

(** A word that is a primitive value is shown by its string form. *)
Lemma wordString_primitive σ r w :
  getProp σ r "word" = Ok w -> primitive w -> wordString σ r = Ok (toString w).
Proof. intros Hw Hp. unfold wordString. rewrite Hw. simpl. now apply primitive_jsToString. Qed.

(** The elements of a list can all be listed, or there is a first one that
    cannot. *)
Lemma first_failing σ (l : list value) :
  Forall (shown σ) l \/
  exists pre r post e,
    l = pre ++ r :: post /\ Forall (shown σ) pre /\ wordString σ r = Throw e.
Proof.
  induction l as [|x l [IH|(pre & r & post & e & -> & Hpre & Hr)]].
  - left. constructor.
  - destruct (wordString σ x) as [s|e] eqn:E.
    + left. constructor; [now exists s | assumption].
    + right. exists [], x, l, e. repeat split; [constructor | assumption].
  - destruct (wordString σ x) as [s|e'] eqn:E.
    + right. exists (x :: pre), r, post, e.
      repeat split; [constructor; [now exists s | assumption] | assumption].
    + right. exists [], x, (pre ++ r :: post), e'. repeat split; [constructor | assumption].
Qed.

(** The items of a list are written in order, up to the first that cannot
    be listed. *)
Lemma forEachItem_all σ items : forall p,
  Forall (shown σ) items ->
  forEachItem σ items p
  = (setOutput p (outputDescription p) (wordOutput p ++ List.map (itemNode σ) items), None).
Proof.
  induction items as [|item items IH]; intros p Hall.
  - simpl. rewrite app_nil_r. now destruct p.
  - inversion Hall as [|? ? [s Hs] Hrest]; subst. cbn [forEachItem].
    change (bind (getProp σ item "word") (jsToString σ)) with (wordString σ item).
    rewrite Hs, (IH _ Hrest). cbn [List.map]. rewrite (itemNode_shown _ _ _ Hs).
    unfold setOutput, addInnerHTML. cbn [outputDescription wordOutput wordInput
                                          savedWords savedWordsArray].
    now rewrite <- app_assoc.
Qed.

Lemma forEachItem_stops σ pre r post e : forall p,
  Forall (shown σ) pre ->
  wordString σ r = Throw e ->
  forEachItem σ (pre ++ r :: post) p
  = (setOutput p (outputDescription p) (wordOutput p ++ List.map (itemNode σ) pre), Some e).
Proof.
  induction pre as [|item pre IH]; intros p Hall He.
  - cbn [forEachItem app List.map].
    change (bind (getProp σ r "word") (jsToString σ)) with (wordString σ r).
    rewrite He, app_nil_r. now destruct p.
  - inversion Hall as [|? ? [s Hs] Hrest]; subst. cbn [forEachItem app].
    change (bind (getProp σ item "word") (jsToString σ)) with (wordString σ item).
    rewrite Hs, (IH _ Hrest He). cbn [List.map]. rewrite (itemNode_shown _ _ _ Hs).
    unfold setOutput, addInnerHTML. cbn [outputDescription wordOutput wordInput
                                          savedWords savedWordsArray].
    now rewrite <- app_assoc.
Qed.

Lemma forEachGroup_all σ groups : forall p,
  Forall (fun g => Forall (shown σ) (snd g)) groups ->
  forEachGroup σ groups p
  = (setOutput p
       (match groups with
        | [] => outputDescription p
        | _ :: _ => [Html ("Words that rhyme with " ++ wordInput p)%string]
        end)
       (wordOutput p ++ flat_map (groupNodes σ) groups), None).
Proof.
  induction groups as [|[key items] groups IH]; intros p Hall.
  - simpl. rewrite app_nil_r. now destruct p.
  - inversion Hall as [|? ? Hitems Hrest]; subst. cbn [forEachGroup].
    rewrite (forEachItem_all σ items _ Hitems), (IH _ Hrest).
    unfold setOutput, addInnerHTML, groupNodes, headingNode.
    cbn [outputDescription wordOutput wordInput savedWords savedWordsArray flat_map fst snd].
    rewrite <- !app_assoc. cbn [app]. now destruct groups.
Qed.

(** When the loop over the groups raises, an item of a group cannot be
    listed, and the description has been set. *)
Lemma forEachGroup_error σ groups : forall p p' e,
  forEachGroup σ groups p = (p', Some e) ->
  outputDescription p' = [Html ("Words that rhyme with " ++ wordInput p)%string] /\
  exists g r, In g groups /\ In r (snd g) /\ wordString σ r = Throw e.
Proof.
  induction groups as [|[key items] groups IH]; intros p p' e H.
  - discriminate H.
  - cbn [forEachGroup] in H.
    destruct (first_failing σ items) as [Hall|(pre & r & post & e' & -> & Hpre & He')].
    + rewrite (forEachItem_all σ items _ Hall) in H.
      apply IH in H as (Hd & g & r & Hg & Hr & He). split; [exact Hd|].
      exists g, r. split; [now right | auto].
    + rewrite (forEachItem_stops σ pre r post e' _ Hpre He') in H.
      injection H as <- <-. split; [reflexivity|].
      exists (key, pre ++ r :: post), r. split; [now left|].
      split; [apply in_elt | assumption].
Qed.

Lemma forEachGroup_None σ groups : forall p,
  snd (forEachGroup σ groups p) = None ->
  Forall (fun g => Forall (shown σ) (snd g)) groups.
Proof.
  induction groups as [|[key items] groups IH]; intros p H; [constructor|].
  cbn [forEachGroup] in H.
  destruct (first_failing σ items) as [Hall|(pre & r & post & e' & -> & Hpre & He')].
  - rewrite (forEachItem_all σ items _ Hall) in H. constructor; [assumption|].
    now apply IH in H.
  - rewrite (forEachItem_stops σ pre r post e' _ Hpre He') in H. discriminate H.
Qed.

Lemma shown_groups (σ : heap) (res : list (string * list value)) :
  Forall (shown σ) (flatten res) <-> Forall (fun g => Forall (shown σ) (snd g)) (entries res).
Proof.
  unfold flatten. induction (entries res) as [|[s g] gs IH]; simpl.
  - split; constructor.
  - rewrite Forall_app, IH. split.
    + intros [Hg Hgs]. now constructor.
    + intros H. inversion H; subst. auto.
Qed.

(** *** The groups of the answer *)

Lemma groupBy_field_notNullish σ elems propName res :
  groupBy σ elems (FieldName propName) = Ok res -> Forall notNullish elems.
Proof.
  intros H. apply groupBy_Ok_run in H as (m & Hm & _ & _).
  apply groupLoop_Ok_inv in Hm. revert Hm. apply List.Forall_impl.
  intros r [k Hk]. simpl in Hk. now apply getProp_Ok_notNullish in Hk.
Qed.

Lemma groupBy_field_total σ elems propName :
  Forall notNullish elems ->
  (forall r k, In r elems -> getProp σ r propName = Ok k -> primitive k) ->
  exists res, groupBy σ elems (FieldName propName) = Ok res.
Proof.
  intros Hall Hprim.
  destruct (groupLoop_total (toFunction σ (FieldName propName)) elems []) as (m & Hm).
  - revert Hall. apply List.Forall_impl. intros r [Hu Hn]. now apply getProp_total.
  - exists (buildResult m). apply groupBy_Ok_run. exists m.
    split; [assumption|]. split; [|reflexivity].
    apply forallb_forall. intros k Hk.
    apply (groupLoop_keys _ _ _ Hm) in Hk as (r & Hr & Hk).
    apply primitive_convertible. exact (Hprim r k Hr Hk).
Qed.

Lemma groupBy_field_throw σ pre r post propName e :
  Forall notNullish pre ->
  getProp σ r propName = Throw e ->
  groupBy σ (pre ++ r :: post) (FieldName propName) = Throw e.
Proof.
  intros Hpre He. unfold groupBy.
  rewrite (groupLoop_throw (toFunction σ (FieldName propName)) pre r post e []);
    [reflexivity | | assumption].
  revert Hpre. apply List.Forall_impl. intros x [Hu Hn]. now apply getProp_total.
Qed.

Lemma getProp_throws σ r propName :
  ~ notNullish r -> exists e, getProp σ r propName = Throw e.
Proof.
  intros H. destruct (getProp σ r propName) as [k|e] eqn:E; [|now exists e].
  now apply getProp_Ok_notNullish in E.
Qed.

(** The items of the groups are elements of the answer. *)
Lemma groupBy_group_items σ objects rule res s g r :
  groupBy σ objects rule = Ok res -> In (s, g) (entries res) -> In r g -> In r objects.
Proof.
  intros H Hin Hr. apply groupBy_Ok_inv in H as (m & Hm & ->).
  apply entries_In, defineAll_In in Hin as (k & Hk & _ & ->).
  rewrite (named_groupOf _ _ _ Hm _ Hk) in Hr. now apply filter_In in Hr as [Hr _].
Qed.

Lemma safeInteger_exact k : safeInteger k -> exact k.
Proof. intros (n & -> & Hn). exact Hn. Qed.

(** With numbers as keys the groups hold every element once. *)
Lemma groupBy_numbers_perm σ elems propName res :
  groupBy σ elems (FieldName propName) = Ok res ->
  (forall r k, In r elems -> getProp σ r propName = Ok k -> safeInteger k) ->
  Permutation (flatten res) elems.
Proof.
  intros H Hnum. apply groupBy_Ok_inv in H as (m & Hm & ->).
  rewrite named_all in Hm.
  2:{ intros r k Hr Hk. destruct (Hnum r k Hr Hk) as (n & -> & _).
      apply toString_num_proto. }
  apply (flatten_perm (toFunction σ (FieldName propName))); [assumption|].
  intros r1 r2 k1 k2 H1 H2 Hk1 Hk2 Hs. simpl in Hk1, Hk2.
  destruct (Hnum _ _ H1 Hk1) as (n1 & -> & _). destruct (Hnum _ _ H2 Hk2) as (n2 & -> & _).
  f_equal. now apply toString_num_inj.
Qed.

(** *** The callback of the rhyme request *)

Lemma holds_unique σ data elems elems' :
  holds σ data elems -> holds σ data elems' -> elems' = elems.
Proof. intros (l & -> & Hl) (l' & [= <-] & Hl'). congruence. Qed.

(** On an array the callback tests its length and groups its elements. *)
Lemma rhymeCallback_array σ l elems p :
  σ !! l = Some (CArr elems) ->
  rhymeCallback σ (VRef l) p
  = match elems with
    | [] => (setOutput p [] [Html "(no results)"], None)
    | _ :: _ =>
        match groupBy σ elems (FieldName "numSyllables") with
        | Ok wordSyllables => forEachGroup σ (entries wordSyllables) (cleared p)
        | Throw e => (cleared p, Some e)
        end
    end.
Proof.
  intros H. unfold rhymeCallback, iterate, getProp. rewrite H.
  destruct elems; reflexivity.
Qed.

Lemma rhymeCallback_run σ l elems p res :
  σ !! l = Some (CArr elems) -> elems <> [] ->
  groupBy σ elems (FieldName "numSyllables") = Ok res ->
  Forall (shown σ) (flatten res) -> flatten res <> [] ->
  rhymeCallback σ (VRef l) p
  = (setOutput p [Html ("Words that rhyme with " ++ wordInput p)%string]
       (flat_map (groupNodes σ) (entries res)), None).
Proof.
  intros Hl Hne Hres Hshown Hflat. rewrite (rhymeCallback_array σ l elems p Hl).
  destruct elems as [|x elems]; [contradiction|]. rewrite Hres.
  rewrite (forEachGroup_all σ _ _ (proj1 (shown_groups σ res) Hshown)).
  unfold cleared, setOutput. cbn [outputDescription wordOutput wordInput
                                   savedWords savedWordsArray app].
  unfold flatten in Hflat. destruct (entries res) as [|g gs]; [now destruct Hflat | reflexivity].
Qed.

(** X14.  On an answer that is [null] or an array whose elements have
    integers below 2^53 as syllable counts, the callback of the rhyme request
    ends without an error exactly when every element of the array can be
    listed: none is [null] or [undefined], and the word of each has a string
    form. *)
Theorem rhymeCallback_no_error_iff σ data p :
  data = VNull \/ (exists elems, holds σ data elems) ->
  (forall elems r k, holds σ data elems -> In r elems ->
     getProp σ r "numSyllables" = Ok k -> safeInteger k) ->
  snd (rhymeCallback σ data p) = None
  <-> (forall elems, holds σ data elems -> Forall (shown σ) elems).
Proof.
  intros [->|(elems & Hholds)] Hnum.
  - split; [|reflexivity]. intros _ elems (l & Hl & _). discriminate Hl.
  - specialize (Hnum elems). pose proof Hholds as (l & -> & Hl).
    rewrite (rhymeCallback_array σ l elems p Hl). split.
    + intros H elems' Hholds'. rewrite (holds_unique _ _ _ _ Hholds Hholds').
      destruct elems as [|x elems]; [constructor|].
      destruct (groupBy σ (x :: elems) (FieldName "numSyllables")) as [res|e] eqn:E;
        [|discriminate H].
      apply forEachGroup_None, shown_groups in H.
      apply (Permutation_Forall (groupBy_numbers_perm _ _ _ _ E (fun r k => Hnum r k Hholds))).
      exact H.
    + intros H. specialize (H elems Hholds).
      destruct elems as [|x elems]; [reflexivity|].
      destruct (groupBy_field_total σ (x :: elems) "numSyllables") as [res Hres].
      { revert H. apply List.Forall_impl. intros r. apply shown_notNullish. }
      { intros r k Hr Hk. apply exact_primitive, safeInteger_exact.
        exact (Hnum r k Hholds Hr Hk). }
      rewrite Hres, forEachGroup_all; [reflexivity|].
      apply shown_groups.
      apply (Permutation_Forall
               (Permutation_sym
                  (groupBy_numbers_perm _ _ _ _ Hres (fun r k => Hnum r k Hholds)))).
      exact H.
Qed.

Lemma Answers_words_holds elems :
  holds Answers.σ (VRef 4%nat) elems -> elems = Answers.words.
Proof. intros (l & [= <-] & Hl). vm_compute in Hl. now injection Hl as <-. Qed.

Lemma Answers_words_numSyllables r k :
  In r Answers.words -> getProp Answers.σ r "numSyllables" = Ok k -> safeInteger k.
Proof.
  intros [<-|[<-|[<-|[<-|[]]]]] Hk; vm_compute in Hk; injection Hk as <-;
    eexists; (split; [reflexivity | lia]).
Qed.

Lemma Answers_words_word r w :
  In r Answers.words -> getProp Answers.σ r "word" = Ok w -> exact w.
Proof.
  intros [<-|[<-|[<-|[<-|[]]]]] Hw; vm_compute in Hw; injection Hw as <-; exact I.
Qed.

Lemma rhymeCallback_no_error_iff_witness :
  snd (rhymeCallback Answers.σ (VRef 4%nat) (Pages.start "cat")) = None
  <-> (forall elems, holds Answers.σ (VRef 4%nat) elems -> Forall (shown Answers.σ) elems).
Proof.
  apply (rhymeCallback_no_error_iff Answers.σ (VRef 4%nat) (Pages.start "cat")).
  - right. exists Answers.words, 4%nat. split; reflexivity.
  - intros elems r k Hholds Hr. rewrite (Answers_words_holds elems Hholds) in Hr.
    now apply Answers_words_numSyllables.
Defined.

(** X15.  On an array whose syllable counts are primitive values with an
    exact string form, when the callback of the rhyme request raises, either
    the error is the one of reading [numSyllables] of the first element that
    is [null] or [undefined], nothing is listed and the description is the one
    of the previous request; or no element is [null] or [undefined], the
    error is the one of showing the word of an element, and the description
    has been set. *)
Theorem rhymeCallback_error σ data elems p p' e :
  holds σ data elems ->
  (forall r k, In r elems -> getProp σ r "numSyllables" = Ok k -> exact k) ->
  rhymeCallback σ data p = (p', Some e) ->
  (p' = cleared p /\
   exists pre r post,
     elems = pre ++ r :: post /\
     Forall notNullish pre /\
     getProp σ r "numSyllables" = Throw e) \/
  (Forall notNullish elems /\
   outputDescription p' = [Html ("Words that rhyme with " ++ wordInput p)%string] /\
   exists r, In r elems /\ wordString σ r = Throw e).
Proof.
  intros (l & -> & Hl) Hexact H. rewrite (rhymeCallback_array σ l elems p Hl) in H.
  destruct elems as [|x elems]; [discriminate H|].
  destruct (first_nullish (x :: elems)) as [Hall|(pre & r & post & Heq & Hpre & Hr)].
  - right. split; [assumption|].
    destruct (groupBy_field_total σ (x :: elems) "numSyllables" Hall) as [res Hres].
    { intros r k Hr Hk. apply exact_primitive. exact (Hexact r k Hr Hk). }
    rewrite Hres in H. apply forEachGroup_error in H as (Hd & [s g] & r & Hg & Hr & He).
    split; [exact Hd|]. exists r. split; [|assumption].
    exact (groupBy_group_items _ _ _ _ _ _ _ Hres Hg Hr).
  - left. destruct (getProp_throws σ r "numSyllables" Hr) as [e' He'].
    rewrite Heq, (groupBy_field_throw σ pre r post _ e' Hpre He') in H.
    injection H as <- <-. split; [reflexivity|].
    exists pre, r, post. rewrite Heq. auto.
Qed.

Lemma rhymeCallback_error_witness :
  (cleared (Pages.start "cat") = cleared (Pages.start "cat") /\
   exists pre r post,
     [VRef 0%nat; VNull; VRef 1%nat] = pre ++ r :: post /\
     Forall notNullish pre /\
     getProp Answers.σ r "numSyllables" = Throw (TypeError "Cannot read properties of null")) \/
  (Forall notNullish [VRef 0%nat; VNull; VRef 1%nat] /\
   outputDescription (cleared (Pages.start "cat"))
   = [Html ("Words that rhyme with " ++ wordInput (Pages.start "cat"))%string] /\
   exists r, In r [VRef 0%nat; VNull; VRef 1%nat] /\
             wordString Answers.σ r = Throw (TypeError "Cannot read properties of null")).
Proof.
  apply (rhymeCallback_error Answers.σ (VRef 5%nat) [VRef 0%nat; VNull; VRef 1%nat]
           (Pages.start "cat")).
  - exists 5%nat. split; reflexivity.
  - intros r k [<-|[<-|[<-|[]]]] Hk; vm_compute in Hk; try discriminate Hk;
      injection Hk as <-; simpl; lia.
  - reflexivity.
Defined.

Lemma filter_items_groupNodes σ (groups : list (string * list value)) :
  List.filter isItemNode (flat_map (groupNodes σ) groups)
  = List.map (itemNode σ) (concat (List.map snd groups)).
Proof.
  induction groups as [|[key items] groups IH]; [reflexivity|].
  cbn [flat_map List.map concat]. rewrite List.filter_app, map_app, IH. f_equal.
  unfold groupNodes. cbn [fst snd]. 
  change (List.filter isItemNode (headingNode key :: List.map (itemNode σ) items))
    with (List.filter isItemNode (List.map (itemNode σ) items)).
  induction items as [|item items IHi]; [reflexivity|].
  cbn [List.map]. 
  change (List.filter isItemNode (itemNode σ item :: List.map (itemNode σ) items))
    with (itemNode σ item :: List.filter isItemNode (List.map (itemNode σ) items)).
  now rewrite IHi.
Qed.

Lemma shown_exact σ elems :
  Forall notNullish elems ->
  (forall r w, In r elems -> getProp σ r "word" = Ok w -> exact w) ->
  Forall (fun r => exists w, getProp σ r "word" = Ok w /\ exact w /\
                             wordString σ r = Ok (toString w)) elems.
Proof.
  intros Hall Hexact. apply List.Forall_forall. intros r Hr.
  rewrite List.Forall_forall in Hall. destruct (Hall r Hr) as [Hu Hn].
  destruct (getProp_total σ r "word" Hu Hn) as [w Hw]. exists w.
  split; [assumption|]. split; [exact (Hexact r w Hr Hw)|].
  apply wordString_primitive; [assumption|]. apply exact_primitive. exact (Hexact r w Hr Hw).
Qed.

Lemma itemNodes_exact σ items :
  Forall (fun r => exists w, getProp σ r "word" = Ok w /\ exact w /\
                             wordString σ r = Ok (toString w)) items ->
  Forall2 (fun n r => exists w, getProp σ r "word" = Ok w /\
                                n = Html (listItem (toString w)))
          (List.map (itemNode σ) items) items.
Proof.
  induction 1 as [|r rs (w & Hw & _ & Hs) _ IH]; constructor; [|exact IH].
  exists w. split; [assumption | now apply itemNode_shown].
Qed.

(** X16.  On an array without [null] and [undefined] among its elements,
    whose syllable counts are integers below 2^53 and whose words are
    primitive values with an exact string form, the callback of the rhyme
    request sets the description to the word of the input field and lists
    every element of the answer exactly once, by the string form of its
    word. *)
Theorem rhymeCallback_lists_every_word σ data elems p :
  holds σ data elems -> elems <> [] ->
  Forall notNullish elems ->
  (forall r k, In r elems -> getProp σ r "numSyllables" = Ok k -> safeInteger k) ->
  (forall r w, In r elems -> getProp σ r "word" = Ok w -> exact w) ->
  exists p' listed,
    rhymeCallback σ data p = (p', None) /\
    outputDescription p' = [Html ("Words that rhyme with " ++ wordInput p)%string] /\
    Permutation listed elems /\
    Forall2 (fun n r => exists w, getProp σ r "word" = Ok w /\
                                  n = Html (listItem (toString w)))
            (List.filter isItemNode (wordOutput p')) listed.
Proof.
  intros (l & -> & Hl) Hne Hall Hnum Hword.
  destruct (groupBy_field_total σ elems "numSyllables" Hall) as [res Hres].
  { intros r k Hr Hk. apply exact_primitive, safeInteger_exact. exact (Hnum r k Hr Hk). }
  pose proof (groupBy_numbers_perm _ _ _ _ Hres Hnum) as Hperm.
  pose proof (shown_exact σ elems Hall Hword) as Hshown.
  apply (Permutation_Forall (Permutation_sym Hperm)) in Hshown.
  eexists. exists (flatten res). split.
  - apply (rhymeCallback_run σ l elems p res Hl Hne Hres).
    + revert Hshown. apply List.Forall_impl. intros r (w & _ & _ & Hs). now exists (toString w).
    + intros E. rewrite E in Hperm. apply Permutation_nil in Hperm. congruence.
  - split; [reflexivity|]. split; [assumption|].
    cbn [wordOutput setOutput]. rewrite filter_items_groupNodes.
    exact (itemNodes_exact σ _ Hshown).
Qed.

Lemma rhymeCallback_lists_every_word_witness :
  exists p' listed,
    rhymeCallback Answers.σ (VRef 4%nat) (Pages.start "cat") = (p', None) /\
    outputDescription p' = [Html "Words that rhyme with cat"] /\
    Permutation listed Answers.words /\
    Forall2 (fun n r => exists w, getProp Answers.σ r "word" = Ok w /\
                                  n = Html (listItem (toString w)))
            (List.filter isItemNode (wordOutput p')) listed.
Proof.
  apply (rhymeCallback_lists_every_word Answers.σ (VRef 4%nat) Answers.words
           (Pages.start "cat")).
  - exists 4%nat. split; reflexivity.
  - discriminate.
  - repeat constructor; discriminate.
  - apply Answers_words_numSyllables.
  - apply Answers_words_word.
Defined.

(** *** The callback of the request for similar words *)

Lemma similarCallback_array σ l elems p :
  σ !! l = Some (CArr elems) ->
  similarCallback σ (VRef l) p
  = match elems with
    | [] => (setOutput p [] [Html "(no results)"], None)
    | _ :: _ =>
        forEachItem σ elems
          (setOutput p [Html ("Words with a similar meaning to " ++ wordInput p)%string] [])
    end.
Proof.
  intros H. unfold similarCallback, getProp. rewrite H.
  destruct elems; reflexivity.
Qed.


(** X18.  On an array that is not empty, without [null] and [undefined]
    among its elements and whose words are primitive values with an exact
    string form, the callback of the request for similar words sets the
    description to the word of the input field and lists the elements of the
    answer, each once, in the order of the answer, by the string form of its
    word. *)
Theorem similarCallback_lists_in_order σ data elems p :
  holds σ data elems -> elems <> [] ->
  Forall notNullish elems ->
  (forall r w, In r elems -> getProp σ r "word" = Ok w -> exact w) ->
  exists output,
    similarCallback σ data p
    = (setOutput p [Html ("Words with a similar meaning to " ++ wordInput p)%string]
         output, None) /\
    Forall2 (fun n r => exists w, getProp σ r "word" = Ok w /\
                                  n = Html (listItem (toString w)))
            output elems.
Proof.
  intros (l & -> & Hl) Hne Hall Hword.
  pose proof (shown_exact σ elems Hall Hword) as Hshown.
  exists (List.map (itemNode σ) elems). split.
  - rewrite (similarCallback_array σ l elems p Hl).
    destruct elems as [|x elems]; [contradiction|].
    rewrite forEachItem_all; [reflexivity|].
    revert Hshown. apply List.Forall_impl. intros r (w & _ & _ & Hs). now exists (toString w).
  - exact (itemNodes_exact σ _ Hshown).
Qed.

Lemma similarCallback_lists_in_order_witness :
  exists output,
    similarCallback Answers.σ (VRef 4%nat) (Pages.start "cat")
    = (setOutput (Pages.start "cat") [Html "Words with a similar meaning to cat"]
         output, None) /\
    Forall2 (fun n r => exists w, getProp Answers.σ r "word" = Ok w /\
                                  n = Html (listItem (toString w)))
            output Answers.words.
Proof.
  apply (similarCallback_lists_in_order Answers.σ (VRef 4%nat) Answers.words
           (Pages.start "cat")).
  - exists 4%nat. split; reflexivity.
  - discriminate.
  - repeat constructor; discriminate.
  - apply Answers_words_word.
Defined.

(** X19.  When the callback of the request for similar words raises, either
    the answer is [null] or [undefined], and nothing is shown but the
    description of the previous request; or the answer has a truthy length
    and is no array, the error is that [forEach] is no function, and the new
    description is shown over an empty list; or the answer is an array, the
    error is the one of showing the word of its first element that cannot be
    listed, and the page is left with the new description and one item for
    each element before that one. *)
Theorem similarCallback_error σ data p p' e :
  similarCallback σ data p = (p', Some e) ->
  (~ notNullish data /\ p' = cleared p) \/
  (notNullish data /\ (forall elems, ~ holds σ data elems) /\
   e = TypeError "data.forEach is not a function" /\
   p' = setOutput p [Html ("Words with a similar meaning to " ++ wordInput p)%string] []) \/
  (exists pre r post,
     holds σ data (pre ++ r :: post) /\
     Forall (shown σ) pre /\
     wordString σ r = Throw e /\
     outputDescription p'
     = [Html ("Words with a similar meaning to " ++ wordInput p)%string] /\
     length (wordOutput p') = length pre).
Proof.
  unfold similarCallback. intros H.
  destruct (getProp σ data "length") as [len|e'] eqn:E.
  2:{ left. injection H as <- _. split; [|reflexivity]. now apply getProp_nullish in E. }
  right. pose proof (getProp_Ok_notNullish _ _ _ _ E) as Hdata.
  destruct (truthy len); [|discriminate H].
  destruct data as [| |b|n|s|l];
    try (left; injection H as <- <-;
         split; [assumption|]; split; [|split; reflexivity];
         intros elems (l & Hl & _); discriminate Hl).
  destruct (σ !! l) as [[props|elems|es]|] eqn:El;
    try (left; injection H as <- <-;
         split; [assumption|]; split; [|split; reflexivity];
         intros elems' (l' & [= <-] & Hl'); congruence).
  right.
  destruct (first_failing σ elems) as [Hall|(pre & r & post & e' & -> & Hpre & He)].
  - rewrite (forEachItem_all σ _ _ Hall) in H. discriminate H.
  - rewrite (forEachItem_stops σ pre r post e' _ Hpre He) in H. injection H as <- <-.
    exists pre, r, post. split; [now exists l|]. split; [assumption|]. split; [assumption|].
    split; [reflexivity|]. cbn [wordOutput setOutput setInnerHTML app]. apply length_map.
Qed.

Lemma similarCallback_error_witness :
  (~ notNullish (VRef 5%nat) /\
   setOutput (Pages.start "cat") [Html "Words with a similar meaning to cat"]
     [Html (listItem "a")] = cleared (Pages.start "cat")) \/
  (notNullish (VRef 5%nat) /\ (forall elems, ~ holds Answers.σ (VRef 5%nat) elems) /\
   TypeError "Cannot read properties of null" = TypeError "data.forEach is not a function" /\
   setOutput (Pages.start "cat") [Html "Words with a similar meaning to cat"]
     [Html (listItem "a")]
   = setOutput (Pages.start "cat")
       [Html ("Words with a similar meaning to " ++ wordInput (Pages.start "cat"))%string] []) \/
  (exists pre r post,
     holds Answers.σ (VRef 5%nat) (pre ++ r :: post) /\
     Forall (shown Answers.σ) pre /\
     wordString Answers.σ r = Throw (TypeError "Cannot read properties of null") /\
     outputDescription
       (setOutput (Pages.start "cat") [Html "Words with a similar meaning to cat"]
          [Html (listItem "a")])
     = [Html ("Words with a similar meaning to " ++ wordInput (Pages.start "cat"))%string] /\
     length (wordOutput
               (setOutput (Pages.start "cat") [Html "Words with a similar meaning to cat"]
                  [Html (listItem "a")]))
     = length pre).
Proof.
  apply (similarCallback_error Answers.σ (VRef 5%nat) (Pages.start "cat")).
  reflexivity.
Defined.
